(** * Kiosk shell: window / output / seat coordination

    A shallow embedding of [kiosk-shell/kiosk-shell.c]: the per-window side
    record [kiosk_shell_surface], the per-output record [kiosk_shell_output]
    with its affinity list, the per-seat record [kiosk_shell_seat], and the
    libweston-desktop callbacks that drive them.

    Pointers are keys into finite maps (one map per C struct type), [NULL]
    is [None].  A function that dereferences a pointer returns [None] when
    the C code would read freed or unterminated memory, or would loop for
    ever; every theorem that promises a result proves [Some _]. *)

From Stdlib Require Import ZArith Lia Ascii String.
From stdpp Require Import base option list gmap strings.

Local Open Scope Z_scope.
Local Open Scope nat_scope.

(** ** C strings

    A [char *] is the list of its characters before the terminating NUL; a
    pointer into it is an offset.  Reading at the offset of the terminator
    yields NUL, reading beyond it is undefined. *)

Module CString.

Definition NUL : ascii := "000"%char.
Definition COMMA : ascii := ","%char.

Abbreviation cstring := (list ascii).

Definition of_string (s : string) : cstring := String.list_ascii_of_string s.

(** No NUL before the terminator: what every value of type [char *] that is
    used as a string satisfies. *)
Definition c_string (s : cstring) : Prop := NUL ∉ s.

(** [s[i]] *)
Definition char_at (s : cstring) (i : nat) : option ascii :=
  match s !! i with
  | Some c => Some c
  | None => if decide (i = length s) then Some NUL else None
  end.

(** [strncmp(h, n, strlen(n)) == 0] *)
Fixpoint starts_with (h n : cstring) {struct n} : bool :=
  match n, h with
  | [], _ => true
  | _ :: _, [] => false
  | c :: n', d :: h' => if decide (c = d) then starts_with h' n' else false
  end.

(** [strstr(h, n)]: the offset in [h] of the first occurrence of [n], or
    [None] for the NULL result. *)
Fixpoint strstr (h n : cstring) : option nat :=
  if starts_with h n then Some 0
  else match h with
       | [] => None
       | _ :: h' => S <$> strstr h' n
       end.

End CString.

Import CString.

(** ** Affinity lists: [kiosk_shell_output_has_app_id] *)

(** The body of the [while ((cur = strstr(cur, app_id)))] loop, [cur] being
    the offset of the pointer in [app_ids].  One unit of fuel is one
    evaluation of the loop condition. *)
Fixpoint has_app_id_loop (fuel : nat) (app_ids app_id : cstring) (cur : nat)
  : option bool :=
  match fuel with
  | 0 => None
  | S fuel =>
      if decide (cur ≤ length app_ids) then
        match strstr (drop cur app_ids) app_id with
        | None => Some false
        | Some k =>
            let cur := cur + k in
            let app_id_len := length app_id in
            after ← char_at app_ids (cur + app_id_len);
            if bool_decide (after = COMMA) || bool_decide (after = NUL) then
              if bool_decide (cur = 0) then Some true
              else
                before ← char_at app_ids (cur - 1);
                if bool_decide (before = COMMA) then Some true
                else has_app_id_loop fuel app_ids app_id (cur + 1)
            else has_app_id_loop fuel app_ids app_id (cur + 1)
        end
      else None
  end.


(** The specification's reading of a match: [app_id] occurs in [app_ids] at offset
    [p], preceded by the start of the string or a comma and followed by a
    comma or the end of the string. *)
Definition bounded_left (pre : cstring) : Prop :=
  pre = [] ∨ ∃ pre', pre = pre' ++ [COMMA].

Definition bounded_right (post : cstring) : Prop :=
  post = [] ∨ ∃ post', post = COMMA :: post'.

Definition token_at (app_ids app_id : cstring) (p : nat) : Prop :=
  ∃ pre post,
    app_ids = pre ++ app_id ++ post ∧ length pre = p ∧
    bounded_left pre ∧ bounded_right post.

Definition complete_token (app_ids app_id : cstring) : Prop :=
  ∃ p, token_at app_ids app_id p.

(** What the two tests in the loop body decide at an offset [p] where
    [strstr] found the needle. *)
Definition test_passes (app_ids app_id : cstring) (p : nat) : Prop :=
  (char_at app_ids (p + length app_id) = Some COMMA ∨
   char_at app_ids (p + length app_id) = Some NUL) ∧
  (p = 0 ∨ char_at app_ids (p - 1) = Some COMMA).

(** The comma-separated fields of a list, for the reading of a match as
    membership among the fields. *)
Fixpoint split_commas (cur : cstring) (s : cstring) : list cstring :=
  match s with
  | [] => [reverse cur]
  | c :: s' =>
      if decide (c = COMMA) then reverse cur :: split_commas [] s'
      else split_commas (c :: cur) s'
  end.

Definition tokens (s : cstring) : list cstring := split_commas [] s.


(** A window is matched when [app_id] is one of these fields. *)
Definition is_token (app_ids app_id : cstring) : Prop := app_id ∈ tokens app_ids.

(** The fields put together again, with a comma between neighbours. *)
Fixpoint join_commas (l : list cstring) : cstring :=
  match l with
  | [] => []
  | [t] => t
  | t :: l => t ++ COMMA :: join_commas l
  end.

(** ** The heap

    One finite map per struct; the keys stand for the addresses. *)

Abbreviation output_ptr := nat.
Abbreviation surface_ptr := nat.
Abbreviation dsurf_ptr := nat.
Abbreviation view_ptr := nat.
Abbreviation shsurf_ptr := nat.
Abbreviation seat_ptr := nat.

(** [struct weston_output], the fields the shell reads. *)
Record weston_output := {
  output_width : Z;
  output_height : Z
}.

(** [struct weston_view], the fields the shell reads. *)
Record weston_view := {
  view_surface : surface_ptr;
  view_is_mapped : bool
}.

(** Modelled from the spec: the desktop-surface object of libweston-desktop,
    which is not part of the source read here.  It holds the user-data
    association slot, the application identifier, the underlying surface and
    the last value of each command issued through the desktop-surface
    interface ([set_fullscreen(bool)], [set_maximized(bool)],
    [set_size(w,h)], [set_activated(bool)]). *)
Record weston_desktop_surface := {
  ds_user_data : option shsurf_ptr;
  ds_app_id : option (list ascii);
  ds_surface : surface_ptr;
  ds_fullscreen : bool;
  ds_maximized : bool;
  ds_size : Z * Z;
  ds_activated : bool
}.

(** [struct kiosk_shell_output] *)
Record kiosk_shell_output := {
  shoutput_output : option output_ptr;
  shoutput_app_ids : option (list ascii)
}.

(** [struct kiosk_shell_surface].  A [wl_listener] whose [notify] is set is
    linked into exactly one signal: [output_destroy_listener] into the
    destroy signal of [output], [parent_destroy_listener] into
    [destroy_signal] of [parent].  [destroy_signal] lists the surfaces whose
    [parent_destroy_listener] is linked into it, oldest first. *)
Record kiosk_shell_surface := {
  shsurf_desktop_surface : option dsurf_ptr;
  shsurf_view : view_ptr;
  shsurf_output : option output_ptr;
  shsurf_output_destroy_listener : bool;
  shsurf_destroy_signal : list shsurf_ptr;
  shsurf_parent_destroy_listener : bool;
  shsurf_parent : option shsurf_ptr;
  shsurf_focus_count : Z
}.

(** [struct kiosk_shell_seat] *)
Record kiosk_shell_seat := {
  shseat_focused_surface : option surface_ptr
}.

(** What the shell asks of its collaborators, in the order asked. *)
Inductive command :=
  | SetFullscreen (ds : dsurf_ptr) (fullscreen : bool)
  | SetMaximized (ds : dsurf_ptr) (maximized : bool)
  | SetSize (ds : dsurf_ptr) (width height : Z)
  | SetActivated (ds : dsurf_ptr) (activated : bool)
  | SetUserData (ds : dsurf_ptr) (data : option shsurf_ptr)
  | UnlinkView (view : view_ptr)
  | ViewDestroy (view : view_ptr)
  | ViewActivate (view : view_ptr) (seat : seat_ptr) (flags : Z)
  | EmitDestroy (shsurf : shsurf_ptr)
  | PostNoMemory
  | LogNoMemory
  | Free (shsurf : shsurf_ptr).

#[global] Instance command_eq_dec : EqDecision command.
Proof. solve_decision. Defined.

(** [struct kiosk_shell] together with the compositor state its callbacks
    read.  [focused_output] and [default_output] are the results of
    [get_focused_output] and [get_default_output]; [main_surface] is
    [weston_surface_get_main_surface] on a non-NULL surface;
    [keyboard_focus] gives, for a seat with a keyboard, [keyboard->focus]. *)
Record kiosk_shell := {
  surfaces : gmap shsurf_ptr kiosk_shell_surface;
  desktop_surfaces : gmap dsurf_ptr weston_desktop_surface;
  views : gmap view_ptr weston_view;
  surface_desktop : gmap surface_ptr dsurf_ptr;
  main_surface : surface_ptr → surface_ptr;
  outputs : gmap output_ptr weston_output;
  output_list : list kiosk_shell_output;
  normal_layer : list view_ptr;
  seat_list : list seat_ptr;
  seats : gmap seat_ptr kiosk_shell_seat;
  keyboard_focus : gmap seat_ptr (option surface_ptr);
  focused_output : option output_ptr;
  default_output : option output_ptr;
  journal : list command
}.

(** Field updates of [struct kiosk_shell]. *)

Definition with_surfaces (x : _) (shell : kiosk_shell) : kiosk_shell :=
  {| surfaces := x;
     desktop_surfaces := desktop_surfaces shell;
     views := views shell;
     surface_desktop := surface_desktop shell;
     main_surface := main_surface shell;
     outputs := outputs shell;
     output_list := output_list shell;
     normal_layer := normal_layer shell;
     seat_list := seat_list shell;
     seats := seats shell;
     keyboard_focus := keyboard_focus shell;
     focused_output := focused_output shell;
     default_output := default_output shell;
     journal := journal shell |}.

Definition with_desktop_surfaces (x : _) (shell : kiosk_shell) : kiosk_shell :=
  {| surfaces := surfaces shell;
     desktop_surfaces := x;
     views := views shell;
     surface_desktop := surface_desktop shell;
     main_surface := main_surface shell;
     outputs := outputs shell;
     output_list := output_list shell;
     normal_layer := normal_layer shell;
     seat_list := seat_list shell;
     seats := seats shell;
     keyboard_focus := keyboard_focus shell;
     focused_output := focused_output shell;
     default_output := default_output shell;
     journal := journal shell |}.

Definition with_views (x : _) (shell : kiosk_shell) : kiosk_shell :=
  {| surfaces := surfaces shell;
     desktop_surfaces := desktop_surfaces shell;
     views := x;
     surface_desktop := surface_desktop shell;
     main_surface := main_surface shell;
     outputs := outputs shell;
     output_list := output_list shell;
     normal_layer := normal_layer shell;
     seat_list := seat_list shell;
     seats := seats shell;
     keyboard_focus := keyboard_focus shell;
     focused_output := focused_output shell;
     default_output := default_output shell;
     journal := journal shell |}.

Definition with_output_list (x : _) (shell : kiosk_shell) : kiosk_shell :=
  {| surfaces := surfaces shell;
     desktop_surfaces := desktop_surfaces shell;
     views := views shell;
     surface_desktop := surface_desktop shell;
     main_surface := main_surface shell;
     outputs := outputs shell;
     output_list := x;
     normal_layer := normal_layer shell;
     seat_list := seat_list shell;
     seats := seats shell;
     keyboard_focus := keyboard_focus shell;
     focused_output := focused_output shell;
     default_output := default_output shell;
     journal := journal shell |}.

Definition with_outputs (x : _) (shell : kiosk_shell) : kiosk_shell :=
  {| surfaces := surfaces shell;
     desktop_surfaces := desktop_surfaces shell;
     views := views shell;
     surface_desktop := surface_desktop shell;
     main_surface := main_surface shell;
     outputs := x;
     output_list := output_list shell;
     normal_layer := normal_layer shell;
     seat_list := seat_list shell;
     seats := seats shell;
     keyboard_focus := keyboard_focus shell;
     focused_output := focused_output shell;
     default_output := default_output shell;
     journal := journal shell |}.

Definition with_normal_layer (x : _) (shell : kiosk_shell) : kiosk_shell :=
  {| surfaces := surfaces shell;
     desktop_surfaces := desktop_surfaces shell;
     views := views shell;
     surface_desktop := surface_desktop shell;
     main_surface := main_surface shell;
     outputs := outputs shell;
     output_list := output_list shell;
     normal_layer := x;
     seat_list := seat_list shell;
     seats := seats shell;
     keyboard_focus := keyboard_focus shell;
     focused_output := focused_output shell;
     default_output := default_output shell;
     journal := journal shell |}.

Definition with_seat_list (x : _) (shell : kiosk_shell) : kiosk_shell :=
  {| surfaces := surfaces shell;
     desktop_surfaces := desktop_surfaces shell;
     views := views shell;
     surface_desktop := surface_desktop shell;
     main_surface := main_surface shell;
     outputs := outputs shell;
     output_list := output_list shell;
     normal_layer := normal_layer shell;
     seat_list := x;
     seats := seats shell;
     keyboard_focus := keyboard_focus shell;
     focused_output := focused_output shell;
     default_output := default_output shell;
     journal := journal shell |}.

Definition with_seats (x : _) (shell : kiosk_shell) : kiosk_shell :=
  {| surfaces := surfaces shell;
     desktop_surfaces := desktop_surfaces shell;
     views := views shell;
     surface_desktop := surface_desktop shell;
     main_surface := main_surface shell;
     outputs := outputs shell;
     output_list := output_list shell;
     normal_layer := normal_layer shell;
     seat_list := seat_list shell;
     seats := x;
     keyboard_focus := keyboard_focus shell;
     focused_output := focused_output shell;
     default_output := default_output shell;
     journal := journal shell |}.

Definition with_keyboard_focus (x : _) (shell : kiosk_shell) : kiosk_shell :=
  {| surfaces := surfaces shell;
     desktop_surfaces := desktop_surfaces shell;
     views := views shell;
     surface_desktop := surface_desktop shell;
     main_surface := main_surface shell;
     outputs := outputs shell;
     output_list := output_list shell;
     normal_layer := normal_layer shell;
     seat_list := seat_list shell;
     seats := seats shell;
     keyboard_focus := x;
     focused_output := focused_output shell;
     default_output := default_output shell;
     journal := journal shell |}.

Definition with_journal (x : _) (shell : kiosk_shell) : kiosk_shell :=
  {| surfaces := surfaces shell;
     desktop_surfaces := desktop_surfaces shell;
     views := views shell;
     surface_desktop := surface_desktop shell;
     main_surface := main_surface shell;
     outputs := outputs shell;
     output_list := output_list shell;
     normal_layer := normal_layer shell;
     seat_list := seat_list shell;
     seats := seats shell;
     keyboard_focus := keyboard_focus shell;
     focused_output := focused_output shell;
     default_output := default_output shell;
     journal := x |}.

(** Field updates of [struct kiosk_shell_surface]. *)

Definition with_shsurf_desktop_surface (x : option dsurf_ptr)
    (r : kiosk_shell_surface) : kiosk_shell_surface :=
  {| shsurf_desktop_surface := x; shsurf_view := shsurf_view r;
     shsurf_output := shsurf_output r;
     shsurf_output_destroy_listener := shsurf_output_destroy_listener r;
     shsurf_destroy_signal := shsurf_destroy_signal r;
     shsurf_parent_destroy_listener := shsurf_parent_destroy_listener r;
     shsurf_parent := shsurf_parent r;
     shsurf_focus_count := shsurf_focus_count r |}.

Definition with_shsurf_output (x : option output_ptr)
    (r : kiosk_shell_surface) : kiosk_shell_surface :=
  {| shsurf_desktop_surface := shsurf_desktop_surface r;
     shsurf_view := shsurf_view r;
     shsurf_output := x;
     shsurf_output_destroy_listener := shsurf_output_destroy_listener r;
     shsurf_destroy_signal := shsurf_destroy_signal r;
     shsurf_parent_destroy_listener := shsurf_parent_destroy_listener r;
     shsurf_parent := shsurf_parent r;
     shsurf_focus_count := shsurf_focus_count r |}.

Definition with_shsurf_output_destroy_listener (x : bool)
    (r : kiosk_shell_surface) : kiosk_shell_surface :=
  {| shsurf_desktop_surface := shsurf_desktop_surface r;
     shsurf_view := shsurf_view r;
     shsurf_output := shsurf_output r;
     shsurf_output_destroy_listener := x;
     shsurf_destroy_signal := shsurf_destroy_signal r;
     shsurf_parent_destroy_listener := shsurf_parent_destroy_listener r;
     shsurf_parent := shsurf_parent r;
     shsurf_focus_count := shsurf_focus_count r |}.

Definition with_shsurf_destroy_signal (x : list shsurf_ptr)
    (r : kiosk_shell_surface) : kiosk_shell_surface :=
  {| shsurf_desktop_surface := shsurf_desktop_surface r;
     shsurf_view := shsurf_view r;
     shsurf_output := shsurf_output r;
     shsurf_output_destroy_listener := shsurf_output_destroy_listener r;
     shsurf_destroy_signal := x;
     shsurf_parent_destroy_listener := shsurf_parent_destroy_listener r;
     shsurf_parent := shsurf_parent r;
     shsurf_focus_count := shsurf_focus_count r |}.

Definition with_shsurf_parent_destroy_listener (x : bool)
    (r : kiosk_shell_surface) : kiosk_shell_surface :=
  {| shsurf_desktop_surface := shsurf_desktop_surface r;
     shsurf_view := shsurf_view r;
     shsurf_output := shsurf_output r;
     shsurf_output_destroy_listener := shsurf_output_destroy_listener r;
     shsurf_destroy_signal := shsurf_destroy_signal r;
     shsurf_parent_destroy_listener := x;
     shsurf_parent := shsurf_parent r;
     shsurf_focus_count := shsurf_focus_count r |}.

Definition with_shsurf_parent (x : option shsurf_ptr)
    (r : kiosk_shell_surface) : kiosk_shell_surface :=
  {| shsurf_desktop_surface := shsurf_desktop_surface r;
     shsurf_view := shsurf_view r;
     shsurf_output := shsurf_output r;
     shsurf_output_destroy_listener := shsurf_output_destroy_listener r;
     shsurf_destroy_signal := shsurf_destroy_signal r;
     shsurf_parent_destroy_listener := shsurf_parent_destroy_listener r;
     shsurf_parent := x;
     shsurf_focus_count := shsurf_focus_count r |}.

Definition with_shsurf_focus_count (x : Z)
    (r : kiosk_shell_surface) : kiosk_shell_surface :=
  {| shsurf_desktop_surface := shsurf_desktop_surface r;
     shsurf_view := shsurf_view r;
     shsurf_output := shsurf_output r;
     shsurf_output_destroy_listener := shsurf_output_destroy_listener r;
     shsurf_destroy_signal := shsurf_destroy_signal r;
     shsurf_parent_destroy_listener := shsurf_parent_destroy_listener r;
     shsurf_parent := shsurf_parent r;
     shsurf_focus_count := x |}.

(** Field updates of the desktop-surface object. *)

Definition with_ds_user_data (x : option shsurf_ptr)
    (d : weston_desktop_surface) : weston_desktop_surface :=
  {| ds_user_data := x; ds_app_id := ds_app_id d; ds_surface := ds_surface d;
     ds_fullscreen := ds_fullscreen d; ds_maximized := ds_maximized d;
     ds_size := ds_size d; ds_activated := ds_activated d |}.

Definition with_ds_fullscreen (x : bool)
    (d : weston_desktop_surface) : weston_desktop_surface :=
  {| ds_user_data := ds_user_data d; ds_app_id := ds_app_id d;
     ds_surface := ds_surface d;
     ds_fullscreen := x; ds_maximized := ds_maximized d;
     ds_size := ds_size d; ds_activated := ds_activated d |}.

Definition with_ds_maximized (x : bool)
    (d : weston_desktop_surface) : weston_desktop_surface :=
  {| ds_user_data := ds_user_data d; ds_app_id := ds_app_id d;
     ds_surface := ds_surface d;
     ds_fullscreen := ds_fullscreen d; ds_maximized := x;
     ds_size := ds_size d; ds_activated := ds_activated d |}.

Definition with_ds_size (x : Z * Z)
    (d : weston_desktop_surface) : weston_desktop_surface :=
  {| ds_user_data := ds_user_data d; ds_app_id := ds_app_id d;
     ds_surface := ds_surface d;
     ds_fullscreen := ds_fullscreen d; ds_maximized := ds_maximized d;
     ds_size := x; ds_activated := ds_activated d |}.

Definition with_ds_activated (x : bool)
    (d : weston_desktop_surface) : weston_desktop_surface :=
  {| ds_user_data := ds_user_data d; ds_app_id := ds_app_id d;
     ds_surface := ds_surface d;
     ds_fullscreen := ds_fullscreen d; ds_maximized := ds_maximized d;
     ds_size := ds_size d; ds_activated := x |}.

(** ** Collaborator commands

    Modelled from the spec: each command of the desktop-surface interface
    records its argument in the desktop-surface object and is appended to
    the journal; view commands are appended to the journal, and destroying
    a view also takes it out of the view heap and of the layer list.  What
    the compositor does in response (a keyboard focus change after
    [weston_view_activate], say) reaches the shell as a later event. *)

Definition log (c : command) (shell : kiosk_shell) : kiosk_shell :=
  with_journal (journal shell ++ [c]) shell.

Definition desktop_command (ds : dsurf_ptr)
    (f : weston_desktop_surface → weston_desktop_surface) (c : command)
    (shell : kiosk_shell) : option kiosk_shell :=
  d ← desktop_surfaces shell !! ds;
  Some (log c (with_desktop_surfaces (<[ds := f d]> (desktop_surfaces shell)) shell)).

Definition weston_desktop_surface_set_fullscreen (ds : dsurf_ptr) (b : bool) :=
  desktop_command ds (with_ds_fullscreen b) (SetFullscreen ds b).

Definition weston_desktop_surface_set_maximized (ds : dsurf_ptr) (b : bool) :=
  desktop_command ds (with_ds_maximized b) (SetMaximized ds b).

Definition weston_desktop_surface_set_size (ds : dsurf_ptr) (w h : Z) :=
  desktop_command ds (with_ds_size (w, h)) (SetSize ds w h).

Definition weston_desktop_surface_set_activated (ds : dsurf_ptr) (b : bool) :=
  desktop_command ds (with_ds_activated b) (SetActivated ds b).

Definition weston_desktop_surface_set_user_data (ds : dsurf_ptr)
    (data : option shsurf_ptr) :=
  desktop_command ds (with_ds_user_data data) (SetUserData ds data).

Definition weston_desktop_surface_get_user_data (shell : kiosk_shell)
    (ds : dsurf_ptr) : option shsurf_ptr :=
  d ← desktop_surfaces shell !! ds; ds_user_data d.

Definition weston_view_activate (view : view_ptr) (seat : seat_ptr) (flags : Z)
    (shell : kiosk_shell) : kiosk_shell :=
  log (ViewActivate view seat flags) shell.

Definition weston_desktop_surface_unlink_view (view : view_ptr)
    (shell : kiosk_shell) : kiosk_shell :=
  log (UnlinkView view) shell.

Definition weston_view_destroy (view : view_ptr) (shell : kiosk_shell)
  : kiosk_shell :=
  log (ViewDestroy view)
    (with_normal_layer (filter (λ v, v ≠ view) (normal_layer shell))
       (with_views (delete view (views shell)) shell)).

(** ** [kiosk_shell_surface] *)

Definition get_kiosk_shell_surface (shell : kiosk_shell) (surface : surface_ptr)
  : option shsurf_ptr :=
  desktop_surface ← surface_desktop shell !! surface;
  weston_desktop_surface_get_user_data shell desktop_surface.

(** A store through the pointer [shsurf]; [None] when it is not allocated. *)
Definition update_shsurf (shsurf : shsurf_ptr)
    (f : kiosk_shell_surface → kiosk_shell_surface) (shell : kiosk_shell)
  : option kiosk_shell :=
  r ← surfaces shell !! shsurf;
  Some (with_surfaces (<[shsurf := f r]> (surfaces shell)) shell).

(** [while (root->parent) root = root->parent;] *)
Fixpoint get_parent_root_loop (fuel : nat)
    (heap : gmap shsurf_ptr kiosk_shell_surface) (root : shsurf_ptr)
  : option shsurf_ptr :=
  r ← heap !! root;
  match shsurf_parent r with
  | None => Some root
  | Some parent =>
      match fuel with
      | 0 => None
      | S fuel => get_parent_root_loop fuel heap parent
      end
  end.

(** A chain that reaches a root visits every record at most once, so it
    takes fewer steps than there are records; [None] stands for a chain
    that leaves the heap or runs in a cycle. *)
Definition kiosk_shell_surface_get_parent_root (shell : kiosk_shell)
    (shsurf : shsurf_ptr) : option shsurf_ptr :=
  get_parent_root_loop (size (surfaces shell)) (surfaces shell) shsurf.

(** [shoutput->app_ids] is NULL or a string.  The loop condition is
    evaluated at most [strlen(app_ids) + 2] times before the pointer would
    leave the string, which is the result [None]. *)
Definition kiosk_shell_output_has_app_id (shoutput : kiosk_shell_output)
    (app_id : list ascii) : option bool :=
  match shoutput_app_ids shoutput with
  | None => Some false
  | Some app_ids => has_app_id_loop (length app_ids + 2) app_ids app_id 0
  end.

(** [wl_list_for_each(shoutput, &shell->output_list, link)] of
    [kiosk_shell_surface_find_best_output]. *)
Fixpoint find_designated_output (l : list kiosk_shell_output)
    (app_id : list ascii) : option (option kiosk_shell_output) :=
  match l with
  | [] => Some None
  | shoutput :: l =>
      found ← kiosk_shell_output_has_app_id shoutput app_id;
      if found : bool then Some (Some shoutput)
      else find_designated_output l app_id
  end.

Definition kiosk_shell_surface_find_best_output (shell : kiosk_shell)
    (shsurf : shsurf_ptr) : option (option output_ptr) :=
  r ← surfaces shell !! shsurf;
  match shsurf_output r with
  | Some output => Some (Some output)
  | None =>
      ds ← shsurf_desktop_surface r;
      d ← desktop_surfaces shell !! ds;
      designated ← match ds_app_id d with
                    | Some app_id => find_designated_output (output_list shell) app_id
                    | None => Some None
                    end;
      match designated with
      | Some shoutput => Some (shoutput_output shoutput)
      | None =>
          root ← kiosk_shell_surface_get_parent_root shell shsurf;
          rr ← surfaces shell !! root;
          match shsurf_output rr with
          | Some output => Some (Some output)
          | None =>
              match focused_output shell with
              | Some output => Some (Some output)
              | None =>
                  match default_output shell with
                  | Some output => Some (Some output)
                  | None => Some None
                  end
              end
          end
      end
  end.

Definition kiosk_shell_surface_set_output (shell : kiosk_shell)
    (shsurf : shsurf_ptr) (output : option output_ptr) : option kiosk_shell :=
  shell ← update_shsurf shsurf (with_shsurf_output output) shell;
  r ← surfaces shell !! shsurf;
  shell ← (if shsurf_output_destroy_listener r
            then update_shsurf shsurf (with_shsurf_output_destroy_listener false) shell
            else Some shell);
  match output with
  | None => Some shell
  | Some o =>
      _ ← outputs shell !! o;
      update_shsurf shsurf (with_shsurf_output_destroy_listener true) shell
  end.

(** [weston_desktop_surface_set_size(ds, shsurf->output->width, ...)] of
    the fullscreen and maximized paths. *)
Definition set_size_of_output (shell : kiosk_shell) (shsurf : shsurf_ptr)
    (ds : dsurf_ptr) : option kiosk_shell :=
  r ← surfaces shell !! shsurf;
  match shsurf_output r with
  | Some o =>
      out ← outputs shell !! o;
      weston_desktop_surface_set_size ds (output_width out) (output_height out) shell
  | None => Some shell
  end.

Definition kiosk_shell_surface_set_fullscreen (shell : kiosk_shell)
    (shsurf : shsurf_ptr) (output : option output_ptr) : option kiosk_shell :=
  output ← match output with
            | Some o => Some (Some o)
            | None => kiosk_shell_surface_find_best_output shell shsurf
            end;
  shell ← kiosk_shell_surface_set_output shell shsurf output;
  r ← surfaces shell !! shsurf;
  ds ← shsurf_desktop_surface r;
  shell ← weston_desktop_surface_set_fullscreen ds true shell;
  set_size_of_output shell shsurf ds.

Definition kiosk_shell_surface_set_maximized (shell : kiosk_shell)
    (shsurf : shsurf_ptr) : option kiosk_shell :=
  output ← kiosk_shell_surface_find_best_output shell shsurf;
  shell ← kiosk_shell_surface_set_output shell shsurf output;
  r ← surfaces shell !! shsurf;
  ds ← shsurf_desktop_surface r;
  shell ← weston_desktop_surface_set_maximized ds true shell;
  set_size_of_output shell shsurf ds.

Definition kiosk_shell_surface_set_normal (shell : kiosk_shell)
    (shsurf : shsurf_ptr) : option kiosk_shell :=
  r ← surfaces shell !! shsurf;
  shell ← (if shsurf_output r is None
            then output ← kiosk_shell_surface_find_best_output shell shsurf;
                 kiosk_shell_surface_set_output shell shsurf output
            else Some shell);
  r ← surfaces shell !! shsurf;
  ds ← shsurf_desktop_surface r;
  shell ← weston_desktop_surface_set_fullscreen ds false shell;
  shell ← weston_desktop_surface_set_maximized ds false shell;
  weston_desktop_surface_set_size ds 0 0 shell.

(** [wl_list_remove(&shsurf->parent_destroy_listener.link)]: the link is in
    the destroy signal of the surface [shsurf->parent] points to. *)
Definition unlink_parent_destroy_listener (shell : kiosk_shell)
    (shsurf : shsurf_ptr) (r : kiosk_shell_surface) : kiosk_shell :=
  match shsurf_parent r with
  | Some parent =>
      with_surfaces
        (alter (λ p, with_shsurf_destroy_signal
                       (filter (λ l, l ≠ shsurf) (shsurf_destroy_signal p)) p)
               parent (surfaces shell)) shell
  | None => shell
  end.

(** [wl_signal_add(&shsurf->parent->destroy_signal, ...)] *)
Definition link_parent_destroy_listener (shell : kiosk_shell)
    (shsurf parent : shsurf_ptr) : option kiosk_shell :=
  update_shsurf parent
    (λ p, with_shsurf_destroy_signal (shsurf_destroy_signal p ++ [shsurf]) p)
    shell.

Definition kiosk_shell_surface_set_parent (shell : kiosk_shell)
    (shsurf : shsurf_ptr) (parent : option shsurf_ptr) : option kiosk_shell :=
  r ← surfaces shell !! shsurf;
  shell ← (if shsurf_parent_destroy_listener r
            then update_shsurf shsurf (with_shsurf_parent_destroy_listener false)
                   (unlink_parent_destroy_listener shell shsurf r)
            else Some shell);
  shell ← update_shsurf shsurf (with_shsurf_parent parent) shell;
  match parent with
  | Some p =>
      shell ← update_shsurf shsurf (with_shsurf_parent_destroy_listener true) shell;
      shell ← link_parent_destroy_listener shell shsurf p;
      shell ← kiosk_shell_surface_set_output shell shsurf None;
      kiosk_shell_surface_set_normal shell shsurf
  | None =>
      r ← surfaces shell !! shsurf;
      kiosk_shell_surface_set_fullscreen shell shsurf (shsurf_output r)
  end.

Definition kiosk_shell_surface_notify_parent_destroy (shell : kiosk_shell)
    (shsurf : shsurf_ptr) : option kiosk_shell :=
  r ← surfaces shell !! shsurf;
  parent ← shsurf_parent r;
  p ← surfaces shell !! parent;
  kiosk_shell_surface_set_parent shell shsurf (shsurf_parent p).

Definition kiosk_shell_surface_notify_output_destroy (shell : kiosk_shell)
    (shsurf : shsurf_ptr) : option kiosk_shell :=
  kiosk_shell_surface_set_output shell shsurf None.

(** Calling the listeners of a signal in turn. *)
Fixpoint notify_all (notify : kiosk_shell → shsurf_ptr → option kiosk_shell)
    (listeners : list shsurf_ptr) (shell : kiosk_shell) : option kiosk_shell :=
  match listeners with
  | [] => Some shell
  | l :: listeners => shell ← notify shell l; notify_all notify listeners shell
  end.

(** [wl_signal_emit(&shsurf->destroy_signal, shsurf)].  The listeners of
    this signal that the source read here installs are the
    [parent_destroy_listener]s of the children.  Each of them unlinks itself
    and links into the signal of the grandparent; the walk over the list is
    the walk over the listeners present at the emission as long as that is
    another list, so a surface that is its own parent is left out. *)
Definition emit_destroy_signal (shell : kiosk_shell) (shsurf : shsurf_ptr)
  : option kiosk_shell :=
  r ← surfaces shell !! shsurf;
  if bool_decide (shsurf_parent r = Some shsurf) then None
  else notify_all kiosk_shell_surface_notify_parent_destroy
         (shsurf_destroy_signal r) (log (EmitDestroy shsurf) shell).

(** What [kiosk_shell_surface_destroy] does after the emission. *)
Definition destroy_teardown (shell : kiosk_shell) (shsurf : shsurf_ptr)
  : option kiosk_shell :=
  r ← surfaces shell !! shsurf;
  ds ← shsurf_desktop_surface r;
  shell ← weston_desktop_surface_set_user_data ds None shell;
  shell ← update_shsurf shsurf (with_shsurf_desktop_surface None) shell;
  let shell := weston_desktop_surface_unlink_view (shsurf_view r) shell in
  let shell := weston_view_destroy (shsurf_view r) shell in
  r ← surfaces shell !! shsurf;
  shell ← (if shsurf_output_destroy_listener r
            then update_shsurf shsurf (with_shsurf_output_destroy_listener false) shell
            else Some shell);
  shell ← (if shsurf_parent_destroy_listener r
            then
              shell ← update_shsurf shsurf (with_shsurf_parent_destroy_listener false)
                        (unlink_parent_destroy_listener shell shsurf r);
              update_shsurf shsurf (with_shsurf_parent None) shell
            else Some shell);
  Some (log (Free shsurf) (with_surfaces (delete shsurf (surfaces shell)) shell)).

Definition kiosk_shell_surface_destroy (shell : kiosk_shell)
    (shsurf : shsurf_ptr) : option kiosk_shell :=
  shell ← emit_destroy_signal shell shsurf;
  destroy_teardown shell shsurf.

(** The record [kiosk_shell_surface_create] fills in: [zalloc] zeroes it,
    then the desktop surface, the view and the (empty) destroy signal are
    set. *)
Definition created_surface (desktop_surface : dsurf_ptr) (view : view_ptr)
  : kiosk_shell_surface :=
  {| shsurf_desktop_surface := Some desktop_surface;
     shsurf_view := view;
     shsurf_output := None;
     shsurf_output_destroy_listener := false;
     shsurf_destroy_signal := [];
     shsurf_parent_destroy_listener := false;
     shsurf_parent := None;
     shsurf_focus_count := 0 |}.

(** [kiosk_shell_surface_create].  [view] is what
    [weston_desktop_surface_create_view] returns and [alloc] what [zalloc]
    returns; [wl_client] tells whether the client is known. *)
Definition kiosk_shell_surface_create (shell : kiosk_shell)
    (desktop_surface : dsurf_ptr) (view : option view_ptr)
    (alloc : option shsurf_ptr) (wl_client : bool)
  : option (kiosk_shell * option shsurf_ptr) :=
  match view with
  | None => Some (shell, None)
  | Some view =>
      d ← desktop_surfaces shell !! desktop_surface;
      let shell :=
        with_views (<[view := {| view_surface := ds_surface d;
                                 view_is_mapped := false |}]> (views shell))
          shell in
      match alloc with
      | None =>
          Some (log (if wl_client then PostNoMemory else LogNoMemory) shell, None)
      | Some shsurf =>
          let r := created_surface desktop_surface view in
          shell ← weston_desktop_surface_set_user_data desktop_surface (Some shsurf)
                    (with_surfaces (<[shsurf := r]> (surfaces shell)) shell);
          Some (shell, Some shsurf)
      end
  end.

(** ** [kiosk_shell_seat] *)

(** One half of the focus handler: the surface the seat loses. *)
Definition focus_leave (shell : kiosk_shell) (focused : option surface_ptr)
  : option kiosk_shell :=
  match focused with
  | None => Some shell
  | Some surface =>
      match get_kiosk_shell_surface shell surface with
      | None => Some shell
      | Some shsurf =>
          r ← surfaces shell !! shsurf;
          let count := (shsurf_focus_count r - 1)%Z in
          shell ← update_shsurf shsurf (with_shsurf_focus_count count) shell;
          if bool_decide (count = 0%Z)
          then ds ← shsurf_desktop_surface r;
               weston_desktop_surface_set_activated ds false shell
          else Some shell
      end
  end.

(** The other half: the surface the seat gains. *)
Definition focus_enter (shell : kiosk_shell) (focused : option surface_ptr)
  : option kiosk_shell :=
  match focused with
  | None => Some shell
  | Some surface =>
      match get_kiosk_shell_surface shell surface with
      | None => Some shell
      | Some shsurf =>
          r ← surfaces shell !! shsurf;
          let count := shsurf_focus_count r in
          shell ← update_shsurf shsurf (with_shsurf_focus_count (count + 1)%Z) shell;
          if bool_decide (count = 0%Z)
          then ds ← shsurf_desktop_surface r;
               weston_desktop_surface_set_activated ds true shell
          else Some shell
      end
  end.

(** [focus] is [keyboard->focus] of the keyboard of [seat];
    [get_kiosk_shell_seat] asserts that the seat has a record. *)
Definition kiosk_shell_seat_handle_keyboard_focus (shell : kiosk_shell)
    (seat : seat_ptr) (focus : option surface_ptr) : option kiosk_shell :=
  shseat ← seats shell !! seat;
  shell ← focus_leave shell (shseat_focused_surface shseat);
  let focused_surface := main_surface shell <$> focus in
  let shell :=
    with_seats (<[seat := {| shseat_focused_surface := focused_surface |}]>
                  (seats shell)) shell in
  focus_enter shell focused_surface.

Definition kiosk_shell_seat_create (shell : kiosk_shell) (seat : seat_ptr)
    (alloc : bool) : kiosk_shell :=
  if alloc
  then with_seats (<[seat := {| shseat_focused_surface := None |}]> (seats shell)) shell
  else log LogNoMemory shell.

Definition kiosk_shell_seat_handle_destroy (shell : kiosk_shell)
    (seat : seat_ptr) : kiosk_shell :=
  with_seats (delete seat (seats shell)) shell.

(** ** [kiosk_shell_output] *)

(** [kiosk_shell_output_create]; [app_ids] is what the configuration holds
    under key [app-ids] for the output's name.  The background surface is
    not modelled. *)
Definition kiosk_shell_output_create (shell : kiosk_shell) (output : output_ptr)
    (app_ids : option (list ascii)) (alloc : bool) : kiosk_shell :=
  if alloc
  then with_output_list
         (output_list shell ++ [{| shoutput_output := Some output;
                                   shoutput_app_ids := app_ids |}]) shell
  else shell.

(** The shell's share of the destruction of [output]: the compositor emits
    the output's destroy signal, into which are linked the
    [output_destroy_listener] of every surface bound to it and that of its
    [kiosk_shell_output], which [kiosk_shell_output_destroy] frees. *)
Definition output_destroy_listeners (shell : kiosk_shell) (output : output_ptr)
  : list shsurf_ptr :=
  (filter (λ kv, shsurf_output kv.2 = Some output ∧
                 shsurf_output_destroy_listener kv.2 = true)
          (map_to_list (surfaces shell))).*1.

Definition handle_output_destroyed (shell : kiosk_shell) (output : output_ptr)
  : option kiosk_shell :=
  shell ← notify_all kiosk_shell_surface_notify_output_destroy
            (output_destroy_listeners shell output) shell;
  Some (with_outputs (delete output (outputs shell))
          (with_output_list
             (filter (λ so, shoutput_output so ≠ Some output) (output_list shell))
             shell)).

(** ** libweston-desktop callbacks *)

(** [wl_list_for_each(seat, &shell->compositor->seat_list, link)
       weston_view_activate(shsurf->view, seat, 0);] *)
Definition activate_on_all_seats (view : view_ptr) (shell : kiosk_shell)
  : kiosk_shell :=
  foldl (λ shell seat, weston_view_activate view seat 0 shell) shell (seat_list shell).

Definition desktop_surface_added (shell : kiosk_shell)
    (desktop_surface : dsurf_ptr) (view : option view_ptr)
    (alloc : option shsurf_ptr) (wl_client : bool) : option kiosk_shell :=
  '(shell, shsurf) ← kiosk_shell_surface_create shell desktop_surface view alloc wl_client;
  match shsurf with
  | None => Some shell
  | Some shsurf =>
      shell ← kiosk_shell_surface_set_fullscreen shell shsurf None;
      r ← surfaces shell !! shsurf;
      Some (activate_on_all_seats (shsurf_view r) shell)
  end.

(** The loop of [find_focus_successor] over [layer->view_list]. *)
Fixpoint find_focus_successor_loop (shell : kiosk_shell)
    (parent_root : shsurf_ptr) (own_view : view_ptr) (l : list view_ptr)
    (top_view : option view_ptr) : option (option view_ptr) :=
  match l with
  | [] => Some top_view
  | view :: l =>
      v ← views shell !! view;
      if negb (view_is_mapped v) || bool_decide (view = own_view)
      then find_focus_successor_loop shell parent_root own_view l top_view
      else
        match get_kiosk_shell_surface shell (view_surface v) with
        | None => find_focus_successor_loop shell parent_root own_view l top_view
        | Some view_shsurf =>
            let top_view := if top_view is None then Some view else top_view in
            root ← kiosk_shell_surface_get_parent_root shell view_shsurf;
            if bool_decide (root = parent_root) then Some (Some view)
            else find_focus_successor_loop shell parent_root own_view l top_view
        end
  end.

Definition find_focus_successor (shell : kiosk_shell) (layer : list view_ptr)
    (shsurf : shsurf_ptr) : option (option view_ptr) :=
  parent_root ← kiosk_shell_surface_get_parent_root shell shsurf;
  r ← surfaces shell !! shsurf;
  find_focus_successor_loop shell parent_root (shsurf_view r) layer None.

(** The loop of [desktop_surface_removed] over the seats. *)
Definition refocus_seats (focus_view : view_ptr) (surface : surface_ptr)
    (shell : kiosk_shell) : kiosk_shell :=
  foldl (λ shell seat,
           match keyboard_focus shell !! seat with
           | Some focus =>
               if bool_decide (focus = Some surface)
               then weston_view_activate focus_view seat 0 shell
               else shell
           | None => shell
           end) shell (seat_list shell).

Definition desktop_surface_removed (shell : kiosk_shell)
    (desktop_surface : dsurf_ptr) : option kiosk_shell :=
  d ← desktop_surfaces shell !! desktop_surface;
  match ds_user_data d with
  | None => Some shell
  | Some shsurf =>
      focus_view ← find_focus_successor shell (normal_layer shell) shsurf;
      let shell := match focus_view with
                   | Some focus_view => refocus_seats focus_view (ds_surface d) shell
                   | None => shell
                   end in
      kiosk_shell_surface_destroy shell shsurf
  end.

Definition desktop_surface_set_parent (shell : kiosk_shell)
    (desktop_surface : dsurf_ptr) (parent : option dsurf_ptr)
  : option kiosk_shell :=
  shsurf ← weston_desktop_surface_get_user_data shell desktop_surface;
  let shsurf_parent :=
    match parent with
    | Some parent => weston_desktop_surface_get_user_data shell parent
    | None => None
    end in
  kiosk_shell_surface_set_parent shell shsurf shsurf_parent.

Definition desktop_surface_fullscreen_requested (shell : kiosk_shell)
    (desktop_surface : dsurf_ptr) (fullscreen : bool)
    (output : option output_ptr) : option kiosk_shell :=
  shsurf ← weston_desktop_surface_get_user_data shell desktop_surface;
  r ← surfaces shell !! shsurf;
  if bool_decide (shsurf_parent r = None) || fullscreen
  then kiosk_shell_surface_set_fullscreen shell shsurf output
  else kiosk_shell_surface_set_normal shell shsurf.

Definition desktop_surface_maximized_requested (shell : kiosk_shell)
    (desktop_surface : dsurf_ptr) (maximized : bool) : option kiosk_shell :=
  shsurf ← weston_desktop_surface_get_user_data shell desktop_surface;
  r ← surfaces shell !! shsurf;
  if bool_decide (shsurf_parent r = None)
  then kiosk_shell_surface_set_fullscreen shell shsurf None
  else if maximized
       then kiosk_shell_surface_set_maximized shell shsurf
       else kiosk_shell_surface_set_normal shell shsurf.

(** ** Events

    The notifications of the compositor that reach the code above.  The
    commit callback, the activation of a view and the output resize handler
    read more of the compositor than these and follow, on a larger state. *)
Inductive event :=
  | SurfaceAdded (ds : dsurf_ptr) (view : option view_ptr)
      (alloc : option shsurf_ptr) (wl_client : bool)
  | SurfaceRemoved (ds : dsurf_ptr)
  | SetParent (ds : dsurf_ptr) (parent : option dsurf_ptr)
  | FullscreenRequested (ds : dsurf_ptr) (fullscreen : bool)
      (output : option output_ptr)
  | MaximizedRequested (ds : dsurf_ptr) (maximized : bool)
  | KeyboardFocus (seat : seat_ptr) (focus : option surface_ptr)
  | SeatCreated (seat : seat_ptr) (alloc : bool)
  | SeatDestroyed (seat : seat_ptr)
  | OutputCreated (output : output_ptr) (o : weston_output)
      (app_ids : option (list ascii)) (alloc : bool)
  | OutputDestroyed (output : output_ptr).

Definition step (shell : kiosk_shell) (e : event) : option kiosk_shell :=
  match e with
  | SurfaceAdded ds view alloc wl_client =>
      desktop_surface_added shell ds view alloc wl_client
  | SurfaceRemoved ds => desktop_surface_removed shell ds
  | SetParent ds parent => desktop_surface_set_parent shell ds parent
  | FullscreenRequested ds fullscreen output =>
      desktop_surface_fullscreen_requested shell ds fullscreen output
  | MaximizedRequested ds maximized =>
      desktop_surface_maximized_requested shell ds maximized
  | KeyboardFocus seat focus =>
      kiosk_shell_seat_handle_keyboard_focus
        (with_keyboard_focus (<[seat := focus]> (keyboard_focus shell)) shell)
        seat focus
  | SeatCreated seat alloc =>
      Some (kiosk_shell_seat_create
              (with_seat_list (seat_list shell ++ [seat]) shell) seat alloc)
  | SeatDestroyed seat =>
      Some (kiosk_shell_seat_handle_destroy
              (with_seat_list (filter (λ s, s ≠ seat) (seat_list shell)) shell) seat)
  | OutputCreated output o app_ids alloc =>
      Some (kiosk_shell_output_create
              (with_outputs (<[output := o]> (outputs shell)) shell)
              output app_ids alloc)
  | OutputDestroyed output => handle_output_destroyed shell output
  end.

Fixpoint run (shell : kiosk_shell) (es : list event) : option kiosk_shell :=
  match es with
  | [] => Some shell
  | e :: es => shell ← step shell e; run shell es
  end.

(** ** Geometry callbacks

    [desktop_surface_committed], [kiosk_shell_activate_view] and the output
    resize handler read compositor state that the functions above do not
    touch, and issue scene-graph commands.  They run on the state below:
    the shell state of the functions above together with what they read
    besides. *)

(** [struct weston_surface], the fields [desktop_surface_committed] reads. *)
Record weston_surface := {
  surface_width : Z;
  surface_height : Z;
  surface_is_mapped : bool
}.

(** What libweston-desktop answers for a desktop surface at the time of a
    call: [weston_desktop_surface_get_fullscreen], [_get_maximized] and
    [_get_geometry] (x and y).  These report the state the client has
    taken up, which need not be the last one commanded. *)
Record desktop_current := {
  cur_fullscreen : bool;
  cur_maximized : bool;
  cur_geometry_x : Z;
  cur_geometry_y : Z
}.

(** The geometry fields of [struct kiosk_shell_surface]: [last_width],
    [last_height] and [xwayland.{x, y, is_set}]. *)
Record shsurf_geometry := {
  last_width : Z;
  last_height : Z;
  xwayland_x : Z;
  xwayland_y : Z;
  xwayland_is_set : bool
}.

(** What [zalloc] leaves in these fields. *)
Definition zalloc_geometry : shsurf_geometry :=
  {| last_width := 0; last_height := 0;
     xwayland_x := 0; xwayland_y := 0; xwayland_is_set := false |}.

(** The scene-graph calls, in the order made.  The position of
    [ViewSetPosition] is the value of the [float] arguments, which here are
    conversions of an [int] and so integers; [ViewOffset view sx sy]
    stands for the [weston_view_set_position] of the last block of
    [desktop_surface_committed], whose argument is computed from
    [weston_view_to_global_float]. *)
Inductive scene_command :=
  | CenterOnOutput (view : view_ptr) (output : option output_ptr)
  | ViewSetPosition (view : view_ptr) (x y : Z)
  | ViewOffset (view : view_ptr) (sx sy : Z)
  | ViewUpdateTransform (view : view_ptr)
  | ViewGeometryDirty (view : view_ptr)
  | SurfaceDamage (surface : surface_ptr)
  | RecreateBackground (output : option output_ptr).

#[global] Instance scene_command_eq_dec : EqDecision scene_command.
Proof. solve_decision. Defined.

Record compositor_state := {
  kiosk : kiosk_shell;
  weston_surfaces : gmap surface_ptr weston_surface;
  current : gmap dsurf_ptr desktop_current;
  geometry : gmap shsurf_ptr shsurf_geometry;
  view_output : gmap view_ptr output_ptr;
  scene : list scene_command
}.

Definition with_kiosk (x : _) (c : compositor_state) : compositor_state :=
  {| kiosk := x; weston_surfaces := weston_surfaces c; current := current c;
     geometry := geometry c; view_output := view_output c; scene := scene c |}.

Definition with_weston_surfaces (x : _) (c : compositor_state) : compositor_state :=
  {| kiosk := kiosk c; weston_surfaces := x; current := current c;
     geometry := geometry c; view_output := view_output c; scene := scene c |}.

Definition with_geometry (x : _) (c : compositor_state) : compositor_state :=
  {| kiosk := kiosk c; weston_surfaces := weston_surfaces c; current := current c;
     geometry := x; view_output := view_output c; scene := scene c |}.

Definition with_scene (x : _) (c : compositor_state) : compositor_state :=
  {| kiosk := kiosk c; weston_surfaces := weston_surfaces c; current := current c;
     geometry := geometry c; view_output := view_output c; scene := x |}.

Definition scene_log (s : scene_command) (c : compositor_state) : compositor_state :=
  with_scene (scene c ++ [s]) c.

(** A shell function run on the shell part of the state. *)
Definition lift (f : kiosk_shell → option kiosk_shell) (c : compositor_state)
  : option compositor_state :=
  k ← f (kiosk c); Some (with_kiosk k c).

(** The geometry fields of a side record; a record that was never written
    to holds what [zalloc] left. *)
Definition geometry_of (c : compositor_state) (shsurf : shsurf_ptr)
  : shsurf_geometry :=
  default zalloc_geometry (geometry c !! shsurf).

(** The conversion of an [int] to [float], as in [float x = a - b]: the
    value of the result.  A [float] is an IEEE 754 binary32 number, with 24
    bits of significand: an integer below 2^24 in magnitude is kept, a
    larger one is rounded to the nearest multiple of the spacing of the
    floats around it, a tie going to the even significand.  C leaves the
    direction of the rounding to the implementation; this is the default
    rounding of IEEE 754, which GCC and Clang use. *)
Definition float_of_int32 (z : Z) : Z :=
  let a := Z.abs z in
  if decide (a < 2 ^ 24)%Z then z
  else
    let ulp := (2 ^ (Z.log2 a - 23))%Z in
    let q := (a / ulp)%Z in
    let rest := (2 * (a mod ulp))%Z in
    let q := if decide (rest < ulp)%Z then q
             else if decide (ulp < rest)%Z then (q + 1)%Z
                  else if Z.even q then q else (q + 1)%Z in
    (Z.sgn z * (q * ulp))%Z.

(** [a - b] on [int32_t]; [None] when the difference overflows. *)
Definition int32_sub (a b : Z) : option Z :=
  if decide (- 2 ^ 31 ≤ a - b < 2 ^ 31)%Z then Some (a - b)%Z else None.

(** [weston_layer_entry_insert(&shell->normal_layer.view_list,
    &view->layer_link)]: the view becomes the first of the layer.  Linking
    a view that is in the list already would corrupt the list; there is no
    result then. *)
Definition weston_layer_entry_insert (view : view_ptr) (shell : kiosk_shell)
  : option kiosk_shell :=
  if decide (view ∈ normal_layer shell) then None
  else Some (with_normal_layer (view :: normal_layer shell) shell).

(** [weston_layer_entry_remove(&view->layer_link)] *)
Definition weston_layer_entry_remove (view : view_ptr) (shell : kiosk_shell)
  : kiosk_shell :=
  with_normal_layer (filter (λ v, v ≠ view) (normal_layer shell)) shell.

Definition desktop_surface_committed (c : compositor_state)
    (desktop_surface : dsurf_ptr) (sx sy : Z) : option compositor_state :=
  d ← desktop_surfaces (kiosk c) !! desktop_surface;
  let surface := ds_surface d in
  ws ← weston_surfaces c !! surface;
  if bool_decide (surface_width ws = 0%Z) then Some c
  else
    shsurf ← ds_user_data d;
    r ← surfaces (kiosk c) !! shsurf;
    cur ← current c !! desktop_surface;
    let g := geometry_of c shsurf in
    let view := shsurf_view r in
    let is_resized :=
      bool_decide (surface_width ws ≠ last_width g) ||
      bool_decide (surface_height ws ≠ last_height g) in
    let is_fullscreen := cur_maximized cur || cur_fullscreen cur in
    let is_mapped := surface_is_mapped ws in
    c ← (if negb is_mapped || (is_resized && is_fullscreen)
         then
           c ← (if is_fullscreen || negb (xwayland_is_set g)
                then Some (scene_log (CenterOnOutput view (shsurf_output r)) c)
                else
                  x ← int32_sub (xwayland_x g) (cur_geometry_x cur);
                  y ← int32_sub (xwayland_y g) (cur_geometry_y cur);
                  Some (scene_log (ViewSetPosition view (float_of_int32 x)
                                     (float_of_int32 y)) c));
           Some (scene_log (ViewUpdateTransform view) c)
         else Some c);
    c ← (if negb is_mapped
         then
           v ← views (kiosk c) !! view;
           shell ← weston_layer_entry_insert view (kiosk c);
           Some (with_weston_surfaces
                   (<[surface := {| surface_width := surface_width ws;
                                    surface_height := surface_height ws;
                                    surface_is_mapped := true |}]>
                      (weston_surfaces c))
                   (with_kiosk
                      (with_views
                         (<[view := {| view_surface := view_surface v;
                                       view_is_mapped := true |}]>
                            (views shell))
                         shell)
                      c))
         else Some c);
    let c :=
      if negb is_fullscreen && (bool_decide (sx ≠ 0%Z) || bool_decide (sy ≠ 0%Z))
      then scene_log (ViewUpdateTransform view) (scene_log (ViewOffset view sx sy) c)
      else c in
    Some (with_geometry
            (<[shsurf := {| last_width := surface_width ws;
                            last_height := surface_height ws;
                            xwayland_x := xwayland_x g;
                            xwayland_y := xwayland_y g;
                            xwayland_is_set := xwayland_is_set g |}]>
               (geometry c))
            c).

Definition desktop_surface_set_xwayland_position (c : compositor_state)
    (desktop_surface : dsurf_ptr) (x y : Z) : option compositor_state :=
  shsurf ← weston_desktop_surface_get_user_data (kiosk c) desktop_surface;
  _ ← surfaces (kiosk c) !! shsurf;
  let g := geometry_of c shsurf in
  Some (with_geometry
          (<[shsurf := {| last_width := last_width g; last_height := last_height g;
                          xwayland_x := x; xwayland_y := y;
                          xwayland_is_set := true |}]> (geometry c))
          c).

(** [kiosk_shell_surface_create] on this state: the record is fresh from
    [zalloc]. *)
Definition surface_added (c : compositor_state) (desktop_surface : dsurf_ptr)
    (view : option view_ptr) (alloc : option shsurf_ptr) (wl_client : bool)
  : option compositor_state :=
  k ← desktop_surface_added (kiosk c) desktop_surface view alloc wl_client;
  Some (with_kiosk k
          (match alloc with
           | Some shsurf => with_geometry (delete shsurf (geometry c)) c
           | None => c
           end)).

Fixpoint find_shell_output_loop (l : list kiosk_shell_output) (output : output_ptr)
  : option kiosk_shell_output :=
  match l with
  | [] => None
  | shoutput :: l =>
      if bool_decide (shoutput_output shoutput = Some output) then Some shoutput
      else find_shell_output_loop l output
  end.

Definition kiosk_shell_find_shell_output (shell : kiosk_shell) (output : output_ptr)
  : option kiosk_shell_output :=
  find_shell_output_loop (output_list shell) output.

Definition kiosk_shell_surface_reconfigure_for_output (c : compositor_state)
    (shsurf : shsurf_ptr) : option compositor_state :=
  r ← surfaces (kiosk c) !! shsurf;
  match shsurf_output r with
  | None => Some c
  | Some output =>
      desktop_surface ← shsurf_desktop_surface r;
      cur ← current c !! desktop_surface;
      c ← (if cur_maximized cur || cur_fullscreen cur
           then
             out ← outputs (kiosk c) !! output;
             lift (weston_desktop_surface_set_size desktop_surface
                     (output_width out) (output_height out)) c
           else Some c);
      Some (scene_log (ViewUpdateTransform (shsurf_view r))
              (scene_log (CenterOnOutput (shsurf_view r) (Some output)) c))
  end.

(** The loop of [kiosk_shell_handle_output_resized] over the views of the
    normal layer. *)
Fixpoint output_resized_loop (c : compositor_state) (output : output_ptr)
    (l : list view_ptr) : option compositor_state :=
  match l with
  | [] => Some c
  | view :: l =>
      v ← views (kiosk c) !! view;
      if bool_decide (view_output c !! view = Some output)
      then
        match get_kiosk_shell_surface (kiosk c) (view_surface v) with
        | None => output_resized_loop c output l
        | Some shsurf =>
            c ← kiosk_shell_surface_reconfigure_for_output c shsurf;
            output_resized_loop c output l
        end
      else output_resized_loop c output l
  end.

(** [kiosk_shell_output_recreate_background] reads [shoutput->shell] first,
    so the handler has no result for an output without
    [kiosk_shell_output]. *)
Definition kiosk_shell_handle_output_resized (c : compositor_state)
    (output : output_ptr) : option compositor_state :=
  shoutput ← kiosk_shell_find_shell_output (kiosk c) output;
  let c := scene_log (RecreateBackground (shoutput_output shoutput)) c in
  output_resized_loop c output (normal_layer (kiosk c)).

Definition kiosk_shell_activate_view (c : compositor_state) (view : view_ptr)
    (seat : seat_ptr) (flags : Z) : option compositor_state :=
  v ← views (kiosk c) !! view;
  let main_surface := main_surface (kiosk c) (view_surface v) in
  match get_kiosk_shell_surface (kiosk c) main_surface with
  | None => Some c
  | Some shsurf =>
      r ← surfaces (kiosk c) !! shsurf;
      c ← (if shsurf_parent r is Some _
           then
             shell ← weston_layer_entry_insert view
                       (weston_layer_entry_remove view (kiosk c));
             Some (scene_log (SurfaceDamage (view_surface v))
                     (scene_log (ViewGeometryDirty view) (with_kiosk shell c)))
           else Some c);
      Some (with_kiosk (weston_view_activate view seat flags (kiosk c)) c)
  end.

(** ** Specification vocabulary *)

(** The placement of a window, read off the two flags of its desktop
    surface. *)
Inductive placement := Normal | Maximized | Fullscreen.

Definition placement_of (d : weston_desktop_surface) : placement :=
  if ds_fullscreen d then Fullscreen
  else if ds_maximized d then Maximized
  else Normal.

(** The desktop-surface object of a window. *)
Definition desktop_of (shell : kiosk_shell) (shsurf : shsurf_ptr)
  : option weston_desktop_surface :=
  r ← surfaces shell !! shsurf;
  ds ← shsurf_desktop_surface r;
  desktop_surfaces shell !! ds.

(** [parent_chain heap w n root]: following [parent] from [w] reaches, after
    [n] steps, the surface [root], which has no parent. *)
Inductive parent_chain (heap : gmap shsurf_ptr kiosk_shell_surface)
  : shsurf_ptr → nat → shsurf_ptr → Prop :=
  | parent_chain_root w r :
      heap !! w = Some r → shsurf_parent r = None →
      parent_chain heap w 0 w
  | parent_chain_step w r p n root :
      heap !! w = Some r → shsurf_parent r = Some p →
      parent_chain heap p n root →
      parent_chain heap w (S n) root.

Definition root_ancestor (shell : kiosk_shell) (shsurf root : shsurf_ptr) : Prop :=
  ∃ n, parent_chain (surfaces shell) shsurf n root.

(** The affinity list of a registered output contains the application
    identifier: the output has a list, and the identifier stands in it
    between the start of the list or a comma and a comma or the end of the
    list. *)
Definition lists_app_id (so : kiosk_shell_output) (app_id : cstring) : Prop :=
  ∃ app_ids, shoutput_app_ids so = Some app_ids ∧ complete_token app_ids app_id.

(** The affinity lists of the registered outputs are C strings. *)
Definition affinity_lists_ok (shell : kiosk_shell) : Prop :=
  Forall (λ so, match shoutput_app_ids so with
                | Some app_ids => c_string app_ids
                | None => True
                end)
         (output_list shell).

(** No registered output lists the application identifier (or the window
    has none). *)
Definition no_designated_output (shell : kiosk_shell)
    (app_id : option (list ascii)) : Prop :=
  match app_id with
  | None => True
  | Some a => Forall (λ so, ¬ lists_app_id so a) (output_list shell)
  end.

(** The window has a record without bound output, and a desktop surface. *)
Definition unbound_window (shell : kiosk_shell) (shsurf : shsurf_ptr)
    (d : weston_desktop_surface) : Prop :=
  ∃ r ds, surfaces shell !! shsurf = Some r ∧ shsurf_output r = None ∧
          shsurf_desktop_surface r = Some ds ∧
          desktop_surfaces shell !! ds = Some d.

(** The root ancestor of the window and its bound output. *)
Definition root_output (shell : kiosk_shell) (shsurf : shsurf_ptr)
    (o : option output_ptr) : Prop :=
  ∃ root rr, root_ancestor shell shsurf root ∧
             surfaces shell !! root = Some rr ∧ shsurf_output rr = o.

(** The six candidates of the best-output policy, in the order of the
    specification; each rule applies only when the ones before it do not.
    The second rule and the guard of the later ones are stated with
    [lists_app_id], not with the function that the code uses to decide
    it. *)
Inductive best_output (shell : kiosk_shell) (shsurf : shsurf_ptr)
  : option output_ptr → Prop :=
  | best_bound r o :
      surfaces shell !! shsurf = Some r → shsurf_output r = Some o →
      best_output shell shsurf (Some o)
  | best_designated d a pre so post :
      unbound_window shell shsurf d → ds_app_id d = Some a →
      output_list shell = pre ++ so :: post →
      Forall (λ x, ¬ lists_app_id x a) pre →
      lists_app_id so a →
      best_output shell shsurf (shoutput_output so)
  | best_root d o :
      unbound_window shell shsurf d →
      no_designated_output shell (ds_app_id d) →
      root_output shell shsurf (Some o) →
      best_output shell shsurf (Some o)
  | best_focused d o :
      unbound_window shell shsurf d →
      no_designated_output shell (ds_app_id d) →
      root_output shell shsurf None →
      focused_output shell = Some o →
      best_output shell shsurf (Some o)
  | best_default d o :
      unbound_window shell shsurf d →
      no_designated_output shell (ds_app_id d) →
      root_output shell shsurf None →
      focused_output shell = None → default_output shell = Some o →
      best_output shell shsurf (Some o)
  | best_none d :
      unbound_window shell shsurf d →
      no_designated_output shell (ds_app_id d) →
      root_output shell shsurf None →
      focused_output shell = None → default_output shell = None →
      best_output shell shsurf None.

(** The record of a surface once [kiosk_shell_surface_set_output] has
    bound it to [output]: the listener is linked exactly when there is an
    output. *)
Definition bound_to (output : option output_ptr) (r : kiosk_shell_surface)
  : kiosk_shell_surface :=
  with_shsurf_output_destroy_listener (bool_decide (is_Some output))
    (with_shsurf_output output r).

(** An output pointer that is NULL or points to a live output. *)
Definition live_output (shell : kiosk_shell) (output : option output_ptr) : Prop :=
  match output with
  | Some o => is_Some (outputs shell !! o)
  | None => True
  end.

#[global] Instance live_output_dec shell output : Decision (live_output shell output).
Proof. destruct output; simpl; apply _. Defined.

(** The size asked for with the fullscreen and maximized states. *)
Definition size_of_output (shell : kiosk_shell) (output : option output_ptr)
    (d : weston_desktop_surface) : weston_desktop_surface :=
  match output ≫= (outputs shell !!.) with
  | Some out => with_ds_size (output_width out, output_height out) d
  | None => d
  end.

Definition size_command (shell : kiosk_shell) (ds : dsurf_ptr)
    (output : option output_ptr) : list command :=
  match output ≫= (outputs shell !!.) with
  | Some out => [SetSize ds (output_width out) (output_height out)]
  | None => []
  end.

(** The state after a placement call: the surface heap, the desktop-surface
    object of the window and the journal are the only parts that change. *)
Definition placed (shell : kiosk_shell)
    (heap : gmap shsurf_ptr kiosk_shell_surface) (ds : dsurf_ptr)
    (d : weston_desktop_surface) (cmds : list command) : kiosk_shell :=
  with_journal (journal shell ++ cmds)
    (with_desktop_surfaces (<[ds := d]> (desktop_surfaces shell))
       (with_surfaces heap shell)).

(** The output a placement call binds the window to: the one supplied, or
    the one the policy finds. *)
Definition chosen_output (shell : kiosk_shell) (shsurf : shsurf_ptr)
    (output : option output_ptr) : option (option output_ptr) :=
  match output with
  | Some o => Some (Some o)
  | None => kiosk_shell_surface_find_best_output shell shsurf
  end.

(** The flags and size of the normal state. *)
Definition normal_flags (d : weston_desktop_surface) : weston_desktop_surface :=
  with_ds_size (0%Z, 0%Z) (with_ds_maximized false (with_ds_fullscreen false d)).

Definition normal_commands (ds : dsurf_ptr) : list command :=
  [SetFullscreen ds false; SetMaximized ds false; SetSize ds 0 0].

(** What the best-output policy reads of a state. *)
Definition same_policy_inputs (st st' : kiosk_shell) : Prop :=
  (∀ x, shsurf_output <$> surfaces st' !! x = shsurf_output <$> surfaces st !! x) ∧
  (∀ x, shsurf_desktop_surface <$> surfaces st' !! x =
        shsurf_desktop_surface <$> surfaces st !! x) ∧
  (∀ x, shsurf_parent <$> surfaces st' !! x = shsurf_parent <$> surfaces st !! x) ∧
  (∀ ds, ds_app_id <$> desktop_surfaces st' !! ds =
         ds_app_id <$> desktop_surfaces st !! ds) ∧
  output_list st' = output_list st ∧
  focused_output st' = focused_output st ∧
  default_output st' = default_output st.

(** The window behind a view that counts as a focus successor: the view
    is mapped, is not the view of the removed window, and its surface has a
    side record. *)
Definition eligible (shell : kiosk_shell) (own_view view : view_ptr)
  : option shsurf_ptr :=
  v ← views shell !! view;
  if view_is_mapped v
  then if decide (view = own_view) then None
       else get_kiosk_shell_surface shell (view_surface v)
  else None.

(** The root ancestor of the window behind an eligible view. *)
Definition eligible_root (shell : kiosk_shell) (own_view view : view_ptr)
  : option shsurf_ptr :=
  eligible shell own_view view ≫= kiosk_shell_surface_get_parent_root shell.

(** The successor the specification describes: the first eligible view
    whose root ancestor is that of the removed window, otherwise the first
    eligible view, otherwise none. *)
Definition focus_successor (shell : kiosk_shell) (layer : list view_ptr)
    (own_view : view_ptr) (parent_root : shsurf_ptr) : option view_ptr :=
  let candidates :=
    filter (λ view, is_Some (eligible shell own_view view)) layer in
  match list_find (λ view, eligible_root shell own_view view = Some parent_root)
                  candidates with
  | Some (_, view) => Some view
  | None => head candidates
  end.

(** The window a surface pointer recorded in a seat resolves to. *)
Definition resolve (shell : kiosk_shell) (focused : option surface_ptr)
  : option shsurf_ptr :=
  focused ≫= get_kiosk_shell_surface shell.

(** The number of seats whose recorded focused surface resolves to the
    window [w]. *)
Definition focus_seats (shell : kiosk_shell) (w : shsurf_ptr) : nat :=
  size (filter (λ kv : seat_ptr * kiosk_shell_seat,
                  resolve shell (shseat_focused_surface kv.2) = Some w)
               (seats shell)).

Definition focus_count_invariant (shell : kiosk_shell) : Prop :=
  map_Forall (λ w r, shsurf_focus_count r = Z.of_nat (focus_seats shell w))
             (surfaces shell).

(** The record of the window [w] is allocated and its desktop surface is
    live. *)
Definition record_live (shell : kiosk_shell) (w : shsurf_ptr) : Prop :=
  is_Some (r ← surfaces shell !! w;
           ds ← shsurf_desktop_surface r;
           desktop_surfaces shell !! ds).

(** Every side record a desktop surface is associated with is live: what
    the focus handler dereferences. *)
Definition resolvable (shell : kiosk_shell) : Prop :=
  map_Forall (λ _ d, match ds_user_data d with
                     | Some w => record_live shell w
                     | None => True
                     end)
             (desktop_surfaces shell).

#[global] Instance resolvable_dec shell : Decision (resolvable shell).
Proof.
  apply map_Forall_dec. intros ds d. destruct (ds_user_data d); apply _.
Defined.

#[global] Instance focus_count_invariant_dec shell :
  Decision (focus_count_invariant shell).
Proof. apply map_Forall_dec. intros w r. apply _. Defined.

(** A keyboard focus event for a seat that has a record. *)
Definition focus_event (shell : kiosk_shell) (e : event) : Prop :=
  match e with
  | KeyboardFocus seat _ => is_Some (seats shell !! seat)
  | _ => False
  end.

(** The effect of one half of the focus handler on the state: the focus
    count of the window [target], if any, moves by [delta]; seats and the
    resolution of surfaces stay. *)
Definition focus_shift (st st1 : kiosk_shell) (target : option shsurf_ptr)
    (delta : Z) : Prop :=
  seats st1 = seats st ∧
  surface_desktop st1 = surface_desktop st ∧
  main_surface st1 = main_surface st ∧
  keyboard_focus st1 = keyboard_focus st ∧
  (∀ ds, ds_user_data <$> desktop_surfaces st1 !! ds =
         ds_user_data <$> desktop_surfaces st !! ds) ∧
  (∀ w, surfaces st1 !! w =
        (λ r, if decide (target = Some w)
              then with_shsurf_focus_count (shsurf_focus_count r + delta)%Z r
              else r) <$> surfaces st !! w).

(** The state after one half of the focus handler has moved the count of
    the window [w] by [delta]; [edge] tells whether the count crossed zero,
    in which case the activation state is commanded. *)
Definition count_moved (st : kiosk_shell) (w : shsurf_ptr)
    (r : kiosk_shell_surface) (ds : dsurf_ptr) (d : weston_desktop_surface)
    (delta : Z) (edge activated : bool) : kiosk_shell :=
  let st1 :=
    with_surfaces
      (<[w := with_shsurf_focus_count (shsurf_focus_count r + delta)%Z r]>
         (surfaces st)) st in
  if edge
  then log (SetActivated ds activated)
         (with_desktop_surfaces
            (<[ds := with_ds_activated activated d]> (desktop_surfaces st)) st1)
  else st1.

(** 1 when the proposition holds, 0 otherwise. *)
Definition indicator (P : Prop) `{Decision P} : Z := if decide P then 1%Z else 0%Z.

(** *** The hierarchy invariant *)

#[global] Instance placement_eq_dec : EqDecision placement.
Proof. solve_decision. Defined.

(** What the invariant reads of a state: per window its parent and its
    desktop surface, per desktop surface its association and its fullscreen
    flag. *)
Definition parent_of (st : kiosk_shell) (x : shsurf_ptr) :=
  shsurf_parent <$> surfaces st !! x.

Definition dsurf_of (st : kiosk_shell) (x : shsurf_ptr) :=
  shsurf_desktop_surface <$> surfaces st !! x.

Definition user_data_of (st : kiosk_shell) (ds : dsurf_ptr) :=
  ds_user_data <$> desktop_surfaces st !! ds.

Definition fullscreen_of (st : kiosk_shell) (ds : dsurf_ptr) :=
  ds_fullscreen <$> desktop_surfaces st !! ds.

(** The desktop surface a side record points to points back to it. *)
Definition linked (st : kiosk_shell) : Prop :=
  map_Forall (λ x r, match shsurf_desktop_surface r with
                     | Some ds => user_data_of st ds = Some (Some x)
                     | None => True
                     end)
             (surfaces st).

(** The invariant of C3: a window with a parent is not in the fullscreen
    placement. *)
Definition parented_not_fullscreen (st : kiosk_shell) : Prop :=
  map_Forall (λ x r, match shsurf_parent r, desktop_of st x with
                     | Some _, Some d => placement_of d ≠ Fullscreen
                     | _, _ => True
                     end)
             (surfaces st).

#[global] Instance linked_dec st : Decision (linked st).
Proof.
  apply map_Forall_dec. intros x r. destruct (shsurf_desktop_surface r); apply _.
Defined.

#[global] Instance parented_not_fullscreen_dec st :
  Decision (parented_not_fullscreen st).
Proof.
  apply map_Forall_dec. intros x r.
  destruct (shsurf_parent r), (desktop_of st x); apply _.
Defined.

(** An operation that leaves every association, parent and fullscreen flag
    as it was. *)
Definition same_shape (st st' : kiosk_shell) : Prop :=
  (∀ x, dsurf_of st' x = dsurf_of st x) ∧
  (∀ ds, user_data_of st' ds = user_data_of st ds) ∧
  (∀ x, parent_of st' x = parent_of st x) ∧
  (∀ ds, fullscreen_of st' ds = fullscreen_of st ds).

(** An operation on the window [w]: it may change the parent of [w] and
    the fullscreen flag of the desktop surface of [w], and nothing else of
    what the invariant reads. *)
Definition acts_on (w : shsurf_ptr) (st st' : kiosk_shell) : Prop :=
  (∀ x, dsurf_of st' x = dsurf_of st x) ∧
  (∀ ds, user_data_of st' ds = user_data_of st ds) ∧
  (∀ x, x ≠ w → parent_of st' x = parent_of st x) ∧
  (∀ ds, dsurf_of st w ≠ Some (Some ds) →
         fullscreen_of st' ds = fullscreen_of st ds).

(** A step of the teardown of the window [w] with desktop surface [ds]:
    other windows keep their desktop surface and parent, other desktop
    surfaces their association, all of them their fullscreen flag. *)
Definition torn (w : shsurf_ptr) (ds : dsurf_ptr) (st st' : kiosk_shell) : Prop :=
  (∀ x, x ≠ w → dsurf_of st' x = dsurf_of st x ∧ parent_of st' x = parent_of st x) ∧
  (∀ ds', ds' ≠ ds → user_data_of st' ds' = user_data_of st ds') ∧
  (∀ ds', fullscreen_of st' ds' = fullscreen_of st ds').

(** The side record [w] and the desktop surface [ds] point to each other. *)
Definition associated (st : kiosk_shell) (ds : dsurf_ptr) (w : shsurf_ptr) : Prop :=
  user_data_of st ds = Some (Some w) ∧ dsurf_of st w = Some (Some ds).

(** [a] is journalled before [b]. *)
Fixpoint precedes (a b : command) (j : list command) : bool :=
  match j with
  | [] => false
  | c :: j => (bool_decide (c = a) && bool_decide (b ∈ j)) || precedes a b j
  end.

(** The journal only grows. *)
Definition journal_extends (st st' : kiosk_shell) : Prop :=
  ∃ cmds, journal st' = journal st ++ cmds.

(** What the compositor guarantees of an event: a surface is added once,
    before it has a side record. *)
Definition admissible (st : kiosk_shell) (e : event) : Prop :=
  match e with
  | SurfaceAdded ds _ _ _ => user_data_of st ds = Some None
  | _ => True
  end.

(** A fullscreen request with argument true for a window that has a
    parent: the one event that the code answers by making such a window
    fullscreen. *)
Definition grants_fullscreen_to_child (st : kiosk_shell) (e : event) : Prop :=
  match e with
  | FullscreenRequested ds true _ =>
      ∃ w p, weston_desktop_surface_get_user_data st ds = Some w ∧
             parent_of st w = Some (Some p)
  | _ => False
  end.

(** Runs of admissible events none of which is such a request. *)
Inductive trace_without_grant : kiosk_shell → list event → kiosk_shell → Prop :=
  | trace_nil st : trace_without_grant st [] st
  | trace_cons st e st1 es st' :
      admissible st e → ¬ grants_fullscreen_to_child st e →
      step st e = Some st1 → trace_without_grant st1 es st' →
      trace_without_grant st (e :: es) st'.

(** [parent_path heap w n x]: following [parent] from [w] for [n] steps
    arrives at [x]. *)
Inductive parent_path (heap : gmap shsurf_ptr kiosk_shell_surface)
  : shsurf_ptr → nat → shsurf_ptr → Prop :=
  | parent_path_here w : parent_path heap w 0 w
  | parent_path_step w r p n x :
      heap !! w = Some r → shsurf_parent r = Some p →
      parent_path heap p n x →
      parent_path heap w (S n) x.

(** The [output_destroy_listener] of the record is linked into the destroy
    signal of [output]. *)
Definition listens_to (output : output_ptr) (r : kiosk_shell_surface) : Prop :=
  shsurf_output r = Some output ∧ shsurf_output_destroy_listener r = true.

#[global] Instance listens_to_dec output r : Decision (listens_to output r).
Proof. unfold listens_to. apply _. Defined.

(** What the destruction of [output] does to a side record. *)
Definition unbound (output : output_ptr) (r : kiosk_shell_surface)
  : kiosk_shell_surface :=
  if decide (listens_to output r) then bound_to None r else r.

(** Every side record with an output has its listener linked: what
    [kiosk_shell_surface_set_output] establishes. *)
Definition outputs_listened (shell : kiosk_shell) : Prop :=
  map_Forall (λ _ r, is_Some (shsurf_output r) →
                     shsurf_output_destroy_listener r = true) (surfaces shell).

#[global] Instance outputs_listened_dec shell : Decision (outputs_listened shell).
Proof. unfold outputs_listened. apply map_Forall_dec. intros w r. apply _. Defined.




(** *** Bound outputs

    A side record is bound to a live output with its listener linked, or
    to none with its listener unlinked. *)
Definition bound_ok (outs : gmap output_ptr weston_output)
    (r : kiosk_shell_surface) : Prop :=
  match shsurf_output r with
  | Some o => is_Some (outs !! o) ∧ shsurf_output_destroy_listener r = true
  | None => shsurf_output_destroy_listener r = false
  end.

#[global] Instance bound_ok_dec outs r : Decision (bound_ok outs r).
Proof. unfold bound_ok. destruct (shsurf_output r); apply _. Defined.

Definition outputs_bound_live (st : kiosk_shell) : Prop :=
  map_Forall (λ _ r, bound_ok (outputs st) r) (surfaces st).

#[global] Instance outputs_bound_live_dec st : Decision (outputs_bound_live st).
Proof. apply map_Forall_dec. intros w r. apply _. Defined.

(** An operation that keeps the outputs and, of every side record other
    than [w], the bound output and the state of its listener. *)
Definition binding_kept (w : option shsurf_ptr) (st st' : kiosk_shell) : Prop :=
  outputs st' = outputs st ∧
  ∀ x, w ≠ Some x →
       (λ r, (shsurf_output r, shsurf_output_destroy_listener r)) <$> surfaces st' !! x =
       (λ r, (shsurf_output r, shsurf_output_destroy_listener r)) <$> surfaces st !! x.

(** *** Activation

    The activation state of every window tells whether its focus count is
    positive. *)
Definition activated_when_focused (st : kiosk_shell) : Prop :=
  map_Forall (λ w r, match desktop_of st w with
                     | Some d => ds_activated d = bool_decide (0 < shsurf_focus_count r)%Z
                     | None => True
                     end)
             (surfaces st).

#[global] Instance activated_when_focused_dec st : Decision (activated_when_focused st).
Proof. apply map_Forall_dec. intros w r. destruct (desktop_of st w); apply _. Defined.

(** *** Geometry callbacks *)

(** The position call of a commit that maps or re-centres. *)
Definition commit_position (r : kiosk_shell_surface) (cur : desktop_current)
    (g : shsurf_geometry) : scene_command :=
  if cur_maximized cur || cur_fullscreen cur || negb (xwayland_is_set g)
  then CenterOnOutput (shsurf_view r) (shsurf_output r)
  else ViewSetPosition (shsurf_view r)
         (float_of_int32 (xwayland_x g - cur_geometry_x cur))
         (float_of_int32 (xwayland_y g - cur_geometry_y cur)).

(** The differences are converted to [float] without rounding. *)
Definition position_exact (cur : desktop_current) (g : shsurf_geometry) : Prop :=
  (Z.abs (xwayland_x g - cur_geometry_x cur) ≤ 2 ^ 24)%Z ∧
  (Z.abs (xwayland_y g - cur_geometry_y cur) ≤ 2 ^ 24)%Z.

(** The calls of the last block of a commit. *)
Definition commit_offset (r : kiosk_shell_surface) (cur : desktop_current)
    (sx sy : Z) : list scene_command :=
  if negb (cur_maximized cur || cur_fullscreen cur) &&
     (bool_decide (sx ≠ 0%Z) || bool_decide (sy ≠ 0%Z))
  then [ViewOffset (shsurf_view r) sx sy; ViewUpdateTransform (shsurf_view r)]
  else [].

(** The xwayland position can be subtracted from without overflow. *)
Definition position_in_range (cur : desktop_current) (g : shsurf_geometry) : Prop :=
  (- 2 ^ 31 ≤ xwayland_x g - cur_geometry_x cur < 2 ^ 31)%Z ∧
  (- 2 ^ 31 ≤ xwayland_y g - cur_geometry_y cur < 2 ^ 31)%Z.

Definition committed_size (ws : weston_surface) (g : shsurf_geometry)
  : shsurf_geometry :=
  {| last_width := surface_width ws; last_height := surface_height ws;
     xwayland_x := xwayland_x g; xwayland_y := xwayland_y g;
     xwayland_is_set := xwayland_is_set g |}.

(** The window a view belongs to, as [kiosk_shell_activate_view] finds it. *)
Definition view_window (c : compositor_state) (view : view_ptr)
  : option shsurf_ptr :=
  v ← views (kiosk c) !! view;
  get_kiosk_shell_surface (kiosk c) (main_surface (kiosk c) (view_surface v)).

(** The window the resize handler reconfigures for a view of the layer. *)
Definition resize_target (c : compositor_state) (output : output_ptr)
    (view : view_ptr) : option shsurf_ptr :=
  v ← views (kiosk c) !! view;
  if bool_decide (view_output c !! view = Some output)
  then get_kiosk_shell_surface (kiosk c) (view_surface v)
  else None.

(** The size command and the scene calls of one reconfiguration. *)
Definition reconfigure_size (c : compositor_state) (shsurf : shsurf_ptr)
  : list command :=
  match surfaces (kiosk c) !! shsurf with
  | Some r =>
      match shsurf_output r, shsurf_desktop_surface r with
      | Some output, Some ds =>
          match current c !! ds, outputs (kiosk c) !! output with
          | Some cur, Some out =>
              if cur_maximized cur || cur_fullscreen cur
              then [SetSize ds (output_width out) (output_height out)]
              else []
          | _, _ => []
          end
      | _, _ => []
      end
  | None => []
  end.

Definition reconfigure_scene (c : compositor_state) (shsurf : shsurf_ptr)
  : list scene_command :=
  match surfaces (kiosk c) !! shsurf with
  | Some r =>
      match shsurf_output r with
      | Some output =>
          [CenterOnOutput (shsurf_view r) (Some output);
           ViewUpdateTransform (shsurf_view r)]
      | None => []
      end
  | None => []
  end.

(** What a reconfiguration leaves alone: everything but the sizes of the
    desktop surfaces, the journal and the scene calls. *)
Definition resize_frame (c c' : compositor_state) : Prop :=
  surfaces (kiosk c') = surfaces (kiosk c) ∧
  views (kiosk c') = views (kiosk c) ∧
  normal_layer (kiosk c') = normal_layer (kiosk c) ∧
  outputs (kiosk c') = outputs (kiosk c) ∧
  output_list (kiosk c') = output_list (kiosk c) ∧
  surface_desktop (kiosk c') = surface_desktop (kiosk c) ∧
  seats (kiosk c') = seats (kiosk c) ∧
  current c' = current c ∧ view_output c' = view_output c ∧
  geometry c' = geometry c ∧ weston_surfaces c' = weston_surfaces c ∧
  ∀ ds, (λ d, (ds_user_data d, ds_app_id d, ds_surface d, ds_fullscreen d,
               ds_maximized d, ds_activated d)) <$> desktop_surfaces (kiosk c') !! ds =
        (λ d, (ds_user_data d, ds_app_id d, ds_surface d, ds_fullscreen d,
               ds_maximized d, ds_activated d)) <$> desktop_surfaces (kiosk c) !! ds.

(** The side records and the compositor objects that the resize handler
    dereferences are there. *)
Definition resizable (c : compositor_state) : Prop :=
  resolvable (kiosk c) ∧ outputs_bound_live (kiosk c) ∧
  map_Forall (λ ds _, is_Some (current c !! ds)) (desktop_surfaces (kiosk c)) ∧
  Forall (λ view, is_Some (views (kiosk c) !! view)) (normal_layer (kiosk c)).

#[global] Instance resizable_dec c : Decision (resizable c).
Proof. unfold resizable. apply _. Defined.

Definition resize_commands (c : compositor_state) (output : output_ptr)
    (l : list view_ptr) : list command :=
  l ≫= λ view, match resize_target c output view with
                | Some w => reconfigure_size c w
                | None => []
                end.

Definition resize_scene (c : compositor_state) (output : output_ptr)
    (l : list view_ptr) : list scene_command :=
  l ≫= λ view, match resize_target c output view with
                | Some w => reconfigure_scene c w
                | None => []
                end.

(** ** A small session

    Two outputs, the second of which lists the application identifier
    "kiosk-app"; two seats; three desktop surfaces, the first with that
    identifier.  The first surface is added, then the second, which is then
    made a child of the first, then the third. *)
Module Demo.

Definition fresh_desktop_surface (app_id : option string) (surface : surface_ptr)
  : weston_desktop_surface :=
  {| ds_user_data := None; ds_app_id := of_string <$> app_id;
     ds_surface := surface; ds_fullscreen := false; ds_maximized := false;
     ds_size := (0%Z, 0%Z); ds_activated := false |}.

Definition initial : kiosk_shell :=
  {| surfaces := ∅;
     desktop_surfaces := {[ 10 := fresh_desktop_surface (Some "kiosk-app") 100;
                            11 := fresh_desktop_surface None 101;
                            12 := fresh_desktop_surface (Some "term") 102 ]};
     views := ∅;
     surface_desktop := {[ 100 := 10; 101 := 11; 102 := 12 ]};
     main_surface := λ s, s;
     outputs := {[ 1 := {| output_width := 1920; output_height := 1080 |};
                   2 := {| output_width := 1280; output_height := 720 |} ]};
     output_list :=
       [ {| shoutput_output := Some 1; shoutput_app_ids := None |};
         {| shoutput_output := Some 2;
            shoutput_app_ids := Some (of_string "vlc,kiosk-app") |} ];
     normal_layer := [];
     seat_list := [1; 2];
     seats := {[ 1 := {| shseat_focused_surface := None |};
                 2 := {| shseat_focused_surface := None |} ]};
     keyboard_focus := {[ 1 := None; 2 := None ]};
     focused_output := None;
     default_output := Some 1;
     journal := [] |}.

Definition add_first : event := SurfaceAdded 10 (Some 20) (Some 1) true.
Definition add_second : event := SurfaceAdded 11 (Some 21) (Some 2) true.
Definition make_child : event := SetParent 11 (Some 10).
Definition add_third : event := SurfaceAdded 12 (Some 22) (Some 3) true.

(** The state with the single root window. *)
Definition one_window : option kiosk_shell := run initial [add_first].

(** The state with the root window and its child. *)
Definition parent_and_child : option kiosk_shell :=
  run initial [add_first; add_second; make_child].

(** The two states, evaluated. *)
Definition root_state : kiosk_shell :=
  Eval vm_compute in default initial one_window.

Definition family_state : kiosk_shell :=
  Eval vm_compute in default initial parent_and_child.

(** The three windows with their views mapped, the newest on top. *)
Definition mapped_state : kiosk_shell :=
  Eval vm_compute in
    default initial
      (st ← run family_state [add_third];
       Some (with_normal_layer [22; 21; 20]
               (with_views
                  ((λ v, {| view_surface := view_surface v;
                            view_is_mapped := true |}) <$> views st) st))).

(** Seat 1 has given its keyboard focus to the surface of the first
    window. *)
Definition focused_state : kiosk_shell :=
  Eval vm_compute in
    default initial (run mapped_state [KeyboardFocus 1 (Some 100)]).

(** Two seats swapping their focus between the first two windows. *)
Definition swaps : list event :=
  [ KeyboardFocus 1 (Some 100); KeyboardFocus 2 (Some 101);
    KeyboardFocus 1 (Some 101); KeyboardFocus 2 (Some 100);
    KeyboardFocus 1 (Some 100); KeyboardFocus 2 (Some 101);
    KeyboardFocus 2 None; KeyboardFocus 1 (Some 101) ].

(** The root window made a child of its own child.  Its application
    identifier is listed by the second output, so the policy answers before
    it walks the parent chain, and the cycle is stored. *)
Definition cyclic_state : kiosk_shell :=
  Eval vm_compute in
    default initial (run family_state [SetParent 10 (Some 11)]).

(** The first desktop surface with its side record as
    [kiosk_shell_surface_create] leaves it, before it is placed. *)
Definition unplaced_state : kiosk_shell :=
  Eval vm_compute in
    default initial
      (fst <$> kiosk_shell_surface_create initial 10 (Some 20) (Some 1) true).

(** A fourth desktop surface, on which the client has set the empty
    application identifier, with its side record before it is placed. *)
Definition empty_id_state : kiosk_shell :=
  Eval vm_compute in
    default initial
      (fst <$> kiosk_shell_surface_create
                 (with_desktop_surfaces
                    (<[13 := fresh_desktop_surface (Some EmptyString) 103]>
                       (desktop_surfaces initial))
                    initial)
                 13 (Some 23) (Some 4) true).

(** The root window and its child before their first commit: what the
    compositor holds for their surfaces and what libweston-desktop answers
    for them.  The root is fullscreen; the child is not and has its window
    geometry at (5, 7). *)
Definition windows : compositor_state :=
  {| kiosk := Demo.family_state;
     weston_surfaces :=
       {[ 100 := {| surface_width := 1280; surface_height := 720;
                    surface_is_mapped := false |};
          101 := {| surface_width := 400; surface_height := 300;
                    surface_is_mapped := false |};
          102 := {| surface_width := 0; surface_height := 0;
                    surface_is_mapped := false |} ]};
     current :=
       {[ 10 := {| cur_fullscreen := true; cur_maximized := false;
                   cur_geometry_x := 0; cur_geometry_y := 0 |};
          11 := {| cur_fullscreen := false; cur_maximized := false;
                   cur_geometry_x := 5; cur_geometry_y := 7 |};
          12 := {| cur_fullscreen := false; cur_maximized := false;
                   cur_geometry_x := 0; cur_geometry_y := 0 |} ]};
     geometry := ∅;
     view_output := {[ 20 := 2; 21 := 2 ]};
     scene := [] |}.


(** The child has been given the X11 position (100, 50). *)
Definition positioned : compositor_state :=
  Eval vm_compute in
    default windows (desktop_surface_set_xwayland_position windows 11 100 50).

(** The three windows mapped, the first two shown on the second output,
    the third on the first. *)
Definition stacked : compositor_state :=
  {| kiosk := Demo.mapped_state;
     weston_surfaces :=
       (λ ws, {| surface_width := surface_width ws;
                 surface_height := surface_height ws;
                 surface_is_mapped := true |}) <$> weston_surfaces windows;
     current := current windows;
     geometry := ∅;
     view_output := {[ 20 := 2; 21 := 2; 22 := 1 ]};
     scene := [] |}.

End Demo.

(** The surface heap after [kiosk_shell_surface_set_normal]: a window that
    has an output keeps it, one that has none is bound to what the policy
    finds. *)
Definition normal_heap (shell : kiosk_shell) (shsurf : shsurf_ptr)
    (r : kiosk_shell_surface) (heap : gmap shsurf_ptr kiosk_shell_surface) : Prop :=
  match shsurf_output r with
  | Some _ => heap = surfaces shell
  | None =>
      ∃ chosen,
        kiosk_shell_surface_find_best_output shell shsurf = Some chosen ∧
        live_output shell chosen ∧
        heap = <[shsurf := bound_to chosen r]> (surfaces shell)
  end.

(** The reading of the edge policy that C4 states: whatever its argument,
    a fullscreen or maximize request for the window behind [ds] leaves it in
    the normal placement. *)
Definition coerced_to_normal (shell : kiosk_shell) (ds : dsurf_ptr)
    (b : bool) (output : option output_ptr) : Prop :=
  (∀ shell', desktop_surface_fullscreen_requested shell ds b output = Some shell' →
             placement_of <$> desktop_surfaces shell' !! ds = Some Normal) ∧
  (∀ shell', desktop_surface_maximized_requested shell ds b = Some shell' →
             placement_of <$> desktop_surfaces shell' !! ds = Some Normal).

(* ================================================================== *)
(** * Theorems *)

(** ** C strings *)

Section cstring_facts.
Implicit Types h n s : cstring.

Lemma starts_with_spec h n :
  starts_with h n = true ↔ ∃ t, h = n ++ t.
Proof.
  revert h. induction n as [|c n IH]; intros h; simpl.
  - split; [intros _; by exists h | done].
  - destruct h as [|d h]; simpl.
    + split; [done | intros [t Ht]; discriminate].
    + case_decide as Hcd; subst.
      * rewrite IH. split; intros [t Ht]; exists t; congruence.
      * split; [done | intros [t Ht]; congruence].
Qed.

Lemma starts_with_length h n :
  starts_with h n = true → length n ≤ length h.
Proof.
  intros [t ->]%starts_with_spec. rewrite length_app. lia.
Qed.

(** [strstr] returns the first offset at which the needle starts. *)
Lemma strstr_Some h n k :
  strstr h n = Some k →
  starts_with (drop k h) n = true ∧
  ∀ j, j < k → starts_with (drop j h) n = false.
Proof.
  revert k. induction h as [|d h IH]; intros k; simpl.
  - destruct (starts_with [] n) eqn:Hs; [|done].
    intros [= <-]. split; [done | lia].
  - destruct (starts_with (d :: h) n) eqn:Hs.
    + intros [= <-]. split; [done | lia].
    + destruct (strstr h n) as [k'|] eqn:Hk; [|done].
      intros [= <-]. destruct (IH k' eq_refl) as [H1 H2].
      split; [done|]. intros [|j] Hj; [done|]. apply H2. lia.
Qed.

Lemma strstr_None h n j :
  strstr h n = None → starts_with (drop j h) n = false.
Proof.
  revert j. induction h as [|d h IH]; intros j; simpl.
  - destruct (starts_with [] n) eqn:Hs; [done|]. by rewrite drop_nil.
  - destruct (starts_with (d :: h) n) eqn:Hs; [done|].
    destruct (strstr h n) eqn:Hk; [done|]. intros _.
    destruct j as [|j]; [done|]. by apply IH.
Qed.

Lemma strstr_le h n k : strstr h n = Some k → k ≤ length h.
Proof.
  revert k. induction h as [|d h IH]; intros k; simpl.
  - destruct (starts_with [] n); [|done]. intros [= <-]. lia.
  - destruct (starts_with (d :: h) n); [intros [= <-]; lia|].
    destruct (strstr h n) as [k'|]; [|done]. intros [= <-].
    specialize (IH k' eq_refl). lia.
Qed.

Lemma strstr_bound h n k :
  strstr h n = Some k → k + length n ≤ length h.
Proof.
  intros Hk. pose proof (strstr_le _ _ _ Hk) as Hle.
  apply strstr_Some in Hk as [Hs _]. apply starts_with_length in Hs.
  rewrite length_drop in Hs. lia.
Qed.

Lemma char_at_app_r pre post :
  char_at (pre ++ post) (length pre) = Some (default NUL (head post)).
Proof.
  unfold char_at. rewrite lookup_app_r by lia.
  replace (length pre - length pre) with 0 by lia.
  destruct post as [|c post]; simpl; [|done].
  rewrite app_nil_r. by rewrite decide_True.
Qed.

Lemma char_at_lt s i c : char_at s i = Some c → i < length s → s !! i = Some c.
Proof.
  unfold char_at. intros H Hi.
  destruct (s !! i) eqn:E; [done|].
  apply lookup_ge_None in E. lia.
Qed.
End cstring_facts.

(** ** C2: affinity matching *)

Section has_app_id_facts.
Variables app_ids app_id : cstring.
Hypothesis app_ids_string : c_string app_ids.
Hypothesis app_id_nonempty : app_id ≠ [].

Lemma token_at_starts p :
  token_at app_ids app_id p → starts_with (drop p app_ids) app_id = true.
Proof.
  intros (pre & post & -> & <- & _). rewrite drop_app_length.
  apply starts_with_spec. by exists post.
Qed.

Lemma token_at_test p : token_at app_ids app_id p → test_passes app_ids app_id p.
Proof.
  intros (pre & post & Hs & <- & Hl & Hr). unfold test_passes.
  rewrite Hs. split.
  - rewrite app_assoc, <- length_app, char_at_app_r.
    destruct Hr as [-> | [post' ->]]; simpl; auto.
  - destruct Hl as [-> | [pre' ->]]; [by left | right].
    rewrite length_app; simpl.
    replace (length pre' + 1 - 1) with (length pre') by lia.
    by rewrite <- app_assoc, char_at_app_r.
Qed.

Lemma test_token_at p :
  starts_with (drop p app_ids) app_id = true → p ≤ length app_ids →
  test_passes app_ids app_id p → token_at app_ids app_id p.
Proof.
  intros [post Hpost]%starts_with_spec Hp [Hr Hl].
  assert (Hs : app_ids = take p app_ids ++ app_id ++ post)
    by (by rewrite <- Hpost, take_drop).
  assert (Hlen : length (take p app_ids) = p) by (rewrite length_take; lia).
  exists (take p app_ids), post.
  unfold bounded_left, bounded_right. split_and!; [done | done | |].
  - destruct Hl as [-> | Hl]; [by left|].
    destruct p as [|p]; [by left | right].
    replace (S p - 1) with p in Hl by lia.
    apply char_at_lt in Hl; [|lia].
    exists (take p app_ids). by apply take_S_r.
  - rewrite Hs, app_assoc in Hr.
    replace (p + length app_id) with (length (take p app_ids ++ app_id)) in Hr
      by (rewrite length_app; lia).
    rewrite char_at_app_r in Hr.
    destruct post as [|c post]; [by left | right]. simpl in Hr.
    destruct Hr as [[= ->] | [= ->]]; [by exists post|].
    exfalso. apply app_ids_string. rewrite Hs.
    rewrite !elem_of_app. right; right. left.
Qed.

Lemma has_app_id_loop_spec fuel cur :
  cur ≤ length app_ids → length app_ids + 1 ≤ fuel + cur →
  ∃ b, has_app_id_loop fuel app_ids app_id cur = Some b ∧
       (b = true ↔ ∃ p, cur ≤ p ∧ token_at app_ids app_id p).
Proof.
  revert cur. induction fuel as [|fuel IH]; intros cur Hcur Hfuel; [lia|].
  simpl. rewrite decide_True by done.
  destruct (strstr (drop cur app_ids) app_id) as [k|] eqn:Hk.
  2:{ exists false. split; [done|]. split; [done|].
      intros (p & Hp & Ht%token_at_starts).
      replace p with (cur + (p - cur)) in Ht by lia.
      rewrite <- drop_drop in Ht.
      by rewrite (strstr_None _ _ _ Hk) in Ht. }
  pose proof (strstr_bound _ _ _ Hk) as Hb. rewrite length_drop in Hb.
  destruct (strstr_Some _ _ _ Hk) as [Hfound Hfirst].
  rewrite drop_drop in Hfound.
  assert (Hlen : 0 < length app_id) by (destruct app_id; [done | simpl; lia]).
  assert (Hnext :
    ¬ test_passes app_ids app_id (cur + k) →
    ∃ b, has_app_id_loop fuel app_ids app_id (cur + k + 1) = Some b ∧
         (b = true ↔ ∃ p, cur ≤ p ∧ token_at app_ids app_id p)).
  { intros Hno. destruct (IH (cur + k + 1)) as (b & -> & Hiff); [lia..|].
    exists b. split; [done|]. rewrite Hiff.
    split; intros (p & Hp & Ht); exists p; (split; [|done]); [lia|].
    destruct (decide (p = cur + k)) as [->|]; [by apply token_at_test in Ht|].
    destruct (decide (p < cur + k)); [|lia].
    apply token_at_starts in Ht.
    replace p with (cur + (p - cur)) in Ht by lia.
    rewrite <- drop_drop, Hfirst in Ht by lia. done. }
  assert (Hyes :
    test_passes app_ids app_id (cur + k) →
    ∃ p, cur ≤ p ∧ token_at app_ids app_id p).
  { intros Hyes. exists (cur + k). split; [lia|].
    apply test_token_at; [done | lia | done]. }
  unfold test_passes in Hnext, Hyes.
  destruct (char_at app_ids (cur + k + length app_id)) as [after|] eqn:Hafter.
  2:{ unfold char_at in Hafter.
      destruct (app_ids !! (cur + k + length app_id)) eqn:E; [done|].
      apply lookup_ge_None in E. case_decide; [done | lia]. }
  simpl.
  destruct (bool_decide (after = COMMA) || bool_decide (after = NUL)) eqn:Hr.
  2:{ apply Hnext. intros [[[= ->] | [= ->]] _]; done. }
  assert (Hr' : Some after = Some COMMA ∨ Some after = Some NUL).
  { apply orb_true_iff in Hr as [->%bool_decide_eq_true | ->%bool_decide_eq_true]; auto. }
  clear Hr. case_bool_decide as Hz.
  { exists true. split; [done|]. split; [|done]. intros _. apply Hyes. auto. }
  destruct (char_at app_ids (cur + k - 1)) as [before|] eqn:Hbefore.
  2:{ unfold char_at in Hbefore.
      destruct (app_ids !! (cur + k - 1)) eqn:E; [done|].
      apply lookup_ge_None in E. lia. }
  simpl. case_bool_decide as Hc.
  - subst. exists true. split; [done|]. split; [|done]. intros _. apply Hyes. auto.
  - apply Hnext. intros [_ [? | [= ?]]]; [lia | congruence].
Qed.
End has_app_id_facts.

(** C2. For an affinity list and a non-empty application identifier, both C
    strings, [kiosk_shell_output_has_app_id] returns, and returns true
    exactly when the identifier occurs in the list bounded on the left by
    the start of the list or a comma and on the right by a comma or the end
    of the list.  The list "vlc,mpv" matches "vlc" and "mpv" and not "vl",
    "mpvx" or "cvlc"; the list "foo,bar" does not match "oo". *)
Theorem has_app_id_complete_token :
  (∀ shoutput app_ids app_id,
     shoutput_app_ids shoutput = Some app_ids →
     c_string app_ids → app_id ≠ [] →
     ∃ b, kiosk_shell_output_has_app_id shoutput app_id = Some b ∧
          (b = true ↔ complete_token app_ids app_id)) ∧
  (let vlc_mpv := {| shoutput_output := Some 0;
                     shoutput_app_ids := Some (of_string "vlc,mpv") |} in
   let foo_bar := {| shoutput_output := Some 0;
                     shoutput_app_ids := Some (of_string "foo,bar") |} in
   kiosk_shell_output_has_app_id vlc_mpv (of_string "vlc") = Some true ∧
   kiosk_shell_output_has_app_id vlc_mpv (of_string "mpv") = Some true ∧
   kiosk_shell_output_has_app_id vlc_mpv (of_string "vl") = Some false ∧
   kiosk_shell_output_has_app_id vlc_mpv (of_string "mpvx") = Some false ∧
   kiosk_shell_output_has_app_id vlc_mpv (of_string "cvlc") = Some false ∧
   kiosk_shell_output_has_app_id foo_bar (of_string "oo") = Some false).
Proof.
  split; [|by vm_compute].
  intros shoutput app_ids app_id Hs Hc Hne.
  unfold kiosk_shell_output_has_app_id. rewrite Hs.
  destruct (has_app_id_loop_spec app_ids app_id Hc Hne
              (length app_ids + 2) 0) as (b & Hb & Hiff); [lia..|].
  exists b. split; [done|]. rewrite Hiff. unfold complete_token.
  split; intros (p & H); exists p; [by destruct H | split; [lia | done]].
Qed.

Lemma has_app_id_complete_token_witness :
  ∃ b, kiosk_shell_output_has_app_id
         {| shoutput_output := Some 1;
            shoutput_app_ids := Some (of_string "kiosk-app,term") |}
         (of_string "term") = Some b ∧
       (b = true ↔ complete_token (of_string "kiosk-app,term") (of_string "term")).
Proof.
  apply (proj1 has_app_id_complete_token
           {| shoutput_output := Some 1;
              shoutput_app_ids := Some (of_string "kiosk-app,term") |}
           (of_string "kiosk-app,term") (of_string "term")).
  - reflexivity.
  - unfold c_string. vm_compute. intros H.
    repeat (apply elem_of_cons in H as [H | H]; [discriminate H|]).
    by apply elem_of_nil in H.
  - discriminate.
Defined.

(** ** The fields of an affinity list *)

Lemma bounded_right_cons c rest : bounded_right (c :: rest) ↔ c = COMMA.
Proof.
  unfold bounded_right. split.
  - intros [? | [post [= -> _]]]; done.
  - intros ->. right. by exists rest.
Qed.

(** The fields [split_commas] produces: the field under way, completed by
    the characters up to the next comma, and every field that follows a
    comma. *)
Lemma split_commas_elem cur s a :
  a ∈ split_commas cur s ↔
  (∃ t rest, s = t ++ rest ∧ (COMMA ∉ t) ∧ bounded_right rest ∧
             a = reverse cur ++ t) ∨
  (∃ pre t post, s = pre ++ COMMA :: t ++ post ∧ (COMMA ∉ t) ∧
                 bounded_right post ∧ a = t).
Proof.
  revert cur. induction s as [|c s IH]; intros cur; simpl.
  - rewrite list_elem_of_singleton. split.
    + intros ->. left. exists [], [].
      split_and!; [done | apply not_elem_of_nil | by left | by rewrite app_nil_r].
    + intros [(t & rest & Hs & _ & _ & ->) | (pre & t & post & Hs & _)].
      * symmetry in Hs. apply app_eq_nil in Hs as [-> _]. by rewrite app_nil_r.
      * by destruct pre.
  - case_decide as Hc.
    + subst c. rewrite elem_of_cons, IH. split.
      * intros [-> | [(t & rest & -> & Ht & Hr & ->) |
                      (pre & t & post & -> & Ht & Hr & ->)]].
        -- left. exists [], (COMMA :: s).
           split_and!; [done | apply not_elem_of_nil | by apply bounded_right_cons
                       | by rewrite app_nil_r].
        -- right. by exists [], t, rest.
        -- right. by exists (COMMA :: pre), t, post.
      * intros [(t & rest & Hs & Ht & Hr & ->) | (pre & t & post & Hs & Ht & Hr & ->)].
        -- destruct t as [|c t]; [left; by rewrite app_nil_r|].
           injection Hs as <- _. exfalso. apply Ht. by left.
        -- right. destruct pre as [|c pre]; simpl in Hs; injection Hs as Hs.
           ++ left. exists t, post. by rewrite reverse_nil.
           ++ right. subst. by exists pre, t, post.
    + rewrite IH. split.
      * intros [(t & rest & -> & Ht & Hr & ->) | (pre & t & post & -> & Ht & Hr & ->)].
        -- left. exists (c :: t), rest. split_and!; [done | | done |].
           ++ rewrite not_elem_of_cons. split; [congruence | done].
           ++ by rewrite reverse_cons, <- app_assoc.
        -- right. by exists (c :: pre), t, post.
      * intros [(t & rest & Hs & Ht & Hr & ->) | (pre & t & post & Hs & Ht & Hr & ->)].
        -- destruct t as [|c' t]; simpl in Hs.
           { subst rest. apply bounded_right_cons in Hr. done. }
           injection Hs as <- ->. left. exists t, rest.
           apply not_elem_of_cons in Ht as [_ Ht].
           split_and!; [done..|]. by rewrite reverse_cons, <- app_assoc.
        -- destruct pre as [|c' pre]; simpl in Hs; injection Hs as Hs1 Hs2;
             [congruence|]. right. subst. by exists pre, t, post.
Qed.

(** For an identifier without a comma, a bounded occurrence is the same as
    being one of the comma-separated fields. *)
Lemma complete_token_is_token app_ids app_id :
  COMMA ∉ app_id →
  complete_token app_ids app_id ↔ is_token app_ids app_id.
Proof.
  intros Hno. unfold is_token, tokens. rewrite split_commas_elem.
  unfold complete_token, token_at. split.
  - intros (p & pre & post & -> & _ & [-> | [pre' ->]] & Hr).
    + left. by exists app_id, post.
    + right. exists pre', app_id, post. by rewrite <- app_assoc.
  - intros [(t & rest & -> & _ & Hr & ->) | (pre & t & post & -> & _ & Hr & ->)].
    + exists 0, [], rest. rewrite reverse_nil. split_and!; [done | done | by left | done].
    + exists (length (pre ++ [COMMA])), (pre ++ [COMMA]), post.
      split_and!; [by rewrite <- app_assoc | done | right; by exists pre | done].
Qed.

Lemma token_at_le app_ids app_id p : token_at app_ids app_id p → p ≤ length app_ids.
Proof. intros (pre & post & -> & <- & _). rewrite length_app. lia. Qed.

Lemma c_string_of_ascii (s : cstring) :
  forallb (λ c, negb (bool_decide (c = NUL))) s = true → c_string s.
Proof.
  unfold c_string. induction s as [|c s IH]; simpl; [intros _; apply not_elem_of_nil|].
  intros [Hc Hs]%andb_true_iff. apply not_elem_of_cons. split; [|by apply IH].
  apply negb_true_iff, bool_decide_eq_false in Hc. congruence.
Qed.

(** X2. For an affinity list and a non-empty application identifier without
    a comma, [kiosk_shell_output_has_app_id] returns true exactly when the
    identifier is one of the comma-separated fields of the list. *)
Theorem has_app_id_field_membership shoutput app_ids app_id :
  shoutput_app_ids shoutput = Some app_ids →
  c_string app_ids → app_id ≠ [] → COMMA ∉ app_id →
  ∃ b, kiosk_shell_output_has_app_id shoutput app_id = Some b ∧
       (b = true ↔ app_id ∈ tokens app_ids).
Proof.
  intros Hs Hc Hne Hno. unfold kiosk_shell_output_has_app_id. rewrite Hs.
  destruct (has_app_id_loop_spec app_ids app_id Hc Hne
              (length app_ids + 2) 0) as (b & Hb & Hiff); [lia..|].
  exists b. split; [done|]. rewrite Hiff.
  rewrite <- (complete_token_is_token app_ids app_id Hno). unfold complete_token.
  split; intros (p & H); exists p; [by destruct H | split; [lia | done]].
Qed.

Lemma has_app_id_field_membership_witness :
  ∃ b, kiosk_shell_output_has_app_id
         {| shoutput_output := Some 2;
            shoutput_app_ids := Some (of_string "vlc,kiosk-app") |}
         (of_string "kiosk-app") = Some b ∧
       (b = true ↔ of_string "kiosk-app" ∈ tokens (of_string "vlc,kiosk-app")).
Proof.
  apply (has_app_id_field_membership
           {| shoutput_output := Some 2;
              shoutput_app_ids := Some (of_string "vlc,kiosk-app") |}
           (of_string "vlc,kiosk-app") (of_string "kiosk-app")).
  - reflexivity.
  - by apply c_string_of_ascii.
  - discriminate.
  - vm_compute. intros H.
    repeat (apply elem_of_cons in H as [H | H]; [discriminate H|]).
    by apply elem_of_nil in H.
Defined.

Lemma split_commas_app cur x y :
  split_commas cur (x ++ COMMA :: y) = split_commas cur x ++ split_commas [] y.
Proof.
  revert cur. induction x as [|c x IH]; intros cur; simpl.
  - done.
  - case_decide; [by rewrite IH | apply IH].
Qed.

Lemma split_commas_nonempty cur s : split_commas cur s ≠ [].
Proof.
  revert cur. induction s as [|c s IH]; intros cur; simpl; [done|].
  case_decide; [done | apply IH].
Qed.

Lemma join_commas_cons t l : l ≠ [] → join_commas (t :: l) = t ++ COMMA :: join_commas l.
Proof. by destruct l. Qed.

Lemma join_split_commas cur s : join_commas (split_commas cur s) = reverse cur ++ s.
Proof.
  revert cur. induction s as [|c s IH]; intros cur; simpl.
  - by rewrite app_nil_r.
  - case_decide as Hc.
    + subst c. rewrite join_commas_cons by apply split_commas_nonempty.
      by rewrite IH.
    + rewrite IH, reverse_cons, <- app_assoc. done.
Qed.

Lemma join_commas_app l1 l2 :
  l1 ≠ [] → l2 ≠ [] →
  join_commas (l1 ++ l2) = join_commas l1 ++ COMMA :: join_commas l2.
Proof.
  intros H1 H2. induction l1 as [|t l1 IH]; [done|].
  destruct l1 as [|t' l1].
  - simpl. by destruct l2.
  - change ((t :: t' :: l1) ++ l2) with (t :: ((t' :: l1) ++ l2)).
    rewrite join_commas_cons by done. rewrite IH by done.
    rewrite (join_commas_cons t (t' :: l1)) by done.
    by rewrite <- app_assoc.
Qed.

(** A bounded occurrence of the identifier is a run of consecutive fields
    of the list that spells the fields of the identifier. *)
Lemma complete_token_fields app_ids app_id :
  complete_token app_ids app_id ↔
  ∃ before after, tokens app_ids = before ++ tokens app_id ++ after.
Proof.
  unfold complete_token, token_at, tokens. split.
  - intros (p & pre & post & -> & _ & Hl & Hr).
    assert (Hpost : ∃ after, split_commas [] (app_id ++ post) =
                             split_commas [] app_id ++ after).
    { destruct Hr as [-> | [post' ->]].
      - exists []. by rewrite !app_nil_r.
      - eexists. apply split_commas_app. }
    destruct Hpost as [after Hpost].
    destruct Hl as [-> | [pre' ->]].
    + exists [], after. simpl. by rewrite Hpost.
    + exists (split_commas [] pre'), after.
      rewrite <- (app_assoc pre'). simpl. by rewrite split_commas_app, Hpost.
  - intros (before & after & Hs).
    assert (Hj : app_ids = join_commas (before ++ split_commas [] app_id ++ after))
      by (by rewrite <- Hs, join_split_commas).
    assert (Ha : join_commas (split_commas [] app_id) = app_id)
      by apply join_split_commas.
    pose proof (split_commas_nonempty [] app_id) as Hne.
    assert (Hmid : ∃ post, join_commas (split_commas [] app_id ++ after) =
                           app_id ++ post ∧ bounded_right post).
    { destruct after as [|t after].
      - exists []. rewrite !app_nil_r. split; [done | by left].
      - exists (COMMA :: join_commas (t :: after)).
        rewrite join_commas_app, Ha by done. split; [done|]. right. eauto. }
    destruct Hmid as (post & Hmid & Hr).
    destruct before as [|t before].
    + exists 0, [], post. simpl in Hj. rewrite Hmid in Hj.
      split_and!; [done | done | by left | done].
    + exists (length (join_commas (t :: before) ++ [COMMA])),
        (join_commas (t :: before) ++ [COMMA]), post.
      rewrite join_commas_app in Hj; [|done|].
      2:{ intros [? _]%app_eq_nil. done. }
      rewrite Hmid in Hj.
      split_and!; [by rewrite <- app_assoc | done | right; eauto | done].
Qed.

(** X3. For an affinity list and any non-empty application identifier,
    with or without commas, [kiosk_shell_output_has_app_id] returns true
    exactly when the fields of the identifier occur as consecutive fields
    of the list.  So an identifier that contains a comma matches a list in
    which its parts are neighbours, although it is no field of the list. *)
Theorem has_app_id_consecutive_fields shoutput app_ids app_id :
  shoutput_app_ids shoutput = Some app_ids →
  c_string app_ids → app_id ≠ [] →
  ∃ b, kiosk_shell_output_has_app_id shoutput app_id = Some b ∧
       (b = true ↔
        ∃ before after, tokens app_ids = before ++ tokens app_id ++ after).
Proof.
  intros Hs Hc Hne. unfold kiosk_shell_output_has_app_id. rewrite Hs.
  destruct (has_app_id_loop_spec app_ids app_id Hc Hne
              (length app_ids + 2) 0) as (b & Hb & Hiff); [lia..|].
  exists b. split; [done|]. rewrite Hiff, <- complete_token_fields.
  unfold complete_token.
  split; intros (p & H); exists p; [by destruct H | split; [lia | done]].
Qed.

Lemma has_app_id_consecutive_fields_witness :
  kiosk_shell_output_has_app_id
    {| shoutput_output := Some 0;
       shoutput_app_ids := Some (of_string "a,vlc,mpv,b") |}
    (of_string "vlc,mpv") = Some true.
Proof.
  destruct (has_app_id_consecutive_fields
              {| shoutput_output := Some 0;
                 shoutput_app_ids := Some (of_string "a,vlc,mpv,b") |}
              (of_string "a,vlc,mpv,b") (of_string "vlc,mpv"))
    as (b & -> & Hb); [reflexivity | by apply c_string_of_ascii | discriminate |].
  f_equal. apply Hb. by exists [of_string "a"], [of_string "b"].
Defined.

(** ** The empty identifier *)

(** With the empty identifier [strstr] finds the needle wherever the pointer
    stands, so the pointer advances one character per turn until an empty
    field is found or it leaves the string. *)
Lemma has_app_id_loop_empty app_ids fuel cur :
  c_string app_ids → length app_ids + 2 ≤ fuel + cur →
  ((∃ p, cur ≤ p ∧ token_at app_ids [] p) →
   has_app_id_loop fuel app_ids [] cur = Some true) ∧
  (¬ (∃ p, cur ≤ p ∧ token_at app_ids [] p) →
   has_app_id_loop fuel app_ids [] cur = None).
Proof.
  intros Hc. revert cur. induction fuel as [|fuel IH]; intros cur Hfuel.
  { split; [|done]. intros (p & Hp & Ht%token_at_le). lia. }
  simpl. case_decide as Hcur.
  2:{ split; [|done]. intros (p & Hp & Ht%token_at_le). lia. }
  assert (Hs : strstr (drop cur app_ids) [] = Some 0) by (by destruct (drop cur app_ids)).
  rewrite Hs. clear Hs. rewrite !Nat.add_0_r.
  assert (Hnext :
    ¬ test_passes app_ids [] cur →
    ((∃ p, cur ≤ p ∧ token_at app_ids [] p) →
     has_app_id_loop fuel app_ids [] (cur + 1) = Some true) ∧
    (¬ (∃ p, cur ≤ p ∧ token_at app_ids [] p) →
     has_app_id_loop fuel app_ids [] (cur + 1) = None)).
  { intros Hno. destruct (IH (cur + 1)) as [Hyes Hnone]; [lia|]. split.
    - intros (p & Hp & Ht). apply Hyes. exists p. split; [|done].
      destruct (decide (p = cur)) as [->|]; [|lia].
      by apply token_at_test in Ht.
    - intros Hnot. apply Hnone. intros (p & Hp & Ht). apply Hnot.
      exists p. split; [lia | done]. }
  assert (Hyes :
    test_passes app_ids [] cur → ∃ p, cur ≤ p ∧ token_at app_ids [] p).
  { intros Hyes. exists cur. split; [done|].
    apply test_token_at; [done | by destruct (drop cur app_ids) | done | done]. }
  unfold test_passes in Hnext, Hyes. simpl in Hnext, Hyes.
  rewrite Nat.add_0_r in Hnext, Hyes.
  destruct (char_at app_ids cur) as [after|] eqn:Hafter.
  2:{ unfold char_at in Hafter.
      destruct (app_ids !! cur) eqn:E; [done|].
      apply lookup_ge_None in E. case_decide; [done | lia]. }
  simpl.
  destruct (bool_decide (after = COMMA) || bool_decide (after = NUL)) eqn:Hr.
  2:{ apply Hnext. intros [[[= ->] | [= ->]] _]; done. }
  assert (Hr' : Some after = Some COMMA ∨ Some after = Some NUL).
  { apply orb_true_iff in Hr as [->%bool_decide_eq_true | ->%bool_decide_eq_true]; auto. }
  clear Hr. case_bool_decide as Hz.
  { split; [done|]. intros []. apply Hyes. auto. }
  destruct (char_at app_ids (cur - 1)) as [before|] eqn:Hbefore.
  2:{ unfold char_at in Hbefore.
      destruct (app_ids !! (cur - 1)) eqn:E; [done|].
      apply lookup_ge_None in E. lia. }
  simpl. case_bool_decide as Hb.
  - subst. split; [done|]. intros []. apply Hyes. auto.
  - apply Hnext. intros [_ [? | [= ?]]]; [lia | congruence].
Qed.

(** X1. With the empty application identifier, which
    [kiosk_shell_surface_find_best_output] passes on when the client set it,
    [kiosk_shell_output_has_app_id] returns true when the affinity list has
    an empty field, and otherwise moves its pointer past the terminator of
    the list and reads there: it has no result. *)
Theorem has_app_id_empty_identifier shoutput app_ids :
  shoutput_app_ids shoutput = Some app_ids → c_string app_ids →
  ([] ∈ tokens app_ids →
   kiosk_shell_output_has_app_id shoutput [] = Some true) ∧
  ([] ∉ tokens app_ids →
   kiosk_shell_output_has_app_id shoutput [] = None).
Proof.
  intros Hs Hc. unfold kiosk_shell_output_has_app_id. rewrite Hs.
  destruct (has_app_id_loop_empty app_ids (length app_ids + 2) 0 Hc) as [Hyes Hno];
    [lia|].
  assert (Hiff : (∃ p, 0 ≤ p ∧ token_at app_ids [] p) ↔ [] ∈ tokens app_ids).
  { rewrite <- (complete_token_is_token app_ids []) by apply not_elem_of_nil.
    unfold complete_token. split; intros (p & H); exists p;
      [by destruct H | split; [lia | done]]. }
  split; intros H; [apply Hyes | apply Hno]; by rewrite Hiff.
Qed.

Lemma has_app_id_empty_identifier_witness :
  kiosk_shell_output_has_app_id
    {| shoutput_output := Some 2;
       shoutput_app_ids := Some (of_string "vlc,kiosk-app") |} [] = None.
Proof.
  apply (has_app_id_empty_identifier
           {| shoutput_output := Some 2;
              shoutput_app_ids := Some (of_string "vlc,kiosk-app") |}
           (of_string "vlc,kiosk-app")).
  - reflexivity.
  - by apply c_string_of_ascii.
  - vm_compute. intros H.
    repeat (apply elem_of_cons in H as [H | H]; [discriminate H|]).
    by apply elem_of_nil in H.
Defined.

(** ** Parent chains and [kiosk_shell_surface_get_parent_root] *)

Section parent_chain_facts.
Implicit Types heap : gmap shsurf_ptr kiosk_shell_surface.

Lemma parent_chain_det heap w n root n' root' :
  parent_chain heap w n root → parent_chain heap w n' root' →
  n = n' ∧ root = root'.
Proof.
  intros H. revert n' root'.
  induction H as [w r Hw Hp | w r p n root Hw Hp _ IH]; intros n' root' H'.
  - inversion H'; simplify_eq; done.
  - inversion H'; simplify_eq. destruct (IH _ _ ltac:(eassumption)). by subst.
Qed.

Lemma parent_chain_loop heap w n root fuel :
  parent_chain heap w n root → n ≤ fuel →
  get_parent_root_loop fuel heap w = Some root.
Proof.
  intros H. revert fuel.
  induction H as [w r Hw Hp | w r p n root Hw Hp _ IH]; intros fuel Hfuel.
  - destruct fuel; simpl; rewrite Hw; simpl; by rewrite Hp.
  - destruct fuel as [|fuel]; [lia|]. simpl. rewrite Hw; simpl. rewrite Hp.
    apply IH. lia.
Qed.

Lemma get_parent_root_loop_chain fuel heap w root :
  get_parent_root_loop fuel heap w = Some root →
  ∃ n, n ≤ fuel ∧ parent_chain heap w n root.
Proof.
  revert w. induction fuel as [|fuel IH]; intros w; simpl;
    destruct (heap !! w) as [r|] eqn:Hw; simpl; try done;
    destruct (shsurf_parent r) as [p|] eqn:Hp; try done.
  - intros [= <-]. exists 0. split; [lia|]. by eapply parent_chain_root.
  - intros (n & Hn & Hc)%IH. exists (S n). split; [lia|].
    by eapply parent_chain_step.
  - intros [= <-]. exists 0. split; [lia|]. by eapply parent_chain_root.
Qed.

(** A chain from [p] that is shorter than every chain from [w] does not
    pass through [w]. *)
Lemma parent_chain_delete heap w p n root :
  parent_chain heap p n root →
  (∀ m r, parent_chain heap w m r → n < m) →
  parent_chain (delete w heap) p n root.
Proof.
  intros H. induction H as [x r Hx Hp | x r p n root Hx Hp Hc IH]; intros Hw.
  - assert (x ≠ w).
    { intros ->. specialize (Hw 0 w ltac:(by eapply parent_chain_root)). lia. }
    eapply parent_chain_root; [by rewrite lookup_delete_ne | done].
  - assert (x ≠ w).
    { intros ->.
      specialize (Hw (S n) root ltac:(by eapply parent_chain_step)). lia. }
    eapply parent_chain_step; [by rewrite lookup_delete_ne | done |].
    apply IH. intros m r' Hm. specialize (Hw m r' Hm). lia.
Qed.

(** A chain visits fewer records than the heap holds, so the fuel of
    [kiosk_shell_surface_get_parent_root] is never the reason for
    [None]. *)
Lemma parent_chain_lt_size heap w n root :
  parent_chain heap w n root → n < size heap.
Proof.
  revert heap w. induction n as [|n IH]; intros heap w H.
  - inversion H; subst.
    assert (size heap ≠ 0) by (eapply map_size_ne_0_lookup_2; eauto). lia.
  - inversion H as [|? r p ? ? Hw Hp Hc]; subst.
    assert (Hd : parent_chain (delete w heap) p n root).
    { apply parent_chain_delete; [done|]. intros m r' Hm.
      destruct (parent_chain_det _ _ _ _ _ _ H Hm). lia. }
    apply IH in Hd. rewrite map_size_delete_Some in Hd by eauto. lia.
Qed.

Lemma get_parent_root_spec shell shsurf root :
  kiosk_shell_surface_get_parent_root shell shsurf = Some root ↔
  root_ancestor shell shsurf root.
Proof.
  unfold kiosk_shell_surface_get_parent_root, root_ancestor. split.
  - intros (n & _ & Hc)%get_parent_root_loop_chain. eauto.
  - intros [n Hc]. eapply parent_chain_loop; [done|].
    apply parent_chain_lt_size in Hc. lia.
Qed.

Lemma root_ancestor_det shell shsurf root root' :
  root_ancestor shell shsurf root → root_ancestor shell shsurf root' →
  root = root'.
Proof.
  intros [n H] [n' H']. by destruct (parent_chain_det _ _ _ _ _ _ H H').
Qed.
End parent_chain_facts.

(** ** C1: the best-output policy *)

Lemma find_designated_output_Some l a so :
  find_designated_output l a = Some (Some so) ↔
  ∃ pre post, l = pre ++ so :: post ∧
    Forall (λ x, kiosk_shell_output_has_app_id x a = Some false) pre ∧
    kiosk_shell_output_has_app_id so a = Some true.
Proof.
  induction l as [|x l IH]; simpl.
  - split; [done|]. intros (pre & post & H & _). by destruct pre.
  - destruct (kiosk_shell_output_has_app_id x a) as [[]|] eqn:Hx; simpl.
    + split.
      * intros [= <-]. exists [], l. by repeat split.
      * intros ([|y pre] & post & H & Hpre & Hso); simplify_eq/=; try done.
        apply Forall_cons in Hpre as [? _]. congruence.
    + rewrite IH. split.
      * intros (pre & post & -> & Hpre & Hso). exists (x :: pre), post.
        repeat split; [|done]. by constructor.
      * intros ([|y pre] & post & H & Hpre & Hso); simplify_eq/=; try congruence.
        apply Forall_cons in Hpre as [_ ?]. by exists pre, post.
    + split; [done|].
      intros ([|y pre] & post & H & Hpre & Hso); simplify_eq/=; try congruence.
      apply Forall_cons in Hpre as [? _]. congruence.
Qed.

Lemma find_designated_output_None l a :
  find_designated_output l a = Some None ↔
  Forall (λ x, kiosk_shell_output_has_app_id x a = Some false) l.
Proof.
  induction l as [|x l IH]; simpl.
  - split; [by constructor | done].
  - destruct (kiosk_shell_output_has_app_id x a) as [[]|] eqn:Hx; simpl.
    + split; [done|]. intros [? _]%Forall_cons. congruence.
    + rewrite IH. split; [by constructor | by intros [_ ?]%Forall_cons].
    + split; [done|]. intros [? _]%Forall_cons. congruence.
Qed.

Lemma root_output_lookup shell shsurf o :
  root_output shell shsurf o ↔
  ∃ root rr, kiosk_shell_surface_get_parent_root shell shsurf = Some root ∧
             surfaces shell !! root = Some rr ∧ shsurf_output rr = o.
Proof.
  unfold root_output.
  split; intros (root & rr & H & ?); exists root, rr;
    (split; [by apply get_parent_root_spec | done]).
Qed.

(** What [kiosk_shell_output_has_app_id] decides for a non-empty
    identifier. *)
Lemma has_app_id_lists so a :
  match shoutput_app_ids so with
  | Some app_ids => c_string app_ids
  | None => True
  end →
  a ≠ [] →
  ∃ b, kiosk_shell_output_has_app_id so a = Some b ∧
       (b = true ↔ lists_app_id so a).
Proof.
  unfold kiosk_shell_output_has_app_id, lists_app_id.
  destruct (shoutput_app_ids so) as [app_ids|]; intros Hc Hne.
  - destruct (has_app_id_loop_spec app_ids a Hc Hne (length app_ids + 2) 0)
      as (b & Hb & Hiff); [lia..|].
    exists b. split; [done|]. rewrite Hiff. unfold complete_token. split.
    + intros (p & _ & Ht). exists app_ids. split; [done | by exists p].
    + intros (ids & [= <-] & p & Ht). exists p. split; [lia | done].
  - exists false. split; [done|]. split; [done|]. by intros (ids & ? & _).
Qed.

Lemma has_app_id_false_iff so a :
  match shoutput_app_ids so with
  | Some app_ids => c_string app_ids
  | None => True
  end →
  a ≠ [] →
  kiosk_shell_output_has_app_id so a = Some false ↔ ¬ lists_app_id so a.
Proof.
  intros Hc Hne. destruct (has_app_id_lists so a Hc Hne) as (b & -> & Hb).
  destruct b.
  - split; [done|]. intros Hn. destruct Hn. by apply Hb.
  - split; [|done]. intros _ Hl. by apply Hb in Hl.
Qed.

Lemma has_app_id_true_iff so a :
  match shoutput_app_ids so with
  | Some app_ids => c_string app_ids
  | None => True
  end →
  a ≠ [] →
  kiosk_shell_output_has_app_id so a = Some true ↔ lists_app_id so a.
Proof.
  intros Hc Hne. destruct (has_app_id_lists so a Hc Hne) as (b & -> & Hb).
  rewrite <- Hb. split; [by intros [= ->] | by intros ->].
Qed.

Lemma Forall_has_app_id_false l a :
  Forall (λ so, match shoutput_app_ids so with
                | Some app_ids => c_string app_ids
                | None => True
                end) l →
  a ≠ [] →
  Forall (λ so, kiosk_shell_output_has_app_id so a = Some false) l ↔
  Forall (λ so, ¬ lists_app_id so a) l.
Proof.
  intros Hok Hne. induction Hok as [|so l Hso Hl IH].
  - split; constructor.
  - rewrite !Forall_cons, IH. by rewrite has_app_id_false_iff.
Qed.

(** The loop over the registered outputs finds the first whose list
    contains the identifier. *)
Lemma find_designated_output_lists shell a :
  affinity_lists_ok shell → a ≠ [] →
  (∀ so, find_designated_output (output_list shell) a = Some (Some so) ↔
         ∃ pre post, output_list shell = pre ++ so :: post ∧
                     Forall (λ x, ¬ lists_app_id x a) pre ∧ lists_app_id so a) ∧
  (find_designated_output (output_list shell) a = Some None ↔
   Forall (λ x, ¬ lists_app_id x a) (output_list shell)).
Proof.
  unfold affinity_lists_ok. intros Hok Hne. split.
  - intros so. rewrite find_designated_output_Some.
    split; intros (pre & post & Hl & Hpre & Hso); exists pre, post;
      rewrite Hl in Hok; apply Forall_app in Hok as [Hok1 Hok2];
      apply Forall_cons in Hok2 as [Hok2 _].
    + split; [done|]. split; [by apply Forall_has_app_id_false|].
      by apply has_app_id_true_iff.
    + split; [done|]. split; [by apply Forall_has_app_id_false|].
      by apply has_app_id_true_iff.
  - rewrite find_designated_output_None. by apply Forall_has_app_id_false.
Qed.

(** X17. The best-output policy.  When the affinity lists are C strings and
    the application identifier of the window, if it has one, is not empty,
    [kiosk_shell_surface_find_best_output] returns a result exactly in the
    six cases of the policy, tried in this order: the bound output of the
    window; the output of the first registered output whose affinity list
    contains the application identifier; the bound output of the root
    ancestor; the focused output; the default output; none. *)
Theorem find_best_output_priority shell shsurf res :
  affinity_lists_ok shell →
  (∀ d, unbound_window shell shsurf d → ds_app_id d ≠ Some []) →
  kiosk_shell_surface_find_best_output shell shsurf = Some res ↔
  best_output shell shsurf res.
Proof.
  intros Hok Hid.
  assert (Hrest : ∀ d,
    unbound_window shell shsurf d →
    match ds_app_id d with
    | Some app_id => find_designated_output (output_list shell) app_id
    | None => Some None
    end = Some None →
    kiosk_shell_surface_find_best_output shell shsurf =
    (root ← kiosk_shell_surface_get_parent_root shell shsurf;
     rr ← surfaces shell !! root;
     Some match shsurf_output rr with
          | Some o => Some o
          | None => match focused_output shell with
                    | Some o => Some o
                    | None => default_output shell
                    end
          end)).
  { intros d (r & ds & Hr & Hor & Hds & Hd) Hdes.
    unfold kiosk_shell_surface_find_best_output.
    rewrite Hr; simpl. rewrite Hor, Hds; simpl. rewrite Hd; simpl.
    rewrite Hdes; simpl.
    destruct (kiosk_shell_surface_get_parent_root shell shsurf) as [root|];
      simpl; [|done].
    destruct (surfaces shell !! root) as [rr|]; simpl; [|done].
    destruct (shsurf_output rr); simpl; [done|].
    destruct (focused_output shell); simpl; [done|].
    by destruct (default_output shell). }
  assert (Hdes : ∀ d,
    unbound_window shell shsurf d →
    match ds_app_id d with
    | Some app_id => find_designated_output (output_list shell) app_id
    | None => Some None
    end = Some None ↔ no_designated_output shell (ds_app_id d)).
  { intros d Hu. specialize (Hid d Hu). unfold no_designated_output.
    destruct (ds_app_id d) as [a|]; [|done].
    apply find_designated_output_lists; [done|]. by intros ->. }
  split.
  - destruct (surfaces shell !! shsurf) as [r|] eqn:Hr.
    2:{ unfold kiosk_shell_surface_find_best_output. by rewrite Hr. }
    destruct (shsurf_output r) as [o|] eqn:Ho.
    { unfold kiosk_shell_surface_find_best_output. rewrite Hr. simpl. rewrite Ho.
      intros [= <-]. by eapply best_bound. }
    destruct (shsurf_desktop_surface r) as [ds|] eqn:Hds.
    2:{ unfold kiosk_shell_surface_find_best_output. rewrite Hr. simpl.
        by rewrite Ho, Hds. }
    destruct (desktop_surfaces shell !! ds) as [d|] eqn:Hd.
    2:{ unfold kiosk_shell_surface_find_best_output. rewrite Hr. simpl.
        rewrite Ho, Hds. simpl. by rewrite Hd. }
    assert (Hu : unbound_window shell shsurf d) by (by exists r, ds).
    destruct (match ds_app_id d with
              | Some app_id => find_designated_output (output_list shell) app_id
              | None => Some None
              end) as [[so|]|] eqn:Hf.
    + unfold kiosk_shell_surface_find_best_output. rewrite Hr. simpl.
      rewrite Ho, Hds. simpl. rewrite Hd. simpl. rewrite Hf. simpl.
      intros [= <-].
      destruct (ds_app_id d) as [a|] eqn:Ha; [|done].
      assert (Hne : a ≠ []) by (intros ->; by apply (Hid d Hu)).
      apply (find_designated_output_lists shell a Hok Hne) in Hf
        as (pre & post & ? & ? & ?).
      by eapply best_designated.
    + rewrite (Hrest d Hu Hf). apply (Hdes d Hu) in Hf.
      destruct (kiosk_shell_surface_get_parent_root shell shsurf)
        as [root|] eqn:Hroot; simpl; [|done].
      destruct (surfaces shell !! root) as [rr|] eqn:Hrr; simpl; [|done].
      assert (Hro : root_output shell shsurf (shsurf_output rr)).
      { apply root_output_lookup. by exists root, rr. }
      destruct (shsurf_output rr) as [o|] eqn:Horr.
      { intros [= <-]. by eapply best_root. }
      destruct (focused_output shell) as [o|] eqn:Hfo.
      { intros [= <-]. by eapply best_focused. }
      destruct (default_output shell) as [o|] eqn:Hdo; intros [= <-].
      * by eapply best_default.
      * by eapply best_none.
    + unfold kiosk_shell_surface_find_best_output. rewrite Hr. simpl.
      rewrite Ho, Hds. simpl. rewrite Hd. simpl. by rewrite Hf.
  - assert (Hlater : ∀ d o,
      unbound_window shell shsurf d →
      no_designated_output shell (ds_app_id d) →
      root_output shell shsurf o →
      kiosk_shell_surface_find_best_output shell shsurf =
      Some match o with
           | Some o => Some o
           | None => match focused_output shell with
                     | Some o => Some o
                     | None => default_output shell
                     end
           end).
    { intros d o Hu Hn (root & rr & Hroot & Hrr & Ho)%root_output_lookup.
      rewrite (Hrest d Hu) by (by apply Hdes).
      rewrite Hroot. simpl. rewrite Hrr. simpl. by rewrite Ho. }
    intros H. destruct H as
      [r o Hr Ho | d a pre so post Hu Ha Hl Hpre Hso
       | d o Hu Hn Hro | d o Hu Hn Hro Hf | d o Hu Hn Hro Hf Hd
       | d Hu Hn Hro Hf Hd].
    + unfold kiosk_shell_surface_find_best_output.
      by rewrite Hr; simpl; rewrite Ho.
    + assert (Hne : a ≠ []) by (intros ->; by apply (Hid d Hu)).
      destruct Hu as (r & ds & Hr & Hor & Hds & Hd).
      unfold kiosk_shell_surface_find_best_output.
      rewrite Hr; simpl. rewrite Hor, Hds; simpl. rewrite Hd; simpl.
      rewrite Ha.
      assert (Hfd : find_designated_output (output_list shell) a = Some (Some so)).
      { apply (find_designated_output_lists shell a Hok Hne). by exists pre, post. }
      by rewrite Hfd.
    + by rewrite (Hlater d _ Hu Hn Hro).
    + by rewrite (Hlater d _ Hu Hn Hro), Hf.
    + by rewrite (Hlater d _ Hu Hn Hro), Hf, Hd.
    + by rewrite (Hlater d _ Hu Hn Hro), Hf, Hd.
Qed.

Lemma find_best_output_priority_witness :
  best_output Demo.unplaced_state 1 (Some 2) ∧
  ¬ best_output Demo.unplaced_state 1 (Some 1).
Proof.
  assert (Hok : affinity_lists_ok Demo.unplaced_state).
  { repeat constructor. simpl. by apply c_string_of_ascii. }
  assert (Hid : ∀ d, unbound_window Demo.unplaced_state 1 d →
                     ds_app_id d ≠ Some []).
  { intros d (r & ds & Hr & _ & Hds & Hd).
    vm_compute in Hr. injection Hr as <-. simpl in Hds. injection Hds as <-.
    vm_compute in Hd. injection Hd as <-. discriminate. }
  split.
  - apply (find_best_output_priority Demo.unplaced_state 1 (Some 2) Hok Hid).
    vm_compute. reflexivity.
  - intros H.
    apply (find_best_output_priority Demo.unplaced_state 1 (Some 1) Hok Hid) in H.
    vm_compute in H. discriminate H.
Defined.

(** C1.  A window on which the client has set the empty application
    identifier, with no bound output, where the second registered output has
    the affinity list "vlc,kiosk-app" and the default output is the first.
    No affinity list contains the empty identifier, the window is its own
    root and no output is focused, so the fifth rule of the policy gives the
    default output.  [kiosk_shell_surface_find_best_output] passes the
    identifier to [kiosk_shell_output_has_app_id], whose pointer leaves the
    list: it has no result. *)
Theorem find_best_output_empty_identifier :
  (∃ d, unbound_window Demo.empty_id_state 4 d ∧ ds_app_id d = Some []) ∧
  affinity_lists_ok Demo.empty_id_state ∧
  best_output Demo.empty_id_state 4 (Some 1) ∧
  kiosk_shell_surface_find_best_output Demo.empty_id_state 4 = None.
Proof.
  pose (d := default (Demo.fresh_desktop_surface None 0)
               (desktop_surfaces Demo.empty_id_state !! 13)).
  pose (r := default (created_surface 13 23)
               (surfaces Demo.empty_id_state !! 4)).
  assert (Hu : unbound_window Demo.empty_id_state 4 d).
  { exists r, 13. split_and!; by vm_compute. }
  assert (Hn : no_designated_output Demo.empty_id_state (ds_app_id d)).
  { change (ds_app_id d) with (Some (@nil ascii)). simpl.
    repeat constructor.
    - by intros (ids & ? & _).
    - intros (ids & [= <-] & Ht).
      apply complete_token_is_token in Ht; [|apply not_elem_of_nil].
      vm_compute in Ht.
      repeat (apply elem_of_cons in Ht as [Ht | Ht]; [discriminate Ht|]).
      by apply elem_of_nil in Ht. }
  split_and!.
  - by exists d.
  - repeat constructor. simpl. by apply c_string_of_ascii.
  - apply (best_default _ _ d); try done.
    exists 4, r. split_and!; try by vm_compute.
    exists 0. by apply (parent_chain_root _ _ r).
  - by vm_compute.
Qed.

(** ** Placement calls in closed form *)

Lemma update_shsurf_Some w f st st' :
  update_shsurf w f st = Some st' ↔
  ∃ r, surfaces st !! w = Some r ∧
       st' = with_surfaces (<[w := f r]> (surfaces st)) st.
Proof.
  unfold update_shsurf. destruct (surfaces st !! w) as [r|]; simpl.
  - split; [intros [= <-]; eauto | intros (? & [= <-] & ->); done].
  - split; [done | intros (? & ? & _); done].
Qed.

Lemma desktop_command_Some ds f c st st' :
  desktop_command ds f c st = Some st' ↔
  ∃ d, desktop_surfaces st !! ds = Some d ∧
       st' = log c (with_desktop_surfaces (<[ds := f d]> (desktop_surfaces st)) st).
Proof.
  unfold desktop_command. destruct (desktop_surfaces st !! ds) as [d|]; simpl.
  - split; [intros [= <-]; eauto | intros (? & [= <-] & ->); done].
  - split; [done | intros (? & ? & _); done].
Qed.

Lemma with_surfaces_twice x y st :
  with_surfaces x (with_surfaces y st) = with_surfaces x st.
Proof. done. Qed.

Lemma set_output_closed st w o :
  kiosk_shell_surface_set_output st w o =
  r ← surfaces st !! w;
  if decide (live_output st o)
  then Some (with_surfaces (<[w := bound_to o r]> (surfaces st)) st)
  else None.
Proof.
  unfold kiosk_shell_surface_set_output, update_shsurf.
  destruct (surfaces st !! w) as [r|] eqn:Hr; simpl; [|done].
  rewrite lookup_insert_eq. simpl.
  destruct r as [ds v o0 l sig pl p fc]. simpl.
  destruct l; simpl; rewrite ?lookup_insert_eq; simpl;
    (destruct o as [o1|]; simpl;
     [destruct (outputs st !! o1) as [out|] eqn:Ho; simpl|]);
    rewrite ?lookup_insert_eq; simpl;
    rewrite ?with_surfaces_twice, ?insert_insert_eq;
    unfold bound_to; simpl; done.
Qed.

Lemma set_output_Some st w o st' :
  kiosk_shell_surface_set_output st w o = Some st' ↔
  ∃ r, surfaces st !! w = Some r ∧ live_output st o ∧
       st' = with_surfaces (<[w := bound_to o r]> (surfaces st)) st.
Proof.
  rewrite set_output_closed.
  destruct (surfaces st !! w) as [r|]; simpl.
  - case_decide.
    + split; [intros [= <-]; eauto | intros (? & [= <-] & _ & ->); done].
    + split; [done | intros (? & _ & ? & _); done].
  - split; [done | intros (? & ? & _); done].
Qed.

Lemma set_fullscreen_closed st w output :
  kiosk_shell_surface_set_fullscreen st w output =
  chosen ← chosen_output st w output;
  r ← surfaces st !! w;
  if decide (live_output st chosen) then
    ds ← shsurf_desktop_surface r;
    d ← desktop_surfaces st !! ds;
    Some (placed st (<[w := bound_to chosen r]> (surfaces st)) ds
            (size_of_output st chosen (with_ds_fullscreen true d))
            (SetFullscreen ds true :: size_command st ds chosen))
  else None.
Proof.
  unfold kiosk_shell_surface_set_fullscreen. fold (chosen_output st w output).
  destruct (chosen_output st w output) as [chosen|]; simpl; [|done].
  rewrite set_output_closed.
  destruct (surfaces st !! w) as [r|] eqn:Hr; simpl; [|done].
  case_decide as Hlive; simpl; [|done].
  rewrite lookup_insert_eq. simpl.
  destruct (shsurf_desktop_surface r) as [ds|] eqn:Hds; simpl; [|done].
  unfold weston_desktop_surface_set_fullscreen, desktop_command. simpl.
  destruct (desktop_surfaces st !! ds) as [d|] eqn:Hd; simpl; [|done].
  unfold set_size_of_output. simpl. rewrite lookup_insert_eq. simpl.
  unfold size_of_output, size_command.
  destruct chosen as [o|]; simpl.
  - destruct Hlive as [out Hout]. rewrite Hout. simpl.
    unfold weston_desktop_surface_set_size, desktop_command. simpl.
    rewrite lookup_insert_eq. simpl. unfold placed, log. simpl.
    rewrite insert_insert_eq, <- app_assoc. done.
  - done.
Qed.

Lemma set_maximized_closed st w :
  kiosk_shell_surface_set_maximized st w =
  chosen ← kiosk_shell_surface_find_best_output st w;
  r ← surfaces st !! w;
  if decide (live_output st chosen) then
    ds ← shsurf_desktop_surface r;
    d ← desktop_surfaces st !! ds;
    Some (placed st (<[w := bound_to chosen r]> (surfaces st)) ds
            (size_of_output st chosen (with_ds_maximized true d))
            (SetMaximized ds true :: size_command st ds chosen))
  else None.
Proof.
  unfold kiosk_shell_surface_set_maximized.
  destruct (kiosk_shell_surface_find_best_output st w) as [chosen|]; simpl; [|done].
  rewrite set_output_closed.
  destruct (surfaces st !! w) as [r|] eqn:Hr; simpl; [|done].
  case_decide as Hlive; simpl; [|done].
  rewrite lookup_insert_eq. simpl.
  destruct (shsurf_desktop_surface r) as [ds|] eqn:Hds; simpl; [|done].
  unfold weston_desktop_surface_set_maximized, desktop_command. simpl.
  destruct (desktop_surfaces st !! ds) as [d|] eqn:Hd; simpl; [|done].
  unfold set_size_of_output. simpl. rewrite lookup_insert_eq. simpl.
  unfold size_of_output, size_command.
  destruct chosen as [o|]; simpl.
  - destruct Hlive as [out Hout]. rewrite Hout. simpl.
    unfold weston_desktop_surface_set_size, desktop_command. simpl.
    rewrite lookup_insert_eq. simpl. unfold placed, log. simpl.
    rewrite insert_insert_eq, <- app_assoc. done.
  - done.
Qed.

Lemma set_normal_closed st w :
  kiosk_shell_surface_set_normal st w =
  r ← surfaces st !! w;
  heap ← (if shsurf_output r is None
          then chosen ← kiosk_shell_surface_find_best_output st w;
               if decide (live_output st chosen)
               then Some (<[w := bound_to chosen r]> (surfaces st))
               else None
          else Some (surfaces st));
  ds ← shsurf_desktop_surface r;
  d ← desktop_surfaces st !! ds;
  Some (placed st heap ds (normal_flags d) (normal_commands ds)).
Proof.
  unfold kiosk_shell_surface_set_normal.
  destruct (surfaces st !! w) as [r|] eqn:Hr; simpl; [|done].
  destruct (shsurf_output r) as [o|] eqn:Ho; simpl.
  - rewrite Hr. simpl.
    destruct (shsurf_desktop_surface r) as [ds|]; simpl; [|done].
    unfold weston_desktop_surface_set_fullscreen,
      weston_desktop_surface_set_maximized, weston_desktop_surface_set_size,
      desktop_command. simpl.
    destruct (desktop_surfaces st !! ds) as [d|]; simpl; [|done].
    rewrite lookup_insert_eq. simpl. rewrite lookup_insert_eq. simpl.
    unfold placed, log, normal_flags, normal_commands. simpl.
    rewrite !insert_insert_eq, <- !app_assoc. done.
  - destruct (kiosk_shell_surface_find_best_output st w) as [chosen|]; simpl; [|done].
    rewrite set_output_closed, Hr. simpl.
    case_decide as Hlive; simpl; [|done].
    rewrite lookup_insert_eq. simpl.
    destruct (shsurf_desktop_surface r) as [ds|]; simpl; [|done].
    unfold weston_desktop_surface_set_fullscreen,
      weston_desktop_surface_set_maximized, weston_desktop_surface_set_size,
      desktop_command. simpl.
    destruct (desktop_surfaces st !! ds) as [d|]; simpl; [|done].
    rewrite lookup_insert_eq. simpl. rewrite lookup_insert_eq. simpl.
    unfold placed, log, normal_flags, normal_commands. simpl.
    rewrite !insert_insert_eq, <- !app_assoc. done.
Qed.

(** ** What the best-output policy depends on *)

Lemma parent_chain_frame (heap heap' : gmap nat kiosk_shell_surface) w n root :
  (∀ x, shsurf_parent <$> heap' !! x = shsurf_parent <$> heap !! x) →
  parent_chain heap w n root → parent_chain heap' w n root.
Proof.
  intros Hp H. induction H as [w r Hw Hr | w r p n root Hw Hr _ IH].
  - specialize (Hp w). rewrite Hw in Hp. simpl in Hp.
    destruct (heap' !! w) as [r'|] eqn:Hw'; simplify_eq/=.
    eapply parent_chain_root; [done | congruence].
  - specialize (Hp w). rewrite Hw in Hp. simpl in Hp.
    destruct (heap' !! w) as [r'|] eqn:Hw'; simplify_eq/=.
    apply (parent_chain_step heap' w r' p n root); [done | congruence | done].
Qed.

Lemma get_parent_root_frame st st' w :
  (∀ x, shsurf_parent <$> surfaces st' !! x = shsurf_parent <$> surfaces st !! x) →
  kiosk_shell_surface_get_parent_root st' w =
  kiosk_shell_surface_get_parent_root st w.
Proof.
  intros Hp. apply option_eq. intros root.
  rewrite !get_parent_root_spec. unfold root_ancestor.
  split; intros [n H]; exists n; (eapply parent_chain_frame; [|done]); [|done].
  intros x. by rewrite Hp.
Qed.

Lemma find_best_output_frame st st' w :
  same_policy_inputs st st' →
  kiosk_shell_surface_find_best_output st' w =
  kiosk_shell_surface_find_best_output st w.
Proof.
  intros (Ho & Hds & Hp & Ha & Hl & Hf & Hd).
  unfold kiosk_shell_surface_find_best_output.
  rewrite (get_parent_root_frame st st') by done. rewrite Hl, Hf, Hd.
  specialize (Ho w) as How. specialize (Hds w) as Hdsw.
  destruct (surfaces st !! w) as [r|], (surfaces st' !! w) as [r'|];
    simplify_eq/=; [|done].
  rewrite How, Hdsw.
  destruct (shsurf_output r); [done|].
  destruct (shsurf_desktop_surface r) as [ds|]; simpl; [|done].
  specialize (Ha ds).
  destruct (desktop_surfaces st !! ds) as [d|], (desktop_surfaces st' !! ds) as [d'|];
    simplify_eq/=; [|done].
  rewrite Ha.
  destruct (match ds_app_id d with
            | Some app_id => find_designated_output (output_list st) app_id
            | None => Some None
            end) as [[so|]|]; simpl; [done| |done].
  destruct (kiosk_shell_surface_get_parent_root st w) as [root|]; simpl; [|done].
  specialize (Ho root).
  destruct (surfaces st !! root) as [rr|], (surfaces st' !! root) as [rr'|];
    simplify_eq/=; [|done].
  by rewrite Ho.
Qed.

Lemma set_fullscreen_Some st w output st' :
  kiosk_shell_surface_set_fullscreen st w output = Some st' ↔
  ∃ chosen r ds d,
    chosen_output st w output = Some chosen ∧ live_output st chosen ∧
    surfaces st !! w = Some r ∧ shsurf_desktop_surface r = Some ds ∧
    desktop_surfaces st !! ds = Some d ∧
    st' = placed st (<[w := bound_to chosen r]> (surfaces st)) ds
            (size_of_output st chosen (with_ds_fullscreen true d))
            (SetFullscreen ds true :: size_command st ds chosen).
Proof.
  rewrite set_fullscreen_closed. split.
  - intros H. simplify_option_eq. naive_solver.
  - intros (chosen & r & ds & d & -> & Hl & -> & Hds & Hd & ->). simpl.
    rewrite decide_True by done. rewrite Hds. simpl. by rewrite Hd.
Qed.

Lemma set_maximized_Some st w st' :
  kiosk_shell_surface_set_maximized st w = Some st' ↔
  ∃ chosen r ds d,
    kiosk_shell_surface_find_best_output st w = Some chosen ∧
    live_output st chosen ∧
    surfaces st !! w = Some r ∧ shsurf_desktop_surface r = Some ds ∧
    desktop_surfaces st !! ds = Some d ∧
    st' = placed st (<[w := bound_to chosen r]> (surfaces st)) ds
            (size_of_output st chosen (with_ds_maximized true d))
            (SetMaximized ds true :: size_command st ds chosen).
Proof.
  rewrite set_maximized_closed. split.
  - intros H. simplify_option_eq. naive_solver.
  - intros (chosen & r & ds & d & -> & Hl & -> & Hds & Hd & ->). simpl.
    rewrite decide_True by done. rewrite Hds. simpl. by rewrite Hd.
Qed.

Lemma set_normal_Some st w st' :
  kiosk_shell_surface_set_normal st w = Some st' ↔
  ∃ r ds d heap,
    surfaces st !! w = Some r ∧ shsurf_desktop_surface r = Some ds ∧
    desktop_surfaces st !! ds = Some d ∧
    normal_heap st w r heap ∧
    st' = placed st heap ds (normal_flags d) (normal_commands ds).
Proof.
  rewrite set_normal_closed. unfold normal_heap. split.
  - destruct (surfaces st !! w) as [r|] eqn:Hr; simpl; [|done].
    intros H.
    destruct (_ : option (gmap _ _)) as [heap|] eqn:Hheap in H; simpl in H; [|done].
    destruct (shsurf_desktop_surface r) as [ds|] eqn:Hds; simpl in H; [|done].
    destruct (desktop_surfaces st !! ds) as [d|] eqn:Hd; simpl in H; [|done].
    injection H as <-. exists r, ds, d, heap. split_and!; try done.
    destruct (shsurf_output r); [congruence|].
    destruct (kiosk_shell_surface_find_best_output st w) as [chosen|];
      simpl in Hheap; [|done].
    case_decide; [|done]. exists chosen. split_and!; congruence.
  - intros (r & ds & d & heap & -> & Hds & Hd & Hheap & ->). simpl.
    destruct (shsurf_output r).
    + subst heap. simpl. rewrite Hds. simpl. by rewrite Hd.
    + destruct Hheap as (chosen & -> & Hl & ->). simpl.
      rewrite decide_True by done. simpl. rewrite Hds. simpl. by rewrite Hd.
Qed.

(** ** C7: [kiosk_shell_surface_set_normal] twice *)

Lemma bound_to_idemp o r : bound_to o (bound_to o r) = bound_to o r.
Proof. done. Qed.

Lemma normal_flags_idemp d : normal_flags (normal_flags d) = normal_flags d.
Proof. done. Qed.

Lemma placed_again st heap ds d cmds cmds' :
  placed (placed st heap ds d cmds) heap ds d cmds' =
  with_journal (journal (placed st heap ds d cmds) ++ cmds')
    (placed st heap ds d cmds).
Proof. unfold placed. simpl. by rewrite insert_insert_eq. Qed.

Lemma same_policy_inputs_placed st w r r' ds d d' cmds :
  surfaces st !! w = Some r → desktop_surfaces st !! ds = Some d →
  shsurf_output r' = shsurf_output r →
  shsurf_desktop_surface r' = shsurf_desktop_surface r →
  shsurf_parent r' = shsurf_parent r →
  ds_app_id d' = ds_app_id d →
  same_policy_inputs st (placed st (<[w := r']> (surfaces st)) ds d' cmds).
Proof.
  intros Hr Hd Ho Hds Hp Ha. unfold same_policy_inputs, placed. simpl.
  split_and!; try done; intros x.
  - destruct (decide (x = w)) as [->|];
      [rewrite lookup_insert_eq, Hr; simpl; by f_equal
      |by rewrite lookup_insert_ne].
  - destruct (decide (x = w)) as [->|];
      [rewrite lookup_insert_eq, Hr; simpl; by f_equal
      |by rewrite lookup_insert_ne].
  - destruct (decide (x = w)) as [->|];
      [rewrite lookup_insert_eq, Hr; simpl; by f_equal
      |by rewrite lookup_insert_ne].
  - destruct (decide (x = ds)) as [->|];
      [rewrite lookup_insert_eq, Hd; simpl; by f_equal
      |by rewrite lookup_insert_ne].
Qed.

(** C7. A second [kiosk_shell_surface_set_normal] in a row returns, and
    leaves the state the first one produced: the same bound output, the
    same flags and size of the desktop surface, every other field the same;
    it issues the same three commands as the first. *)
Theorem set_normal_idempotent st w st1 :
  kiosk_shell_surface_set_normal st w = Some st1 →
  ∃ ds st2,
    journal st1 = journal st ++ normal_commands ds ∧
    kiosk_shell_surface_set_normal st1 w = Some st2 ∧
    st2 = with_journal (journal st1 ++ normal_commands ds) st1.
Proof.
  intros (r & ds & d & heap & Hr & Hds & Hd & Hheap & ->)%set_normal_Some.
  exists ds. eexists. split; [done|]. split; [|done].
  apply set_normal_Some. unfold normal_heap in Hheap.
  assert (Hd1 : desktop_surfaces (placed st heap ds (normal_flags d)
                                    (normal_commands ds)) !! ds
                = Some (normal_flags d)) by apply lookup_insert_eq.
  destruct (shsurf_output r) as [o|] eqn:Ho;
    [subst heap | destruct Hheap as ([o|] & Hbest & Hlive & ->)].
  - exists r, ds, (normal_flags d), (surfaces st).
    split_and!; try done; [|by rewrite placed_again].
    unfold normal_heap. by rewrite Ho.
  - exists (bound_to (Some o) r), ds, (normal_flags d),
      (<[w := bound_to (Some o) r]> (surfaces st)).
    split_and!; try done; [apply lookup_insert_eq|by rewrite placed_again].
  - exists (bound_to None r), ds, (normal_flags d),
      (<[w := bound_to None r]> (surfaces st)).
    split_and!; try done; [apply lookup_insert_eq| |by rewrite placed_again].
    exists None. split_and!; [|done|by simpl; rewrite insert_insert_eq].
    rewrite <- Hbest. apply find_best_output_frame.
    by eapply same_policy_inputs_placed.
Qed.

Lemma set_normal_idempotent_witness :
  ∃ st1, kiosk_shell_surface_set_normal Demo.family_state 2 = Some st1 ∧
    ∃ ds st2,
      journal st1 = journal Demo.family_state ++ normal_commands ds ∧
      kiosk_shell_surface_set_normal st1 2 = Some st2 ∧
      st2 = with_journal (journal st1 ++ normal_commands ds) st1.
Proof.
  eexists. split; [vm_compute; reflexivity|].
  apply (set_normal_idempotent Demo.family_state 2). vm_compute. reflexivity.
Defined.

(** ** C4: requests of a window that has a parent *)

Lemma placement_normal_flags d : placement_of (normal_flags d) = Normal.
Proof. done. Qed.

Lemma placement_fullscreen st o d :
  placement_of (size_of_output st o (with_ds_fullscreen true d)) = Fullscreen.
Proof. unfold size_of_output. by destruct (o ≫= _). Qed.

Lemma maximized_size_of_output st o d :
  ds_maximized (size_of_output st o (with_ds_maximized true d)) = true ∧
  ds_fullscreen (size_of_output st o (with_ds_maximized true d)) = ds_fullscreen d.
Proof. unfold size_of_output. by destruct (o ≫= _). Qed.

Lemma placed_desktop st heap ds d cmds :
  desktop_surfaces (placed st heap ds d cmds) !! ds = Some d.
Proof. apply lookup_insert_eq. Qed.

(** C4, as the code has it.  For a window with a parent, a fullscreen or
    maximize request with argument false puts the window in the normal
    state; a fullscreen request with argument true is granted: the window
    is bound to the output supplied with the request or, without one, to
    the output of the best-output policy, and is made fullscreen with the
    size of that output; a maximize request with argument true is granted,
    the fullscreen flag staying as it was.  Each request returns whenever
    the output to bind is found and live. *)
Theorem child_requests st ds w r d :
  weston_desktop_surface_get_user_data st ds = Some w →
  surfaces st !! w = Some r → shsurf_parent r ≠ None →
  shsurf_desktop_surface r = Some ds → desktop_surfaces st !! ds = Some d →
  (∀ output heap,
     normal_heap st w r heap →
     ∃ st', desktop_surface_fullscreen_requested st ds false output = Some st' ∧
            desktop_surface_maximized_requested st ds false = Some st' ∧
            st' = placed st heap ds (normal_flags d) (normal_commands ds) ∧
            placement_of <$> desktop_surfaces st' !! ds = Some Normal) ∧
  (∀ output chosen,
     chosen_output st w output = Some chosen → live_output st chosen →
     ∃ st' d', desktop_surface_fullscreen_requested st ds true output = Some st' ∧
               desktop_surfaces st' !! ds = Some d' ∧
               placement_of d' = Fullscreen ∧
               surfaces st' !! w = Some (bound_to chosen r) ∧
               shsurf_output <$> surfaces st' !! w = Some chosen ∧
               d' = size_of_output st chosen (with_ds_fullscreen true d) ∧
               journal st' =
                 journal st ++ SetFullscreen ds true :: size_command st ds chosen) ∧
  (∀ chosen,
     kiosk_shell_surface_find_best_output st w = Some chosen →
     live_output st chosen →
     ∃ st' d', desktop_surface_maximized_requested st ds true = Some st' ∧
               desktop_surfaces st' !! ds = Some d' ∧
               ds_maximized d' = true ∧ ds_fullscreen d' = ds_fullscreen d).
Proof.
  intros Hu Hr Hp Hds Hd.
  unfold desktop_surface_fullscreen_requested, desktop_surface_maximized_requested.
  rewrite Hu. simpl. rewrite Hr. simpl.
  rewrite bool_decide_eq_false_2 by done. simpl.
  split_and!.
  - intros _ heap Hheap. eexists. split_and!; [| |done|].
    + apply set_normal_Some. by exists r, ds, d, heap.
    + apply set_normal_Some. by exists r, ds, d, heap.
    + by rewrite placed_desktop.
  - intros output chosen Hc Hl. eexists _, _. split_and!.
    + apply set_fullscreen_Some. by exists chosen, r, ds, d.
    + apply placed_desktop.
    + apply placement_fullscreen.
    + apply lookup_insert_eq.
    + simpl. by rewrite lookup_insert_eq.
    + done.
    + done.
  - intros chosen Hc Hl. eexists _, _. split.
    + apply set_maximized_Some. by exists chosen, r, ds, d.
    + split; [apply placed_desktop | apply maximized_size_of_output].
Qed.

Lemma child_requests_witness :
  (∃ st', desktop_surface_fullscreen_requested Demo.family_state 11 false None
            = Some st' ∧
          desktop_surface_maximized_requested Demo.family_state 11 false = Some st' ∧
          placement_of <$> desktop_surfaces st' !! 11 = Some Normal) ∧
  (∃ st', desktop_surface_fullscreen_requested Demo.family_state 11 true (Some 1)
            = Some st' ∧
          placement_of <$> desktop_surfaces st' !! 11 = Some Fullscreen ∧
          shsurf_output <$> surfaces st' !! 2 = Some (Some 1) ∧
          ds_size <$> desktop_surfaces st' !! 11 = Some (1920%Z, 1080%Z)).
Proof.
  edestruct (child_requests Demo.family_state 11 2) as (Hnormal & Hfull & _);
    [vm_compute; reflexivity | vm_compute; reflexivity | discriminate
    | reflexivity | vm_compute; reflexivity |].
  split.
  - destruct (Hnormal None (surfaces Demo.family_state) eq_refl)
      as (st' & H1 & H2 & _ & H3).
    by exists st'.
  - destruct (Hfull (Some 1) (Some 1) eq_refl) as
      (st' & d' & H1 & H2 & H3 & _ & H4 & H5 & _);
      [refine (bool_decide_unpack _ _); vm_compute; exact I|].
    exists st'. split; [exact H1|]. rewrite H2. simpl. rewrite H3, H5.
    split; [done|]. split; [exact H4|]. by vm_compute.
Defined.

(** The window 2 of the session has the parent 1, and its fullscreen request
    with argument true ends in the fullscreen placement, its maximize
    request with argument true in the maximized one. *)
Lemma child_request_not_coerced :
  shsurf_parent <$> surfaces Demo.family_state !! 2 = Some (Some 1) ∧
  weston_desktop_surface_get_user_data Demo.family_state 11 = Some 2 ∧
  ¬ coerced_to_normal Demo.family_state 11 true None ∧
  (st' ← desktop_surface_fullscreen_requested Demo.family_state 11 true None;
   placement_of <$> desktop_surfaces st' !! 11) = Some Fullscreen ∧
  (st' ← desktop_surface_maximized_requested Demo.family_state 11 true;
   placement_of <$> desktop_surfaces st' !! 11) = Some Maximized.
Proof.
  split_and!; [by vm_compute | by vm_compute | | by vm_compute | by vm_compute].
  intros [Hf _].
  destruct (desktop_surface_fullscreen_requested Demo.family_state 11 true None)
    as [st'|] eqn:E; [|by vm_compute in E].
  specialize (Hf st' eq_refl). vm_compute in E. injection E as <-.
  by vm_compute in Hf.
Qed.

(** ** C9: the focus successor *)

Section focus_successor_facts.
Variables (shell : kiosk_shell) (parent_root : shsurf_ptr) (own_view : view_ptr).

Let E := λ view, is_Some (eligible shell own_view view).
Let P := λ view, eligible_root shell own_view view = Some parent_root.

Lemma find_focus_successor_loop_spec l top_view :
  (∀ view, view ∈ l → is_Some (views shell !! view)) →
  (∀ view, view ∈ l → is_Some (eligible shell own_view view) →
           is_Some (eligible_root shell own_view view)) →
  find_focus_successor_loop shell parent_root own_view l top_view =
  Some match list_find P (filter E l) with
       | Some (_, view) => Some view
       | None => match top_view with
                 | Some t => Some t
                 | None => head (filter E l)
                 end
       end.
Proof.
  revert top_view. induction l as [|view l IH]; intros top_view Hlive Hroot.
  { simpl. by destruct top_view. }
  assert (Hlive' : ∀ v, v ∈ l → is_Some (views shell !! v))
    by (intros; apply Hlive; by right).
  assert (Hroot' : ∀ v, v ∈ l → is_Some (eligible shell own_view v) →
                        is_Some (eligible_root shell own_view v))
    by (intros; apply Hroot; [by right | done]).
  destruct (Hlive view) as [v Hv]; [by left|].
  specialize (Hroot view ltac:(by left)).
  simpl. rewrite Hv. simpl. rewrite filter_cons.
  destruct (decide (E view)) as [[ws Hel]|HE].
  - specialize (Hroot ltac:(eauto)). destruct Hroot as [root Hr].
    unfold eligible_root in Hr. rewrite Hel in Hr. simpl in Hr.
    assert (HP : P view ↔ root = parent_root).
    { unfold P, eligible_root. rewrite Hel. simpl. rewrite Hr.
      split; congruence. }
    unfold eligible in Hel. rewrite Hv in Hel. simpl in Hel.
    destruct (view_is_mapped v); [|done].
    destruct (decide (view = own_view)); [done|].
    simpl. rewrite bool_decide_eq_false_2 by done. rewrite Hel, Hr. simpl.
    case_bool_decide as Hsame.
    + rewrite decide_True by (by apply HP). done.
    + rewrite decide_False by (by rewrite HP). rewrite IH by done.
      f_equal. destruct (list_find P (filter E l)) as [[i x]|]; simpl; [done|].
      by destruct top_view.
  - assert (Hel : eligible shell own_view view = None)
      by (by apply eq_None_not_Some).
    unfold eligible in Hel. rewrite Hv in Hel. simpl in Hel.
    destruct (view_is_mapped v); simpl; [|by apply IH].
    destruct (decide (view = own_view)).
    + rewrite bool_decide_eq_true_2 by done. by apply IH.
    + rewrite bool_decide_eq_false_2 by done. rewrite Hel. by apply IH.
Qed.
End focus_successor_facts.

(** C9. For a removed window with a root ancestor, and a layer of live
    views whose eligible windows have root ancestors, [find_focus_successor]
    returns the first view, in list order, that is mapped, is not the
    removed window's own view, has a side record and has the root ancestor
    of the removed window; when there is none it returns the first view
    that is mapped, not the own view and has a side record; it returns none
    exactly when no view of the list is eligible. *)
Theorem find_focus_successor_spec shell layer shsurf r parent_root :
  surfaces shell !! shsurf = Some r →
  root_ancestor shell shsurf parent_root →
  (∀ view, view ∈ layer → is_Some (views shell !! view)) →
  (∀ view, view ∈ layer →
           is_Some (eligible shell (shsurf_view r) view) →
           is_Some (eligible_root shell (shsurf_view r) view)) →
  find_focus_successor shell layer shsurf =
    Some (focus_successor shell layer (shsurf_view r) parent_root) ∧
  (focus_successor shell layer (shsurf_view r) parent_root = None ↔
   ∀ view, view ∈ layer → eligible shell (shsurf_view r) view = None).
Proof.
  intros Hr Hroot%get_parent_root_spec Hlive Hroots. split.
  - unfold find_focus_successor. rewrite Hroot. simpl. rewrite Hr. simpl.
    rewrite find_focus_successor_loop_spec by done. done.
  - unfold focus_successor.
    destruct (list_find _ _) as [[i view]|] eqn:Hfind.
    + split; [done|]. intros Hnone.
      apply list_find_Some in Hfind as (Hin%list_elem_of_lookup_2 & _).
      apply list_elem_of_filter in Hin as [[ws Hel] Hin].
      rewrite (Hnone view Hin) in Hel. done.
    + rewrite head_None. split.
      * intros Hnil view Hin. apply eq_None_not_Some. intros Hel.
        assert (Hf : view ∈ filter
                       (λ view, is_Some (eligible shell (shsurf_view r) view))
                       layer) by (by apply list_elem_of_filter).
        rewrite Hnil in Hf. by apply elem_of_nil in Hf.
      * intros Hnone.
        destruct (filter _ layer) as [|view rest] eqn:Hf; [done|].
        assert (Hin : view ∈ filter
                        (λ view, is_Some (eligible shell (shsurf_view r) view))
                        layer) by (rewrite Hf; by left).
        apply list_elem_of_filter in Hin as [[ws Hel] Hin].
        rewrite (Hnone view Hin) in Hel. done.
Qed.

Lemma find_focus_successor_spec_witness :
  find_focus_successor Demo.mapped_state [22; 21; 20] 2 = Some (Some 20) ∧
  focus_successor Demo.mapped_state [22; 21; 20] 21 1 ≠ None.
Proof.
  edestruct (find_focus_successor_spec Demo.mapped_state [22; 21; 20] 2) as [H _].
  - vm_compute; reflexivity.
  - apply get_parent_root_spec. instantiate (1 := 1). vm_compute; reflexivity.
  - intros view Hin.
    repeat (apply elem_of_cons in Hin as [-> | Hin]);
      [eexists; vm_compute; reflexivity.. | by apply elem_of_nil in Hin].
  - intros view Hin Hel.
    repeat (apply elem_of_cons in Hin as [-> | Hin]);
      [eexists; vm_compute; reflexivity
      |destruct Hel as [ws Hel]; vm_compute in Hel; discriminate Hel
      |eexists; vm_compute; reflexivity
      |by apply elem_of_nil in Hin].
  - split; [rewrite H; vm_compute; reflexivity | vm_compute; discriminate].
Defined.

(** ** C10: a surface is added *)

Lemma with_journal_id st : with_journal (journal st) st = st.
Proof. by destruct st. Qed.

Lemma activate_on_all_seats_journal view st :
  activate_on_all_seats view st =
  with_journal (journal st ++ map (λ seat, ViewActivate view seat 0) (seat_list st)) st.
Proof.
  unfold activate_on_all_seats.
  generalize (seat_list st) as l. intros l. revert st.
  induction l as [|seat l IH]; intros st; simpl.
  - by rewrite app_nil_r, with_journal_id.
  - rewrite IH. unfold weston_view_activate, log. simpl.
    by rewrite <- app_assoc.
Qed.




(** ** C5 and C6: keyboard focus *)

(** Counting the entries of a map that satisfy a predicate, across an
    update of one entry. *)
Lemma size_filter_insert {A} (P : nat * A → Prop) `{∀ x, Decision (P x)}
    (m : gmap nat A) i x y :
  m !! i = Some y →
  Z.of_nat (size (filter P (<[i := x]> m))) =
  (Z.of_nat (size (filter P m)) - indicator (P (i, y)) + indicator (P (i, x)))%Z.
Proof.
  intros Hi. unfold indicator.
  assert (Hy : filter P m !! i = if decide (P (i, y)) then Some y else None).
  { case_decide.
    - by apply map_lookup_filter_Some.
    - apply map_lookup_filter_None. right. intros y' Hy'. congruence. }
  destruct (decide (P (i, x))) as [Hx|Hx].
  - rewrite map_filter_insert_True by done. rewrite map_size_insert, Hy.
    case_decide; simpl; lia.
  - rewrite map_filter_insert_False by done.
    rewrite map_filter_delete, map_size_delete, Hy.
    case_decide; simpl; [|lia].
    assert (size (filter P m) ≠ 0)
      by (eapply map_size_ne_0_lookup_2; rewrite Hy; eauto).
    lia.
Qed.

Lemma get_kiosk_shell_surface_frame st st1 s :
  surface_desktop st1 = surface_desktop st →
  (∀ ds, ds_user_data <$> desktop_surfaces st1 !! ds =
         ds_user_data <$> desktop_surfaces st !! ds) →
  get_kiosk_shell_surface st1 s = get_kiosk_shell_surface st s.
Proof.
  intros Hsd Hud. unfold get_kiosk_shell_surface. rewrite Hsd.
  destruct (surface_desktop st !! s) as [ds|]; simpl; [|done].
  unfold weston_desktop_surface_get_user_data. specialize (Hud ds).
  destruct (desktop_surfaces st1 !! ds), (desktop_surfaces st !! ds);
    simplify_eq/=; done.
Qed.

Lemma focus_leave_None st old :
  resolve st old = None → focus_leave st old = Some st.
Proof.
  unfold resolve, focus_leave. destruct old as [s|]; simpl; [|done].
  by intros ->.
Qed.

Lemma focus_enter_None st new :
  resolve st new = None → focus_enter st new = Some st.
Proof.
  unfold resolve, focus_enter. destruct new as [s|]; simpl; [|done].
  by intros ->.
Qed.

Lemma focus_leave_Some st old w r ds d :
  resolve st old = Some w → surfaces st !! w = Some r →
  shsurf_desktop_surface r = Some ds → desktop_surfaces st !! ds = Some d →
  focus_leave st old =
  Some (count_moved st w r ds d (-1)
          (bool_decide (shsurf_focus_count r - 1 = 0)%Z) false).
Proof.
  unfold resolve, focus_leave. destruct old as [s|]; simpl; [|done].
  intros -> Hr Hds Hd. rewrite Hr. simpl.
  unfold update_shsurf. rewrite Hr. simpl. unfold count_moved.
  replace (shsurf_focus_count r + -1)%Z with (shsurf_focus_count r - 1)%Z by lia.
  case_bool_decide; [|done].
  rewrite Hds. simpl.
  unfold weston_desktop_surface_set_activated, desktop_command. simpl.
  by rewrite Hd.
Qed.

Lemma focus_enter_Some st new w r ds d :
  resolve st new = Some w → surfaces st !! w = Some r →
  shsurf_desktop_surface r = Some ds → desktop_surfaces st !! ds = Some d →
  focus_enter st new =
  Some (count_moved st w r ds d 1 (bool_decide (shsurf_focus_count r = 0)%Z) true).
Proof.
  unfold resolve, focus_enter. destruct new as [s|]; simpl; [|done].
  intros -> Hr Hds Hd. rewrite Hr. simpl.
  unfold update_shsurf. rewrite Hr. simpl. unfold count_moved.
  case_bool_decide; [|done].
  rewrite Hds. simpl.
  unfold weston_desktop_surface_set_activated, desktop_command. simpl.
  by rewrite Hd.
Qed.

Lemma focus_shift_refl st delta : focus_shift st st None delta.
Proof.
  unfold focus_shift. split_and!; try done. intros w.
  by destruct (surfaces st !! w).
Qed.

Lemma count_moved_shift st w r ds d delta edge activated :
  surfaces st !! w = Some r → desktop_surfaces st !! ds = Some d →
  focus_shift st (count_moved st w r ds d delta edge activated) (Some w) delta.
Proof.
  intros Hr Hd. unfold focus_shift, count_moved.
  destruct edge; simpl; split_and!; try done.
  - intros ds'. destruct (decide (ds' = ds)) as [->|].
    + by rewrite lookup_insert_eq, Hd.
    + by rewrite lookup_insert_ne.
  - intros w'. destruct (decide (w' = w)) as [->|].
    + rewrite lookup_insert_eq, Hr. simpl. by case_decide.
    + rewrite lookup_insert_ne by done.
      destruct (surfaces st !! w'); simpl; [|done].
      case_decide; [congruence | done].
  - intros w'. destruct (decide (w' = w)) as [->|].
    + rewrite lookup_insert_eq, Hr. simpl. by case_decide.
    + rewrite lookup_insert_ne by done.
      destruct (surfaces st !! w'); simpl; [|done].
      case_decide; [congruence | done].
Qed.

Lemma resolvable_get st s w :
  resolvable st → get_kiosk_shell_surface st s = Some w →
  ∃ r ds d, surfaces st !! w = Some r ∧ shsurf_desktop_surface r = Some ds ∧
            desktop_surfaces st !! ds = Some d.
Proof.
  intros Hres. unfold get_kiosk_shell_surface, weston_desktop_surface_get_user_data.
  destruct (surface_desktop st !! s) as [ds0|]; simpl; [|done].
  destruct (desktop_surfaces st !! ds0) as [d0|] eqn:Hd0; simpl; [|done].
  intros Hw. specialize (Hres ds0 d0 Hd0). simpl in Hres. rewrite Hw in Hres.
  destruct Hres as [d Hlive].
  destruct (surfaces st !! w) as [r|]; simpl in Hlive; [|done].
  destruct (shsurf_desktop_surface r) as [ds|] eqn:Hds; simpl in Hlive; [|done].
  by exists r, ds, d.
Qed.

Lemma focus_leave_shift st old :
  resolvable st →
  ∃ st1, focus_leave st old = Some st1 ∧ focus_shift st st1 (resolve st old) (-1).
Proof.
  intros Hres. destruct (resolve st old) as [w|] eqn:Hw.
  - destruct old as [s|]; [|done].
    destruct (resolvable_get st s w Hres Hw) as (r & ds & d & Hr & Hds & Hd).
    eexists. split; [by eapply focus_leave_Some|]. by apply count_moved_shift.
  - exists st. split; [by apply focus_leave_None | apply focus_shift_refl].
Qed.

Lemma focus_enter_shift st new :
  resolvable st →
  ∃ st1, focus_enter st new = Some st1 ∧ focus_shift st st1 (resolve st new) 1.
Proof.
  intros Hres. destruct (resolve st new) as [w|] eqn:Hw.
  - destruct new as [s|]; [|done].
    destruct (resolvable_get st s w Hres Hw) as (r & ds & d & Hr & Hds & Hd).
    eexists. split; [by eapply focus_enter_Some|]. by apply count_moved_shift.
  - exists st. split; [by apply focus_enter_None | apply focus_shift_refl].
Qed.

Lemma focus_shift_resolve st st1 target delta x :
  focus_shift st st1 target delta → resolve st1 x = resolve st x.
Proof.
  intros (_ & Hsd & _ & _ & Hud & _). unfold resolve.
  destruct x as [s|]; simpl; [|done]. by apply get_kiosk_shell_surface_frame.
Qed.

Lemma focus_shift_resolvable st st1 target delta :
  focus_shift st st1 target delta → resolvable st → resolvable st1.
Proof.
  intros (_ & _ & _ & _ & Hud & Hsurf) Hres ds0 d1 Hd1. simpl.
  pose proof (Hud ds0) as Hud0. rewrite Hd1 in Hud0.
  destruct (desktop_surfaces st !! ds0) as [d0|] eqn:Hd0; [|done].
  simpl in Hud0. injection Hud0 as Hud0. rewrite Hud0.
  specialize (Hres ds0 d0 Hd0). simpl in Hres.
  destruct (ds_user_data d0) as [w|]; [|done].
  unfold record_live in *. rewrite Hsurf.
  destruct (surfaces st !! w) as [r|]; simpl in *; [|done].
  assert (Hds : shsurf_desktop_surface
                   (if decide (target = Some w)
                    then with_shsurf_focus_count
                           (shsurf_focus_count r + delta)%Z r
                    else r) = shsurf_desktop_surface r) by (by case_decide).
  rewrite Hds.
  destruct (shsurf_desktop_surface r) as [ds|]; simpl in *; [|by destruct Hres].
  specialize (Hud ds). destruct Hres as [d Hd]. rewrite Hd in Hud.
  destruct (desktop_surfaces st1 !! ds); [eauto | done].
Qed.

Lemma focus_seats_frame st st' w :
  seats st' = seats st → (∀ x, resolve st' x = resolve st x) →
  focus_seats st' w = focus_seats st w.
Proof.
  intros Hseats Hres. unfold focus_seats. rewrite Hseats. f_equal.
  apply map_filter_ext. intros i x _. simpl. by rewrite Hres.
Qed.

Lemma focus_seats_insert st seat x y w :
  seats st !! seat = Some y →
  Z.of_nat (focus_seats (with_seats (<[seat := x]> (seats st)) st) w) =
  (Z.of_nat (focus_seats st w)
   - indicator (resolve st (shseat_focused_surface y) = Some w)
   + indicator (resolve st (shseat_focused_surface x) = Some w))%Z.
Proof.
  intros Hy. unfold focus_seats.
  exact (size_filter_insert
           (λ kv : seat_ptr * kiosk_shell_seat,
              resolve st (shseat_focused_surface kv.2) = Some w)
           (seats st) seat x y Hy).
Qed.

Lemma keyboard_focus_preserves st seat focus :
  resolvable st → focus_count_invariant st → is_Some (seats st !! seat) →
  ∃ st', kiosk_shell_seat_handle_keyboard_focus st seat focus = Some st' ∧
         resolvable st' ∧ focus_count_invariant st' ∧
         ∀ s, is_Some (seats st' !! s) ↔ is_Some (seats st !! s).
Proof.
  intros Hres Hinv [shseat Hseat].
  unfold kiosk_shell_seat_handle_keyboard_focus. rewrite Hseat. simpl.
  destruct (focus_leave_shift st (shseat_focused_surface shseat) Hres)
    as (st1 & -> & Hs1). simpl.
  pose proof (focus_shift_resolvable _ _ _ _ Hs1 Hres) as Hres1.
  set (fs := main_surface st1 <$> focus).
  set (st2 := with_seats (<[seat:={| shseat_focused_surface := fs |}]> (seats st1)) st1).
  assert (Hres2 : resolvable st2) by exact Hres1.
  destruct (focus_enter_shift st2 fs Hres2) as (st3 & -> & Hs3).
  exists st3. split; [done|].
  pose proof (focus_shift_resolvable _ _ _ _ Hs3 Hres2) as Hres3.
  assert (Hresolve1 : ∀ x, resolve st2 x = resolve st x).
  { intros x. change (resolve st2 x) with (resolve st1 x).
    apply (focus_shift_resolve _ _ _ _ x Hs1). }
  assert (Hresolve : ∀ x, resolve st3 x = resolve st x).
  { intros x. by rewrite (focus_shift_resolve _ _ _ _ x Hs3). }
  assert (Hseats : seats st3 = <[seat:={| shseat_focused_surface := fs |}]> (seats st)).
  { destruct Hs3 as (-> & _). simpl. by destruct Hs1 as (-> & _). }
  split; [done|]. split.
  - intros w r3 Hr3.
    destruct Hs3 as (_ & _ & _ & _ & _ & Hsurf3).
    destruct Hs1 as (_ & _ & _ & _ & _ & Hsurf1).
    rewrite Hsurf3 in Hr3. change (surfaces st2) with (surfaces st1) in Hr3.
    rewrite Hsurf1 in Hr3.
    destruct (surfaces st !! w) as [r|] eqn:Hr; [|done]. simpl in Hr3.
    injection Hr3 as <-. specialize (Hinv w r Hr).
    rewrite (focus_seats_frame
               (with_seats (<[seat:={| shseat_focused_surface := fs |}]> (seats st)) st)
               st3) by done.
    rewrite (focus_seats_insert st seat _ shseat) by done. simpl.
    rewrite <- Hinv.
    rewrite Hresolve1.
    unfold indicator.
    repeat case_decide; simpl; lia.
  - intros s. rewrite Hseats. destruct (decide (s = seat)) as [->|].
    + rewrite lookup_insert_eq, Hseat. split; eauto.
    + by rewrite lookup_insert_ne.
Qed.

Lemma focus_event_seats st st' e :
  (∀ s, is_Some (seats st' !! s) ↔ is_Some (seats st !! s)) →
  focus_event st e → focus_event st' e.
Proof. intros Hs. destruct e; simpl; try done. by rewrite Hs. Qed.

(** C5. From a state in which every window's focus count is the number of
    seats whose recorded focused surface resolves to it (and in which the
    side records the desktop surfaces point to are live), every finite
    sequence of keyboard-focus events, for seats that have a record, runs
    to a state in which this holds again. *)
Theorem focus_count_after_focus_events st es :
  resolvable st → focus_count_invariant st → Forall (focus_event st) es →
  ∃ st', run st es = Some st' ∧ focus_count_invariant st'.
Proof.
  intros Hres Hinv Hes. revert st Hres Hinv Hes.
  induction es as [|e es IH]; intros st Hres Hinv Hes; [by exists st|].
  apply Forall_cons in Hes as [He Hes].
  destruct e as [| | | | |seat focus| | | |]; try done. simpl in He |- *.
  destruct (keyboard_focus_preserves
              (with_keyboard_focus (<[seat:=focus]> (keyboard_focus st)) st)
              seat focus Hres Hinv He) as (st1 & -> & Hres1 & Hinv1 & Hseats).
  simpl. apply IH; [done | done |].
  eapply Forall_impl; [exact Hes|]. intros e. by apply focus_event_seats.
Qed.

Lemma focus_count_after_focus_events_witness :
  ∃ st', run Demo.mapped_state Demo.swaps = Some st' ∧ focus_count_invariant st'.
Proof.
  apply (focus_count_after_focus_events Demo.mapped_state Demo.swaps).
  - refine (bool_decide_unpack _ _). vm_compute. exact I.
  - refine (bool_decide_unpack _ _). vm_compute. exact I.
  - repeat constructor; eexists; vm_compute; reflexivity.
Defined.

(** C6, as the code has it.  On a keyboard-focus event for a seat whose
    previous focus resolves to a window, the first half of the handler
    decrements that window's focus count whatever the new focus is, and
    commands the deactivation when the count reaches zero; the second half
    then runs on the new focus.  When the new focus resolves to the same
    window, the count ends where it was, and the event issues a
    deactivation followed by an activation of that window exactly when the
    count was 1, and no command otherwise. *)
Theorem keyboard_focus_decrements st seat focus shseat w r ds d :
  seats st !! seat = Some shseat →
  resolve st (shseat_focused_surface shseat) = Some w →
  surfaces st !! w = Some r → shsurf_desktop_surface r = Some ds →
  desktop_surfaces st !! ds = Some d →
  let left :=
    count_moved st w r ds d (-1) (bool_decide (shsurf_focus_count r - 1 = 0)%Z)
      false in
  let focused := main_surface st <$> focus in
  focus_leave st (shseat_focused_surface shseat) = Some left ∧
  journal left =
    journal st ++ (if bool_decide (shsurf_focus_count r = 1%Z)
                   then [SetActivated ds false] else []) ∧
  kiosk_shell_seat_handle_keyboard_focus st seat focus =
    focus_enter
      (with_seats (<[seat := {| shseat_focused_surface := focused |}]> (seats st))
         left)
      focused ∧
  (resolve st focused = Some w →
   ∃ st', kiosk_shell_seat_handle_keyboard_focus st seat focus = Some st' ∧
          shsurf_focus_count <$> surfaces st' !! w = Some (shsurf_focus_count r) ∧
          journal st' =
            journal st ++ (if bool_decide (shsurf_focus_count r = 1%Z)
                           then [SetActivated ds false; SetActivated ds true]
                           else [])).
Proof.
  intros Hseat Hold Hr Hds Hd left focused.
  assert (Hleave : focus_leave st (shseat_focused_surface shseat) = Some left)
    by (by eapply focus_leave_Some).
  assert (Hshift : focus_shift st left (Some w) (-1))
    by (by apply count_moved_shift).
  assert (Hedge : bool_decide (shsurf_focus_count r - 1 = 0)%Z
                  = bool_decide (shsurf_focus_count r = 1%Z))
    by (apply bool_decide_ext; lia).
  assert (Hhandler :
    kiosk_shell_seat_handle_keyboard_focus st seat focus =
    focus_enter
      (with_seats (<[seat := {| shseat_focused_surface := focused |}]> (seats st))
         left) focused).
  { unfold kiosk_shell_seat_handle_keyboard_focus. rewrite Hseat. simpl.
    rewrite Hleave. simpl.
    destruct Hshift as (-> & _ & -> & _). done. }
  split_and!; [done | | done |].
  - subst left. unfold count_moved, log. rewrite Hedge.
    destruct (bool_decide (shsurf_focus_count r = 1%Z)); simpl;
      [done | by rewrite app_nil_r].
  - intros Hnew. rewrite Hhandler.
    set (r1 := with_shsurf_focus_count (shsurf_focus_count r + -1)%Z r).
    assert (Hr1 : surfaces left !! w = Some r1).
    { destruct Hshift as (_ & _ & _ & _ & _ & ->). rewrite Hr. simpl.
      by rewrite decide_True. }
    assert (Hd1 : ∃ d1, desktop_surfaces left !! ds = Some d1).
    { subst left. unfold count_moved.
      destruct (bool_decide (shsurf_focus_count r - 1 = 0)%Z); simpl; [|eauto].
      rewrite lookup_insert_eq. eauto. }
    destruct Hd1 as [d1 Hd1].
    erewrite (focus_enter_Some _ focused w r1 ds d1); [| |exact Hr1|done|exact Hd1].
    2:{ change (resolve left focused = Some w).
        by rewrite (focus_shift_resolve _ _ _ _ focused Hshift). }
    eexists. split; [done|]. split.
    + unfold count_moved at 1.
      destruct (bool_decide (shsurf_focus_count r1 = 0)%Z); simpl;
        rewrite lookup_insert_eq; simpl; f_equal; lia.
    + subst left r1. unfold count_moved, log. simpl.
      replace (bool_decide (shsurf_focus_count r + -1 = 0)%Z)
        with (bool_decide (shsurf_focus_count r = 1%Z))
        by (apply bool_decide_ext; lia).
      rewrite Hedge.
      destruct (bool_decide (shsurf_focus_count r = 1%Z)); simpl;
        [|by rewrite app_nil_r].
      by rewrite <- app_assoc.
Qed.

Lemma keyboard_focus_decrements_witness :
  ∃ st', kiosk_shell_seat_handle_keyboard_focus Demo.focused_state 1 (Some 101)
           = Some st' ∧
         shsurf_focus_count <$> surfaces st' !! 1 = Some 0%Z.
Proof.
  edestruct (keyboard_focus_decrements Demo.focused_state 1 (Some 101))
    as (_ & _ & Hhandler & _);
    [vm_compute; reflexivity.. |].
  rewrite Hhandler. vm_compute. eexists. split; reflexivity.
Defined.

(** In the session, seat 1 focuses the first window, whose count is 1; a
    focus event of seat 1 for the same surface decrements the count to 0 in
    its first half and issues a deactivation, then an activation. *)
Lemma refocus_same_window_deactivates :
  shseat_focused_surface <$> seats Demo.focused_state !! 1 = Some (Some 100) ∧
  get_kiosk_shell_surface Demo.focused_state 100 = Some 1 ∧
  main_surface Demo.focused_state 100 = 100 ∧
  shsurf_focus_count <$> surfaces Demo.focused_state !! 1 = Some 1%Z ∧
  (st1 ← focus_leave Demo.focused_state (Some 100);
   shsurf_focus_count <$> surfaces st1 !! 1) = Some 0%Z ∧
  journal <$> kiosk_shell_seat_handle_keyboard_focus Demo.focused_state 1 (Some 100)
    = Some (journal Demo.focused_state ++
            [SetActivated 10 false; SetActivated 10 true]).
Proof. by vm_compute. Qed.

(** ** C3: windows with a parent are not fullscreen *)

Lemma linked_obs st :
  linked st ↔
  ∀ x ds, dsurf_of st x = Some (Some ds) → user_data_of st ds = Some (Some x).
Proof.
  unfold linked, dsurf_of. split.
  - intros H x ds Hx.
    destruct (surfaces st !! x) as [r|] eqn:Hr; simplify_eq/=.
    specialize (H x r Hr). simpl in H. by rewrite Hx in H.
  - intros H x r Hr. destruct (shsurf_desktop_surface r) as [ds|] eqn:Hds; [|done].
    apply H. by rewrite Hr; simpl; rewrite Hds.
Qed.

Lemma placement_fullscreen_iff d : placement_of d = Fullscreen ↔ ds_fullscreen d = true.
Proof.
  unfold placement_of. destruct (ds_fullscreen d), (ds_maximized d); split; done.
Qed.

Lemma parented_not_fullscreen_obs st :
  parented_not_fullscreen st ↔
  ∀ x p ds, parent_of st x = Some (Some p) → dsurf_of st x = Some (Some ds) →
            fullscreen_of st ds ≠ Some true.
Proof.
  unfold parented_not_fullscreen, parent_of, dsurf_of, fullscreen_of, desktop_of.
  split.
  - intros H x p ds Hp Hds Hf.
    destruct (surfaces st !! x) as [r|] eqn:Hr; simplify_eq/=.
    specialize (H x r Hr). simpl in H. rewrite Hp, Hr in H. simpl in H.
    rewrite Hds in H. simpl in H.
    destruct (desktop_surfaces st !! ds) as [d|]; simplify_eq/=.
    by apply H, placement_fullscreen_iff.
  - intros H x r Hr. rewrite Hr. simpl.
    destruct (shsurf_parent r) as [p|] eqn:Hp; [|done].
    destruct (shsurf_desktop_surface r) as [ds|] eqn:Hds; simpl; [|done].
    destruct (desktop_surfaces st !! ds) as [d|] eqn:Hd; [|done].
    intros Hf%placement_fullscreen_iff.
    apply (H x p ds); rewrite ?Hr, ?Hd; simpl; congruence.
Qed.

Lemma same_shape_refl st : same_shape st st.
Proof. done. Qed.

Lemma same_shape_trans a b c : same_shape a b → same_shape b c → same_shape a c.
Proof.
  intros (H1 & H2 & H3 & H4) (G1 & G2 & G3 & G4).
  split_and!; intros; congruence.
Qed.

Lemma same_shape_acts_on w st st' : same_shape st st' → acts_on w st st'.
Proof. intros (H1 & H2 & H3 & H4). split_and!; intros; auto. Qed.

Lemma acts_on_trans w a b c : acts_on w a b → acts_on w b c → acts_on w a c.
Proof.
  intros (H1 & H2 & H3 & H4) (G1 & G2 & G3 & G4).
  split_and!; intros.
  - congruence.
  - congruence.
  - rewrite G3, H3; done.
  - rewrite G4, H4; [done..|]. by rewrite H1.
Qed.

(** An operation on [w] keeps the two invariants provided it leaves [w],
    if it has a parent afterwards, out of the fullscreen state. *)
Lemma acts_on_invariant w st st' :
  linked st → parented_not_fullscreen st → acts_on w st st' →
  (∀ p ds, parent_of st' w = Some (Some p) → dsurf_of st w = Some (Some ds) →
           fullscreen_of st' ds ≠ Some true) →
  linked st' ∧ parented_not_fullscreen st'.
Proof.
  rewrite !linked_obs, !parented_not_fullscreen_obs.
  intros Hl Hp (H1 & H2 & H3 & H4) Hw. split.
  - intros x ds Hx. rewrite H2. apply Hl. by rewrite <- H1.
  - intros x p ds Hpx Hdx. rewrite H1 in Hdx.
    destruct (decide (x = w)) as [->|Hne]; [by eapply Hw|].
    rewrite H3 in Hpx by done. rewrite H4; [by eapply Hp|].
    intros Hdw. apply Hl in Hdx, Hdw. congruence.
Qed.

Lemma same_shape_invariant st st' :
  linked st → parented_not_fullscreen st → same_shape st st' →
  linked st' ∧ parented_not_fullscreen st'.
Proof.
  rewrite !linked_obs, !parented_not_fullscreen_obs.
  intros Hl Hp (H1 & H2 & H3 & H4). split.
  - intros x ds. rewrite H1, H2. apply Hl.
  - intros x p ds. rewrite H1, H3, H4. apply Hp.
Qed.

(** A store through [x] that keeps the desktop surface of the record. *)
Lemma store_acts_on x f st :
  (∀ r, shsurf_desktop_surface (f r) = shsurf_desktop_surface r) →
  ∀ r, surfaces st !! x = Some r →
  acts_on x st (with_surfaces (<[x := f r]> (surfaces st)) st).
Proof.
  intros Hf r Hr. unfold acts_on, dsurf_of, parent_of, user_data_of, fullscreen_of.
  simpl. split_and!; try done.
  - intros y. destruct (decide (y = x)) as [->|].
    + rewrite lookup_insert_eq, Hr. simpl. by rewrite Hf.
    + by rewrite lookup_insert_ne.
  - intros y Hy. by rewrite lookup_insert_ne.
Qed.

Lemma store_same_shape x f st :
  (∀ r, shsurf_desktop_surface (f r) = shsurf_desktop_surface r) →
  (∀ r, shsurf_parent (f r) = shsurf_parent r) →
  ∀ r, surfaces st !! x = Some r →
  same_shape st (with_surfaces (<[x := f r]> (surfaces st)) st).
Proof.
  intros Hf Hp r Hr. unfold same_shape, dsurf_of, parent_of, user_data_of,
    fullscreen_of. simpl. split_and!; try done.
  - intros y. destruct (decide (y = x)) as [->|].
    + rewrite lookup_insert_eq, Hr. simpl. by rewrite Hf.
    + by rewrite lookup_insert_ne.
  - intros y. destruct (decide (y = x)) as [->|].
    + rewrite lookup_insert_eq, Hr. simpl. by rewrite Hp.
    + by rewrite lookup_insert_ne.
Qed.

Lemma update_shsurf_same_shape x f st st' :
  (∀ r, shsurf_desktop_surface (f r) = shsurf_desktop_surface r) →
  (∀ r, shsurf_parent (f r) = shsurf_parent r) →
  update_shsurf x f st = Some st' → same_shape st st'.
Proof.
  intros Hf Hp (r & Hr & ->)%update_shsurf_Some. by apply store_same_shape.
Qed.

Lemma alter_same_shape x f st :
  (∀ r, shsurf_desktop_surface (f r) = shsurf_desktop_surface r) →
  (∀ r, shsurf_parent (f r) = shsurf_parent r) →
  same_shape st (with_surfaces (alter f x (surfaces st)) st).
Proof.
  intros Hf Hp. unfold same_shape, dsurf_of, parent_of, user_data_of,
    fullscreen_of. simpl. split_and!; try done.
  - intros y. rewrite lookup_alter. case_decide; [|done]. subst.
    destruct (surfaces st !! _); simpl; [|done]. by rewrite Hf.
  - intros y. rewrite lookup_alter. case_decide; [|done]. subst.
    destruct (surfaces st !! _); simpl; [|done]. by rewrite Hp.
Qed.

Lemma unlink_same_shape st c r :
  same_shape st (unlink_parent_destroy_listener st c r).
Proof.
  unfold unlink_parent_destroy_listener.
  destruct (shsurf_parent r); [|apply same_shape_refl].
  by apply alter_same_shape.
Qed.

Lemma set_output_same_shape st w o st' :
  kiosk_shell_surface_set_output st w o = Some st' → same_shape st st'.
Proof.
  intros (r & Hr & _ & ->)%set_output_Some.
  by apply (store_same_shape w (bound_to o)).
Qed.

(** The placement calls: the heap changes at most in the output binding of
    [w], the desktop surface of [w] gets new flags. *)
Lemma placed_acts_on st w r ds d d' heap cmds :
  surfaces st !! w = Some r → shsurf_desktop_surface r = Some ds →
  desktop_surfaces st !! ds = Some d → ds_user_data d' = ds_user_data d →
  (heap = surfaces st ∨ ∃ o, heap = <[w := bound_to o r]> (surfaces st)) →
  acts_on w st (placed st heap ds d' cmds) ∧
  parent_of (placed st heap ds d' cmds) w = parent_of st w ∧
  fullscreen_of (placed st heap ds d' cmds) ds = Some (ds_fullscreen d').
Proof.
  intros Hr Hds Hd Hud Hheap.
  assert (Hsame : ∀ x, shsurf_desktop_surface <$> heap !! x =
                       shsurf_desktop_surface <$> surfaces st !! x ∧
                       shsurf_parent <$> heap !! x =
                       shsurf_parent <$> surfaces st !! x).
  { intros x. destruct Hheap as [-> | [o ->]]; [done|].
    destruct (decide (x = w)) as [->|].
    - by rewrite lookup_insert_eq, Hr.
    - by rewrite lookup_insert_ne. }
  unfold acts_on, dsurf_of, parent_of, user_data_of, fullscreen_of, placed.
  simpl. split_and!.
  - intros x. apply Hsame.
  - intros ds'. destruct (decide (ds' = ds)) as [->|].
    + rewrite lookup_insert_eq, Hd. simpl. by rewrite Hud.
    + by rewrite lookup_insert_ne.
  - intros x _. apply Hsame.
  - intros ds' Hne. rewrite lookup_insert_ne; [done|].
    intros ->. apply Hne. by rewrite Hr; simpl; rewrite Hds.
  - apply Hsame.
  - by rewrite lookup_insert_eq.
Qed.

Lemma set_normal_acts_on st w st' :
  kiosk_shell_surface_set_normal st w = Some st' →
  acts_on w st st' ∧ parent_of st' w = parent_of st w ∧
  ∀ ds, dsurf_of st w = Some (Some ds) → fullscreen_of st' ds = Some false.
Proof.
  intros (r & ds & d & heap & Hr & Hds & Hd & Hheap & ->)%set_normal_Some.
  destruct (placed_acts_on st w r ds d (normal_flags d) heap (normal_commands ds))
    as (Ha & Hp & Hf); try done.
  { unfold normal_heap in Hheap. destruct (shsurf_output r); [by left|].
    destruct Hheap as (o & _ & _ & ->). right. by exists o. }
  split_and!; [done..|].
  intros ds'. unfold dsurf_of. rewrite Hr. simpl. rewrite Hds. by intros [= <-].
Qed.

Lemma set_fullscreen_acts_on st w o st' :
  kiosk_shell_surface_set_fullscreen st w o = Some st' →
  acts_on w st st' ∧ parent_of st' w = parent_of st w.
Proof.
  intros (chosen & r & ds & d & _ & _ & Hr & Hds & Hd & ->)%set_fullscreen_Some.
  destruct (placed_acts_on st w r ds d
              (size_of_output st chosen (with_ds_fullscreen true d))
              (<[w := bound_to chosen r]> (surfaces st))
              (SetFullscreen ds true :: size_command st ds chosen))
    as (Ha & Hp & _); try done.
  - unfold size_of_output. by destruct (chosen ≫= _).
  - right. by exists chosen.
Qed.

Lemma set_maximized_same_shape st w st' :
  kiosk_shell_surface_set_maximized st w = Some st' → same_shape st st'.
Proof.
  intros (chosen & r & ds & d & _ & _ & Hr & Hds & Hd & ->)%set_maximized_Some.
  destruct (placed_acts_on st w r ds d
              (size_of_output st chosen (with_ds_maximized true d))
              (<[w := bound_to chosen r]> (surfaces st))
              (SetMaximized ds true :: size_command st ds chosen))
    as ((H1 & H2 & H3 & H4) & Hp & Hf); try done.
  - unfold size_of_output. by destruct (chosen ≫= _).
  - right. by exists chosen.
  - split_and!; try done.
    + intros x. destruct (decide (x = w)) as [->|]; [done | by apply H3].
    + intros ds'. destruct (decide (ds' = ds)) as [->|].
      * rewrite Hf. unfold fullscreen_of. rewrite Hd. simpl. f_equal.
        apply maximized_size_of_output.
      * apply H4. unfold dsurf_of. rewrite Hr. simpl. congruence.
Qed.

(** Case analysis on the first step of a computation that returned. *)
Ltac bind_step H x Hx :=
  match type of H with
  | (?m ≫= _) = Some _ =>
      destruct m as [x|] eqn:Hx; simpl in H; [|discriminate H]
  end.

Lemma update_shsurf_acts_on x f st st' :
  (∀ r, shsurf_desktop_surface (f r) = shsurf_desktop_surface r) →
  update_shsurf x f st = Some st' → acts_on x st st'.
Proof.
  intros Hf (r & Hr & ->)%update_shsurf_Some. by apply store_acts_on.
Qed.

Lemma update_shsurf_lookup x f st st' :
  update_shsurf x f st = Some st' →
  ∃ r, surfaces st !! x = Some r ∧ surfaces st' !! x = Some (f r).
Proof.
  intros (r & Hr & ->)%update_shsurf_Some. exists r. split; [done|].
  apply lookup_insert_eq.
Qed.

Lemma same_shape_dsurf st st' x :
  same_shape st st' → dsurf_of st' x = dsurf_of st x.
Proof. by intros (H & _). Qed.

Lemma same_shape_parent st st' x :
  same_shape st st' → parent_of st' x = parent_of st x.
Proof. by intros (_ & _ & H & _). Qed.

Lemma acts_on_dsurf w st st' x :
  acts_on w st st' → dsurf_of st' x = dsurf_of st x.
Proof. by intros (H & _). Qed.

Lemma set_parent_acts_on st c p st' :
  kiosk_shell_surface_set_parent st c p = Some st' →
  acts_on c st st' ∧ parent_of st' c = Some p ∧
  (is_Some p → ∀ ds, dsurf_of st c = Some (Some ds) →
               fullscreen_of st' ds = Some false).
Proof.
  unfold kiosk_shell_surface_set_parent. intros H.
  bind_step H r Hr. bind_step H st1 H1. bind_step H st2 H2.
  assert (S1 : same_shape st st1).
  { destruct (shsurf_parent_destroy_listener r); [|by injection H1 as <-].
    eapply same_shape_trans; [apply (unlink_same_shape st c r)|].
    by eapply update_shsurf_same_shape; [| |exact H1]. }
  assert (A2 : acts_on c st1 st2) by (by eapply update_shsurf_acts_on; [|exact H2]).
  assert (P2 : parent_of st2 c = Some p).
  { apply update_shsurf_lookup in H2 as (r1 & _ & Hr2).
    unfold parent_of. by rewrite Hr2. }
  assert (A02 : acts_on c st st2)
    by (eapply acts_on_trans; [by apply same_shape_acts_on|done]).
  destruct p as [q|].
  - bind_step H st3 H3. bind_step H st4 H4. bind_step H st5 H5.
    assert (S3 : same_shape st2 st3)
      by (by eapply update_shsurf_same_shape; [| |exact H3]).
    assert (S4 : same_shape st3 st4)
      by (by eapply update_shsurf_same_shape; [| |exact H4]).
    assert (S5 : same_shape st4 st5) by (by eapply set_output_same_shape).
    assert (S25 : same_shape st2 st5)
      by (eauto using same_shape_trans).
    destruct (set_normal_acts_on _ _ _ H) as (A & P & F).
    split_and!.
    + eapply acts_on_trans; [exact A02|].
      eapply acts_on_trans; [by apply same_shape_acts_on|done].
    + by rewrite P, (same_shape_parent _ _ _ S25).
    + intros _ ds Hds. apply F.
      by rewrite (same_shape_dsurf _ _ _ S25), (acts_on_dsurf _ _ _ _ A02).
  - bind_step H r2 Hr2.
    destruct (set_fullscreen_acts_on _ _ _ _ H) as (A & P).
    split_and!.
    + by eapply acts_on_trans.
    + by rewrite P.
    + by intros [? ?].
Qed.

Lemma notify_parent_destroy_acts_on st c st' :
  kiosk_shell_surface_notify_parent_destroy st c = Some st' →
  ∃ p, kiosk_shell_surface_set_parent st c p = Some st'.
Proof.
  unfold kiosk_shell_surface_notify_parent_destroy. intros H.
  bind_step H r Hr. bind_step H parent Hp. bind_step H pr Hpr. eauto.
Qed.

Lemma set_parent_invariant st c p st' :
  linked st → parented_not_fullscreen st →
  kiosk_shell_surface_set_parent st c p = Some st' →
  linked st' ∧ parented_not_fullscreen st'.
Proof.
  intros Hl Hp (A & P & F)%set_parent_acts_on.
  apply (acts_on_invariant c st st'); try done.
  intros p' ds Hp' Hds. rewrite P in Hp'. injection Hp' as ->.
  rewrite (F ltac:(eauto) ds Hds). done.
Qed.

Lemma notify_all_invariant (notify : kiosk_shell → shsurf_ptr → option kiosk_shell)
    (Inv : kiosk_shell → Prop) :
  (∀ st c st', Inv st → notify st c = Some st' → Inv st') →
  ∀ l st st', Inv st → notify_all notify l st = Some st' → Inv st'.
Proof.
  intros Hstep l. induction l as [|c l IH]; intros st st' Hinv H; simpl in H.
  - by injection H as <-.
  - bind_step H st1 H1. eapply IH; [|exact H]. by eapply Hstep.
Qed.

Lemma desktop_command_same_shape ds f c st st' :
  (∀ d, ds_user_data (f d) = ds_user_data d) →
  (∀ d, ds_fullscreen (f d) = ds_fullscreen d) →
  desktop_command ds f c st = Some st' → same_shape st st'.
Proof.
  intros Hu Hf (d & Hd & ->)%desktop_command_Some.
  unfold same_shape, dsurf_of, parent_of, user_data_of, fullscreen_of, log.
  simpl. split_and!; try done; intros ds'.
  - destruct (decide (ds' = ds)) as [->|].
    + rewrite lookup_insert_eq, Hd. simpl. by rewrite Hu.
    + by rewrite lookup_insert_ne.
  - destruct (decide (ds' = ds)) as [->|].
    + rewrite lookup_insert_eq, Hd. simpl. by rewrite Hf.
    + by rewrite lookup_insert_ne.
Qed.

Lemma focus_leave_same_shape st old st' :
  focus_leave st old = Some st' → same_shape st st'.
Proof.
  unfold focus_leave. intros H.
  destruct old as [s|]; [|by injection H as <-].
  destruct (get_kiosk_shell_surface st s) as [w|]; [|by injection H as <-].
  bind_step H r Hr. bind_step H st1 H1.
  assert (S1 : same_shape st st1)
    by (by eapply update_shsurf_same_shape; [| |exact H1]).
  case_bool_decide; [|by injection H as <-].
  bind_step H ds Hds. eapply same_shape_trans; [exact S1|].
  by eapply desktop_command_same_shape; [| |exact H].
Qed.

Lemma focus_enter_same_shape st new st' :
  focus_enter st new = Some st' → same_shape st st'.
Proof.
  unfold focus_enter. intros H.
  destruct new as [s|]; [|by injection H as <-].
  destruct (get_kiosk_shell_surface st s) as [w|]; [|by injection H as <-].
  bind_step H r Hr. bind_step H st1 H1.
  assert (S1 : same_shape st st1)
    by (by eapply update_shsurf_same_shape; [| |exact H1]).
  case_bool_decide; [|by injection H as <-].
  bind_step H ds Hds. eapply same_shape_trans; [exact S1|].
  by eapply desktop_command_same_shape; [| |exact H].
Qed.

Lemma keyboard_focus_same_shape st seat focus st' :
  kiosk_shell_seat_handle_keyboard_focus st seat focus = Some st' →
  same_shape st st'.
Proof.
  unfold kiosk_shell_seat_handle_keyboard_focus. intros H.
  bind_step H shseat Hs. bind_step H st1 H1.
  eapply same_shape_trans; [by eapply focus_leave_same_shape|].
  apply focus_enter_same_shape in H. exact H.
Qed.

Lemma handle_output_destroyed_same_shape st o st' :
  handle_output_destroyed st o = Some st' → same_shape st st'.
Proof.
  unfold handle_output_destroyed. intros H. bind_step H st1 H1.
  injection H as <-.
  apply (notify_all_invariant kiosk_shell_surface_notify_output_destroy
           (same_shape st)) in H1; [exact H1| |apply same_shape_refl].
  intros sta c stb Ha Hb. eapply same_shape_trans; [exact Ha|].
  by eapply set_output_same_shape.
Qed.

Lemma with_journal_same_shape st j : same_shape st (with_journal j st).
Proof. done. Qed.

Lemma torn_trans w ds a b c : torn w ds a b → torn w ds b c → torn w ds a c.
Proof.
  intros (H1 & H2 & H3) (G1 & G2 & G3). split_and!.
  - intros x Hx. destruct (H1 x Hx), (G1 x Hx). split; congruence.
  - intros ds' Hd. rewrite G2, H2; done.
  - intros ds'. by rewrite G3, H3.
Qed.

Lemma same_shape_torn w ds st st' : same_shape st st' → torn w ds st st'.
Proof. intros (H1 & H2 & H3 & H4). split_and!; intros; auto. Qed.

Lemma update_shsurf_torn w ds f st st' :
  update_shsurf w f st = Some st' → torn w ds st st'.
Proof.
  intros (r & Hr & ->)%update_shsurf_Some.
  unfold torn, dsurf_of, parent_of, user_data_of, fullscreen_of. simpl.
  split_and!; try done. intros x Hx. by rewrite lookup_insert_ne.
Qed.

Lemma set_user_data_torn w ds data st st' :
  weston_desktop_surface_set_user_data ds data st = Some st' → torn w ds st st'.
Proof.
  intros (d & Hd & ->)%desktop_command_Some.
  unfold torn, dsurf_of, parent_of, user_data_of, fullscreen_of, log. simpl.
  split_and!; try done.
  - intros ds' Hne. by rewrite lookup_insert_ne.
  - intros ds'. destruct (decide (ds' = ds)) as [->|].
    + by rewrite lookup_insert_eq, Hd.
    + by rewrite lookup_insert_ne.
Qed.

(** What is left of the invariants' subject after the teardown. *)
Lemma destroy_teardown_torn st w st' :
  destroy_teardown st w = Some st' →
  ∃ ds, dsurf_of st w = Some (Some ds) ∧ torn w ds st st' ∧
        surfaces st' !! w = None ∧ user_data_of st' ds = Some None.
Proof.
  unfold destroy_teardown. intros H.
  bind_step H r Hr. bind_step H ds Hds. bind_step H st1 H1. bind_step H st2 H2.
  bind_step H r3 Hr3. bind_step H st4 H4. bind_step H st5 H5.
  injection H as <-. exists ds.
  assert (T1 : torn w ds st st1) by (by eapply set_user_data_torn).
  assert (T2 : torn w ds st1 st2) by (by eapply update_shsurf_torn).
  set (st3 := weston_view_destroy (shsurf_view r)
                (weston_desktop_surface_unlink_view (shsurf_view r) st2)) in *.
  assert (T3 : torn w ds st2 st3) by (by apply same_shape_torn).
  assert (T4 : torn w ds st3 st4).
  { destruct (shsurf_output_destroy_listener r3).
    - by eapply update_shsurf_torn.
    - injection H4 as <-. by apply same_shape_torn. }
  assert (T5 : torn w ds st4 st5).
  { destruct (shsurf_parent_destroy_listener r3).
    - bind_step H5 st4' H4'.
      eapply torn_trans;
        [apply same_shape_torn, (unlink_same_shape st4 w r3)|].
      eapply torn_trans; by eapply update_shsurf_torn.
    - injection H5 as <-. by apply same_shape_torn. }
  assert (U5 : user_data_of st5 ds = Some None).
  { apply desktop_command_Some in H1 as (d & Hd & ->).
    assert (U1 : user_data_of
                   (log (SetUserData ds None)
                      (with_desktop_surfaces
                         (<[ds:=with_ds_user_data None d]> (desktop_surfaces st))
                         st)) ds = Some None)
      by (unfold user_data_of; simpl; by rewrite lookup_insert_eq).
    assert (Hkeep : ∀ a b, desktop_surfaces b = desktop_surfaces a →
                           user_data_of b ds = user_data_of a ds)
      by (intros a b Hab; unfold user_data_of; by rewrite Hab).
    assert (Hupd : ∀ x f a b, update_shsurf x f a = Some b →
                              desktop_surfaces b = desktop_surfaces a)
      by (by intros x f a b (? & ? & ->)%update_shsurf_Some).
    rewrite <- U1.
    assert (D2 : desktop_surfaces st2 = desktop_surfaces
                   (log (SetUserData ds None)
                      (with_desktop_surfaces
                         (<[ds:=with_ds_user_data None d]> (desktop_surfaces st))
                         st))) by (by eapply Hupd).
    assert (D4 : desktop_surfaces st4 = desktop_surfaces st2).
    { destruct (shsurf_output_destroy_listener r3).
      - by rewrite (Hupd _ _ _ _ H4).
      - by injection H4 as <-. }
    assert (D5 : desktop_surfaces st5 = desktop_surfaces st4).
    { destruct (shsurf_parent_destroy_listener r3).
      - bind_step H5 st4' H4'.
        rewrite (Hupd _ _ _ _ H5), (Hupd _ _ _ _ H4').
        unfold unlink_parent_destroy_listener. by destruct (shsurf_parent r3).
      - by injection H5 as <-. }
    apply Hkeep. congruence. }
  split_and!.
  - unfold dsurf_of. by rewrite Hr; simpl; rewrite Hds.
  - apply (torn_trans w ds st st5); [eauto using torn_trans|].
    unfold torn, dsurf_of, parent_of, user_data_of, fullscreen_of, log. simpl.
    split_and!; try done. intros x Hx. by rewrite lookup_delete_ne.
  - unfold log. simpl. apply lookup_delete_eq.
  - exact U5.
Qed.

Lemma torn_invariant w ds st st' :
  linked st → parented_not_fullscreen st →
  dsurf_of st w = Some (Some ds) → torn w ds st st' → surfaces st' !! w = None →
  linked st' ∧ parented_not_fullscreen st'.
Proof.
  rewrite !linked_obs, !parented_not_fullscreen_obs.
  intros Hl Hp Hw (H1 & H2 & H3) Hgone.
  assert (Hother : ∀ x ds', dsurf_of st' x = Some (Some ds') →
            x ≠ w ∧ dsurf_of st x = Some (Some ds') ∧ ds' ≠ ds).
  { intros x ds' Hx.
    assert (x ≠ w) by (intros ->; unfold dsurf_of in Hx; by rewrite Hgone in Hx).
    destruct (H1 x) as [Hd _]; [done|]. rewrite Hd in Hx.
    split_and!; [done..|]. intros ->. apply Hl in Hx, Hw. congruence. }
  split.
  - intros x ds' Hx. destruct (Hother x ds' Hx) as (Hne & Hx' & Hds').
    rewrite H2 by done. by apply Hl.
  - intros x p ds' Hpx Hx. destruct (Hother x ds' Hx) as (Hne & Hx' & Hds').
    destruct (H1 x Hne) as [_ Hpar]. rewrite Hpar in Hpx. rewrite H3.
    by eapply Hp.
Qed.

Lemma emit_destroy_signal_invariant st w st' :
  linked st → parented_not_fullscreen st →
  emit_destroy_signal st w = Some st' →
  linked st' ∧ parented_not_fullscreen st'.
Proof.
  unfold emit_destroy_signal. intros Hl Hp H. bind_step H r Hr.
  case_bool_decide; [done|].
  apply (notify_all_invariant kiosk_shell_surface_notify_parent_destroy
           (λ s, linked s ∧ parented_not_fullscreen s)) in H; [done| |].
  - intros sta c stb [Hla Hpa] (p & Hset)%notify_parent_destroy_acts_on.
    by eapply set_parent_invariant.
  - by apply (same_shape_invariant st).
Qed.

Lemma surface_destroy_invariant st w st' :
  linked st → parented_not_fullscreen st →
  kiosk_shell_surface_destroy st w = Some st' →
  linked st' ∧ parented_not_fullscreen st'.
Proof.
  unfold kiosk_shell_surface_destroy. intros Hl Hp H. bind_step H st1 H1.
  destruct (emit_destroy_signal_invariant _ _ _ Hl Hp H1) as [Hl1 Hp1].
  destruct (destroy_teardown_torn _ _ _ H) as (ds & Hds & T & Hgone & _).
  by eapply torn_invariant.
Qed.

Lemma refocus_seats_same_shape fv surface st :
  same_shape st (refocus_seats fv surface st).
Proof.
  unfold refocus_seats. generalize (seat_list st) as l. intros l.
  assert (H : ∀ st0, same_shape st st0 →
    same_shape st
      (foldl (λ shell seat,
                match keyboard_focus shell !! seat with
                | Some focus =>
                    if bool_decide (focus = Some surface)
                    then weston_view_activate fv seat 0 shell
                    else shell
                | None => shell
                end) st0 l)); [|apply H, same_shape_refl].
  induction l as [|seat l IH]; intros st0 H0; simpl; [done|].
  apply IH. destruct (keyboard_focus st0 !! seat) as [focus|]; [|done].
  by case_bool_decide.
Qed.

Lemma surface_removed_invariant st ds st' :
  linked st → parented_not_fullscreen st →
  desktop_surface_removed st ds = Some st' →
  linked st' ∧ parented_not_fullscreen st'.
Proof.
  unfold desktop_surface_removed. intros Hl Hp H. bind_step H d Hd.
  destruct (ds_user_data d) as [w|]; [|by injection H as <-].
  bind_step H fv Hfv.
  eapply surface_destroy_invariant; [| |exact H].
  - destruct fv; [|done].
    by apply (same_shape_invariant st _ Hl Hp), refocus_seats_same_shape.
  - destruct fv; [|done].
    by apply (same_shape_invariant st _ Hl Hp), refocus_seats_same_shape.
Qed.

Lemma surface_create_invariant st ds view alloc wl_client st1 shsurf :
  linked st → parented_not_fullscreen st → user_data_of st ds = Some None →
  kiosk_shell_surface_create st ds view alloc wl_client = Some (st1, shsurf) →
  linked st1 ∧ parented_not_fullscreen st1 ∧
  ∀ w, shsurf = Some w → parent_of st1 w = Some None.
Proof.
  intros Hl Hp Hfresh. unfold kiosk_shell_surface_create.
  destruct view as [v|]; [|by intros [= <- <-]].
  intros H. bind_step H d Hd.
  destruct alloc as [w|].
  2:{ injection H as <- <-. split_and!; [| |done];
      by apply (same_shape_invariant st _ Hl Hp). }
  bind_step H st0 H0. injection H as <- <-.
  apply desktop_command_Some in H0 as (d0 & Hd0 & ->). simpl in Hd0.
  rewrite Hd in Hd0. injection Hd0 as <-.
  revert Hl Hp. rewrite !linked_obs, !parented_not_fullscreen_obs. intros Hl Hp.
  unfold dsurf_of, parent_of, user_data_of, fullscreen_of, log in *. simpl.
  assert (Hfs : ∀ ds', ds_fullscreen <$>
                  <[ds:=with_ds_user_data (Some w) d]> (desktop_surfaces st) !! ds'
                = ds_fullscreen <$> desktop_surfaces st !! ds').
  { intros ds'. destruct (decide (ds' = ds)) as [->|].
    - by rewrite lookup_insert_eq, Hd.
    - by rewrite lookup_insert_ne. }
  split_and!.
  - intros x ds'. destruct (decide (x = w)) as [->|].
    + rewrite lookup_insert_eq. simpl. intros [= <-]. by rewrite lookup_insert_eq.
    + rewrite lookup_insert_ne by done. intros Hx.
      rewrite lookup_insert_ne; [by apply Hl|].
      intros <-. apply Hl in Hx. congruence.
  - intros x p ds'. destruct (decide (x = w)) as [->|].
    + by rewrite lookup_insert_eq.
    + rewrite lookup_insert_ne by done. rewrite Hfs. apply Hp.
  - intros ? [= <-]. by rewrite lookup_insert_eq.
Qed.

Lemma surface_added_invariant st ds view alloc wl_client st' :
  linked st → parented_not_fullscreen st → user_data_of st ds = Some None →
  desktop_surface_added st ds view alloc wl_client = Some st' →
  linked st' ∧ parented_not_fullscreen st'.
Proof.
  intros Hl Hp Hfresh. unfold desktop_surface_added. intros H.
  destruct (kiosk_shell_surface_create st ds view alloc wl_client)
    as [[st1 shsurf]|] eqn:Hc; simpl in H; [|done].
  destruct (surface_create_invariant _ _ _ _ _ _ _ Hl Hp Hfresh Hc)
    as (Hl1 & Hp1 & Hroot).
  destruct shsurf as [w|]; [|by injection H as <-].
  bind_step H st2 H2. bind_step H r Hr. injection H as <-.
  destruct (set_fullscreen_acts_on _ _ _ _ H2) as (A & P).
  destruct (acts_on_invariant w st1 st2 Hl1 Hp1 A) as [Hl2 Hp2].
  { intros p ds' Hpar. rewrite P, (Hroot w eq_refl) in Hpar. done. }
  rewrite activate_on_all_seats_journal.
  by apply (same_shape_invariant st2).
Qed.

Lemma fullscreen_requested_invariant st ds fullscreen output st' :
  linked st → parented_not_fullscreen st →
  ¬ grants_fullscreen_to_child st (FullscreenRequested ds fullscreen output) →
  desktop_surface_fullscreen_requested st ds fullscreen output = Some st' →
  linked st' ∧ parented_not_fullscreen st'.
Proof.
  intros Hl Hp Hgrant. unfold desktop_surface_fullscreen_requested. intros H.
  bind_step H w Hw. bind_step H r Hr.
  destruct (shsurf_parent r) as [p|] eqn:Hpar; simpl in H.
  - destruct fullscreen; simpl in H.
    { exfalso. apply Hgrant. simpl. exists w, p. split; [done|].
      unfold parent_of. by rewrite Hr; simpl; rewrite Hpar. }
    destruct (set_normal_acts_on _ _ _ H) as (A & P & F).
    apply (acts_on_invariant w st st'); try done.
    intros p' ds' _ Hds'. by rewrite (F ds' Hds').
  - destruct (set_fullscreen_acts_on _ _ _ _ H) as (A & P).
    apply (acts_on_invariant w st st'); try done.
    intros p' ds' Hp'. rewrite P in Hp'. unfold parent_of in Hp'.
    rewrite Hr in Hp'. simpl in Hp'. congruence.
Qed.

Lemma maximized_requested_invariant st ds maximized st' :
  linked st → parented_not_fullscreen st →
  desktop_surface_maximized_requested st ds maximized = Some st' →
  linked st' ∧ parented_not_fullscreen st'.
Proof.
  intros Hl Hp. unfold desktop_surface_maximized_requested. intros H.
  bind_step H w Hw. bind_step H r Hr.
  destruct (shsurf_parent r) as [p|] eqn:Hpar; simpl in H.
  - destruct maximized.
    + by apply (same_shape_invariant st), (set_maximized_same_shape st w).
    + destruct (set_normal_acts_on _ _ _ H) as (A & P & F).
      apply (acts_on_invariant w st st'); try done.
      intros p' ds' _ Hds'. by rewrite (F ds' Hds').
  - destruct (set_fullscreen_acts_on _ _ _ _ H) as (A & P).
    apply (acts_on_invariant w st st'); try done.
    intros p' ds' Hp'. rewrite P in Hp'. unfold parent_of in Hp'.
    rewrite Hr in Hp'. simpl in Hp'. congruence.
Qed.

Lemma step_invariant st e st' :
  linked st → parented_not_fullscreen st →
  admissible st e → ¬ grants_fullscreen_to_child st e →
  step st e = Some st' →
  linked st' ∧ parented_not_fullscreen st'.
Proof.
  intros Hl Hp Ha Hg H. destruct e; simpl in H.
  - by eapply surface_added_invariant.
  - by eapply surface_removed_invariant.
  - unfold desktop_surface_set_parent in H. bind_step H w Hw.
    by eapply set_parent_invariant.
  - by eapply fullscreen_requested_invariant.
  - by eapply maximized_requested_invariant.
  - apply keyboard_focus_same_shape in H.
    by apply (same_shape_invariant _ _ Hl Hp).
  - injection H as <-. apply (same_shape_invariant _ _ Hl Hp).
    unfold kiosk_shell_seat_create. by destruct alloc.
  - injection H as <-. by apply (same_shape_invariant _ _ Hl Hp).
  - injection H as <-. apply (same_shape_invariant _ _ Hl Hp).
    unfold kiosk_shell_output_create. by destruct alloc.
  - by apply (same_shape_invariant _ _ Hl Hp), (handle_output_destroyed_same_shape _ output).
Qed.

(** C3, as the code has it.  From a state in which every side record is
    linked to its desktop surface and no window with a parent is fullscreen
    (a state without windows, say), every run of events that the compositor
    can deliver, none of which is a fullscreen request with argument true
    for a window that has a parent, ends in a state in which no window with
    a parent is in the fullscreen placement.  The events are: surface added
    and removed (with the re-parenting of the children), set parent,
    fullscreen and maximize requests, keyboard focus, seat and output
    creation and destruction. *)
Theorem parented_not_fullscreen_preserved st es st' :
  linked st → parented_not_fullscreen st →
  trace_without_grant st es st' →
  linked st' ∧ parented_not_fullscreen st'.
Proof.
  intros Hl Hp Ht. induction Ht as [st|st e st1 es st' Ha Hg Hs _ IH]; [done|].
  destruct (step_invariant st e st1 Hl Hp Ha Hg Hs). by apply IH.
Qed.

Lemma parented_not_fullscreen_preserved_witness :
  parented_not_fullscreen Demo.family_state.
Proof.
  apply (parented_not_fullscreen_preserved Demo.initial
           [Demo.add_first; Demo.add_second; Demo.make_child]).
  - refine (bool_decide_unpack _ _). vm_compute. exact I.
  - refine (bool_decide_unpack _ _). vm_compute. exact I.
  - eapply trace_cons; [vm_compute; reflexivity | intros [] | vm_compute; reflexivity|].
    eapply trace_cons; [vm_compute; reflexivity | intros [] | vm_compute; reflexivity|].
    eapply trace_cons; [exact I | intros [] | vm_compute; reflexivity|].
    apply trace_nil.
Defined.

(** The session continued by a fullscreen request, with argument true, of
    the child window 2: the window has the parent 1 and is fullscreen. *)
Lemma child_fullscreen_reachable :
  ∃ st,
    run Demo.initial
      [Demo.add_first; Demo.add_second; Demo.make_child;
       FullscreenRequested 11 true None] = Some st ∧
    parent_of st 2 = Some (Some 1) ∧
    placement_of <$> desktop_of st 2 = Some Fullscreen ∧
    ¬ parented_not_fullscreen st.
Proof.
  eexists. split; [vm_compute; reflexivity|].
  split_and!; [by vm_compute | by vm_compute |].
  refine (bool_decide_eq_false_1 _ _). vm_compute. reflexivity.
Qed.


(** ** C8: the order of destruction *)

Lemma journal_extends_refl st : journal_extends st st.
Proof. exists []. by rewrite app_nil_r. Qed.

Lemma journal_extends_trans a b c :
  journal_extends a b → journal_extends b c → journal_extends a c.
Proof.
  intros [x Hx] [y Hy]. exists (x ++ y). by rewrite Hy, Hx, app_assoc.
Qed.

Lemma journal_extends_eq st st' :
  journal st' = journal st → journal_extends st st'.
Proof. intros H. exists []. by rewrite app_nil_r. Qed.

Lemma update_shsurf_journal x f st st' :
  update_shsurf x f st = Some st' → journal st' = journal st.
Proof. by intros (r & _ & ->)%update_shsurf_Some. Qed.

Lemma set_output_journal st w o st' :
  kiosk_shell_surface_set_output st w o = Some st' → journal st' = journal st.
Proof. by intros (r & _ & _ & ->)%set_output_Some. Qed.

Lemma unlink_journal st c r :
  journal (unlink_parent_destroy_listener st c r) = journal st.
Proof. unfold unlink_parent_destroy_listener. by destruct (shsurf_parent r). Qed.

Lemma set_parent_journal st c p st' :
  kiosk_shell_surface_set_parent st c p = Some st' → journal_extends st st'.
Proof.
  unfold kiosk_shell_surface_set_parent. intros H.
  bind_step H r Hr. bind_step H st1 H1. bind_step H st2 H2.
  assert (J1 : journal st1 = journal st).
  { destruct (shsurf_parent_destroy_listener r); [|by injection H1 as <-].
    by rewrite (update_shsurf_journal _ _ _ _ H1), unlink_journal. }
  assert (J2 : journal st2 = journal st)
    by (by rewrite (update_shsurf_journal _ _ _ _ H2)).
  destruct p as [q|].
  - bind_step H st3 H3. bind_step H st4 H4. bind_step H st5 H5.
    assert (J5 : journal st5 = journal st).
    { rewrite (set_output_journal _ _ _ _ H5).
      unfold link_parent_destroy_listener in H4.
      by rewrite (update_shsurf_journal _ _ _ _ H4),
        (update_shsurf_journal _ _ _ _ H3). }
    apply set_normal_Some in H as (? & ds & d & heap & _ & _ & _ & _ & ->).
    exists (normal_commands ds). simpl. by rewrite J5.
  - bind_step H r2 Hr2.
    apply set_fullscreen_Some in H as (ch & ? & ds & d & _ & _ & _ & _ & _ & ->).
    eexists. simpl. by rewrite J2.
Qed.

Lemma notify_all_app notify pre post st st' :
  notify_all notify (pre ++ post) st = Some st' →
  ∃ stc, notify_all notify pre st = Some stc ∧
         notify_all notify post stc = Some st'.
Proof.
  revert st. induction pre as [|c pre IH]; intros st H; simpl in *; [eauto|].
  bind_step H st1 H1. simpl. by apply IH.
Qed.

Lemma acts_on_associated c st st' ds w :
  acts_on c st st' → associated st ds w → associated st' ds w.
Proof.
  intros (H1 & H2 & _) [Hu Hd]. split; [by rewrite H2 | by rewrite H1].
Qed.

Lemma listeners_keep_association l st st' ds w base :
  associated st ds w → journal_extends base st →
  notify_all kiosk_shell_surface_notify_parent_destroy l st = Some st' →
  associated st' ds w ∧ journal_extends base st'.
Proof.
  intros Ha Hj H.
  apply (notify_all_invariant kiosk_shell_surface_notify_parent_destroy
           (λ s, associated s ds w ∧ journal_extends base s)) in H; [done| |done].
  intros sta c stb [Haa Hja] (p & Hset)%notify_parent_destroy_acts_on. split.
  - destruct (set_parent_acts_on _ _ _ _ Hset) as (A & _).
    by eapply acts_on_associated.
  - eapply journal_extends_trans; [exact Hja|]. by eapply set_parent_journal.
Qed.

Lemma destroy_teardown_journal st w st' :
  destroy_teardown st w = Some st' →
  ∃ r ds, surfaces st !! w = Some r ∧ shsurf_desktop_surface r = Some ds ∧
          journal st' =
            journal st ++ [SetUserData ds None; UnlinkView (shsurf_view r);
                           ViewDestroy (shsurf_view r); Free w].
Proof.
  unfold destroy_teardown. intros H.
  bind_step H r Hr. bind_step H ds Hds. bind_step H st1 H1. bind_step H st2 H2.
  bind_step H r3 Hr3. bind_step H st4 H4. bind_step H st5 H5.
  injection H as <-. exists r, ds. split_and!; [done..|].
  apply desktop_command_Some in H1 as (d & Hd & ->).
  apply update_shsurf_journal in H2.
  assert (J4 : journal st4 =
               journal st ++ [SetUserData ds None; UnlinkView (shsurf_view r);
                              ViewDestroy (shsurf_view r)]).
  { assert (J3 : journal (weston_view_destroy (shsurf_view r)
                   (weston_desktop_surface_unlink_view (shsurf_view r) st2)) =
                 journal st ++ [SetUserData ds None; UnlinkView (shsurf_view r);
                                ViewDestroy (shsurf_view r)]).
    { unfold weston_view_destroy, weston_desktop_surface_unlink_view, log. simpl.
      rewrite H2. unfold log. simpl. by rewrite <- !app_assoc. }
    destruct (shsurf_output_destroy_listener r3).
    - by rewrite (update_shsurf_journal _ _ _ _ H4).
    - by injection H4 as <-. }
  assert (J5 : journal st5 = journal st4).
  { destruct (shsurf_parent_destroy_listener r3).
    - bind_step H5 st4' H4'.
      by rewrite (update_shsurf_journal _ _ _ _ H5),
        (update_shsurf_journal _ _ _ _ H4'), unlink_journal.
    - by injection H5 as <-. }
  unfold log. simpl. rewrite J5, J4. by rewrite <- app_assoc.
Qed.

(** C8, as the code has it.  [kiosk_shell_surface_destroy] emits the
    destroy signal first: every listener of the signal is called in a state
    in which the side record is still allocated and still associated with
    its desktop surface, and so is the state after the emission.  Only then
    is the association nulled, before the view is unlinked and destroyed
    and the record freed; a removal notification that arrives for the same
    desktop surface afterwards finds no side record and changes nothing. *)
Theorem destroy_emits_then_unlinks st w ds st' :
  associated st ds w →
  kiosk_shell_surface_destroy st w = Some st' →
  ∃ st1 r r1 cmds,
    surfaces st !! w = Some r ∧
    emit_destroy_signal st w = Some st1 ∧
    (∀ pre c post,
       shsurf_destroy_signal r = pre ++ c :: post →
       ∃ stc, notify_all kiosk_shell_surface_notify_parent_destroy pre
                (log (EmitDestroy w) st) = Some stc ∧
              associated stc ds w) ∧
    associated st1 ds w ∧
    journal st1 = journal st ++ EmitDestroy w :: cmds ∧
    surfaces st1 !! w = Some r1 ∧
    journal st' =
      journal st1 ++ [SetUserData ds None; UnlinkView (shsurf_view r1);
                      ViewDestroy (shsurf_view r1); Free w] ∧
    user_data_of st' ds = Some None ∧
    surfaces st' !! w = None ∧
    desktop_surface_removed st' ds = Some st'.
Proof.
  intros Ha. unfold kiosk_shell_surface_destroy. intros H.
  bind_step H st1 H1.
  pose proof H1 as Hemit. unfold emit_destroy_signal in H1.
  bind_step H1 r Hr. case_bool_decide as Hself; [done|].
  assert (Ha0 : associated (log (EmitDestroy w) st) ds w) by exact Ha.
  assert (Hj0 : journal_extends (log (EmitDestroy w) st) (log (EmitDestroy w) st))
    by apply journal_extends_refl.
  destruct (listeners_keep_association _ _ _ ds w _ Ha0 Hj0 H1)
    as [Ha1 [cmds Hj1]].
  destruct (destroy_teardown_journal _ _ _ H) as (r1 & ds1 & Hr1 & Hds1 & Hj).
  destruct (destroy_teardown_torn _ _ _ H) as (ds2 & Hds2 & _ & Hgone & Hnull).
  assert (ds1 = ds).
  { destruct Ha1 as [_ Hd]. unfold dsurf_of in Hd. rewrite Hr1 in Hd.
    simpl in Hd. congruence. }
  assert (ds2 = ds).
  { destruct Ha1 as [_ Hd]. congruence. }
  subst ds1 ds2.
  exists st1, r, r1, cmds. split_and!; try done.
  - intros pre c post Hsig. rewrite Hsig in H1.
    apply notify_all_app in H1 as (stc & Hpre & _).
    exists stc. split; [done|].
    by destruct (listeners_keep_association _ _ _ ds w _ Ha0 Hj0 Hpre).
  - rewrite Hj1. unfold log. simpl. by rewrite <- app_assoc.
  - unfold desktop_surface_removed. unfold user_data_of in Hnull.
    destruct (desktop_surfaces st' !! ds) as [d|]; simplify_eq/=.
    by rewrite Hnull.
Qed.

Lemma destroy_emits_then_unlinks_witness :
  ∃ st', kiosk_shell_surface_destroy Demo.family_state 1 = Some st' ∧
         user_data_of st' 10 = Some None ∧
         desktop_surface_removed st' 10 = Some st'.
Proof.
  eexists. split; [vm_compute; reflexivity|].
  edestruct (destroy_emits_then_unlinks Demo.family_state 1 10)
    as (st1 & r & r1 & cmds & _ & _ & _ & _ & _ & _ & _ & Hnull & _ & Hagain);
    [split; vm_compute; reflexivity | vm_compute; reflexivity |].
  split; [exact Hnull | exact Hagain].
Defined.

(** In the session, the root window 1 is destroyed; the parent-destroy
    listener of its child 2 is linked into its destroy signal.  After the
    whole emission the desktop surface 10 still points to the record 1, and
    the nulling of the association is journalled after the emission, not
    before it. *)
Lemma destroy_signal_emitted_while_associated :
  associated Demo.family_state 10 1 ∧
  shsurf_destroy_signal <$> surfaces Demo.family_state !! 1 = Some [2] ∧
  (st1 ← emit_destroy_signal Demo.family_state 1;
   weston_desktop_surface_get_user_data st1 10) = Some 1 ∧
  precedes (SetUserData 10 None) (EmitDestroy 1) ∘ journal
    <$> kiosk_shell_surface_destroy Demo.family_state 1 = Some false ∧
  precedes (EmitDestroy 1) (SetUserData 10 None) ∘ journal
    <$> kiosk_shell_surface_destroy Demo.family_state 1 = Some true.
Proof. split_and!; by vm_compute. Qed.

(** ** The best-output policy as a function of its inputs *)

(** X4. The result of [kiosk_shell_surface_find_best_output] is determined
    by the outputs, desktop surfaces and parents of the side records, the
    application identifiers, the list of registered outputs with their
    affinity lists, the focused output and the default output: two states
    that agree on these give the same result for every window. *)
Theorem find_best_output_inputs st st' w :
  same_policy_inputs st st' →
  kiosk_shell_surface_find_best_output st' w =
  kiosk_shell_surface_find_best_output st w.
Proof. apply find_best_output_frame. Qed.

Lemma find_best_output_inputs_witness :
  kiosk_shell_surface_find_best_output Demo.focused_state 3 =
  kiosk_shell_surface_find_best_output Demo.mapped_state 3.
Proof.
  apply (find_best_output_inputs Demo.mapped_state Demo.focused_state 3).
  split_and!; try reflexivity; intros x; rewrite <- !lookup_fmap;
    apply (f_equal (λ m, m !! x)); vm_compute; reflexivity.
Defined.

(** ** Allocation failure *)

(** When [zalloc] fails in [kiosk_shell_surface_create],
    [desktop_surface_added] reports it to the client if there is one and
    logs it otherwise, and returns; the view that was created before the
    allocation stays. *)
Lemma surface_added_without_memory shell ds v wl_client d :
  desktop_surfaces shell !! ds = Some d →
  desktop_surface_added shell ds (Some v) None wl_client =
    Some (log (if wl_client then PostNoMemory else LogNoMemory)
            (with_views (<[v := {| view_surface := ds_surface d;
                                   view_is_mapped := false |}]> (views shell))
               shell)).
Proof.
  intros Hd. unfold desktop_surface_added, kiosk_shell_surface_create.
  rewrite Hd. by destruct wl_client.
Qed.

(** X5. A desktop surface without side record, which is what a failed
    allocation in [kiosk_shell_surface_create] leaves behind: the failed
    [desktop_surface_added] reports the failure, makes no side record and
    issues no placement command, but leaves the view it created; the
    removal of the surface is tolerated and changes nothing; a set-parent,
    fullscreen or maximize request for it dereferences the missing record
    and has no result; and as the parent of another window it counts as no
    parent, so that window is made a fullscreen root. *)
Theorem callbacks_without_side_record st ds d :
  desktop_surfaces st !! ds = Some d → ds_user_data d = None →
  (∀ v wl_client,
     ∃ st1, desktop_surface_added st ds (Some v) None wl_client = Some st1 ∧
            surfaces st1 = surfaces st ∧
            desktop_surfaces st1 = desktop_surfaces st ∧
            journal st1 =
              journal st ++ [if wl_client then PostNoMemory else LogNoMemory] ∧
            is_Some (views st1 !! v)) ∧
  desktop_surface_removed st ds = Some st ∧
  (∀ parent, desktop_surface_set_parent st ds parent = None) ∧
  (∀ fullscreen output,
     desktop_surface_fullscreen_requested st ds fullscreen output = None) ∧
  (∀ maximized, desktop_surface_maximized_requested st ds maximized = None) ∧
  (∀ child dc w,
     desktop_surfaces st !! child = Some dc → ds_user_data dc = Some w →
     desktop_surface_set_parent st child (Some ds) =
     kiosk_shell_surface_set_parent st w None).
Proof.
  intros Hd Hu. split_and!.
  - intros v wl_client. eexists. split.
    + by apply surface_added_without_memory.
    + split_and!; simpl; try done; try (by destruct wl_client).
      rewrite lookup_insert_eq. eauto.
  - unfold desktop_surface_removed. rewrite Hd. simpl. by rewrite Hu.
  - intros parent. unfold desktop_surface_set_parent,
      weston_desktop_surface_get_user_data. rewrite Hd. simpl. by rewrite Hu.
  - intros fullscreen output. unfold desktop_surface_fullscreen_requested,
      weston_desktop_surface_get_user_data. rewrite Hd. simpl. by rewrite Hu.
  - intros maximized. unfold desktop_surface_maximized_requested,
      weston_desktop_surface_get_user_data. rewrite Hd. simpl. by rewrite Hu.
  - intros child dc w Hdc Hw. unfold desktop_surface_set_parent,
      weston_desktop_surface_get_user_data. rewrite Hdc, Hd. simpl.
    by rewrite Hw, Hu.
Qed.

Lemma callbacks_without_side_record_witness :
  ∃ st1,
    desktop_surface_added Demo.root_state 11 (Some 21) None false = Some st1 ∧
    journal st1 = journal Demo.root_state ++ [LogNoMemory] ∧
    desktop_surface_removed st1 11 = Some st1 ∧
    desktop_surface_fullscreen_requested st1 11 true None = None ∧
    desktop_surface_set_parent st1 10 (Some 11) =
      kiosk_shell_surface_set_parent st1 1 None.
Proof.
  destruct (callbacks_without_side_record Demo.root_state 11
              (Demo.fresh_desktop_surface None 101))
    as (Hadd & _); [vm_compute; reflexivity | reflexivity |].
  destruct (Hadd 21 false) as (st1 & Hst1 & Hs & Hd & Hj & _).
  exists st1. split; [done|]. split; [done|].
  destruct (callbacks_without_side_record st1 11
              (Demo.fresh_desktop_surface None 101))
    as (_ & Hrem & _ & Hfs & _ & Hpar);
    [rewrite Hd; vm_compute; reflexivity | reflexivity |].
  split_and!; [done | done |].
  apply (Hpar 10 (default (Demo.fresh_desktop_surface None 0)
                    (desktop_surfaces Demo.root_state !! 10)));
    [rewrite Hd; vm_compute; reflexivity | vm_compute; reflexivity].
Defined.

(** ** An output is destroyed *)

Lemma notify_output_destroy_all l st :
  (∀ w, w ∈ l → is_Some (surfaces st !! w)) →
  ∃ st', notify_all kiosk_shell_surface_notify_output_destroy l st = Some st' ∧
         st' = with_surfaces (surfaces st') st ∧
         ∀ w, surfaces st' !! w =
              (λ r, if decide (w ∈ l) then bound_to None r else r) <$> surfaces st !! w.
Proof.
  revert st. induction l as [|c l IH]; intros st Hl; cbn [notify_all].
  - exists st. split_and!; [done | by destruct st |].
    intros w. destruct (surfaces st !! w) as [r|]; [|done].
    change (Some r = Some (if decide (w ∈ []) then bound_to None r else r)).
    by rewrite decide_False by apply not_elem_of_nil.
  - change (kiosk_shell_surface_notify_output_destroy st c)
      with (kiosk_shell_surface_set_output st c None).
    rewrite set_output_closed.
    destruct (Hl c) as [r Hr]; [by left|]. rewrite Hr. simpl.
    destruct (IH (with_surfaces (<[c := bound_to None r]> (surfaces st)) st))
      as (st' & -> & Hst' & Hlook).
    { intros w Hw. simpl. destruct (decide (w = c)) as [->|].
      - rewrite lookup_insert_eq. eauto.
      - rewrite lookup_insert_ne by done. apply Hl. by right. }
    exists st'. split_and!; [done | by rewrite Hst' |].
    intros w. rewrite Hlook. simpl.
    destruct (decide (w = c)) as [->|Hne].
    + rewrite lookup_insert_eq, Hr. simpl.
      rewrite (decide_True (P := c ∈ c :: l)) by by left.
      by case_decide.
    + rewrite lookup_insert_ne by done. destruct (surfaces st !! w); simpl; [|done].
      f_equal.
      destruct (decide (w ∈ c :: l)) as [Hin|Hin], (decide (w ∈ l)) as [Hin'|Hin'];
        try done; exfalso.
      * by apply elem_of_cons in Hin as [?|?].
      * apply Hin. by right.
Qed.

Lemma elem_of_output_destroy_listeners st o w :
  w ∈ output_destroy_listeners st o ↔
  ∃ r, surfaces st !! w = Some r ∧ listens_to o r.
Proof.
  unfold output_destroy_listeners. rewrite list_elem_of_fmap. split.
  - intros ([w' r] & -> & [H Hin%elem_of_map_to_list]%list_elem_of_filter).
    by exists r.
  - intros (r & Hr & H). exists (w, r). split; [done|].
    apply list_elem_of_filter. split; [done|]. by apply elem_of_map_to_list.
Qed.

(** The side records after the destruction of an output. *)
Lemma handle_output_destroyed_closed st o :
  ∃ st',
    handle_output_destroyed st o = Some st' ∧
    (∀ w, surfaces st' !! w = unbound o <$> surfaces st !! w) ∧
    outputs st' = delete o (outputs st) ∧
    output_list st' =
      filter (λ so, shoutput_output so ≠ Some o) (output_list st) ∧
    desktop_surfaces st' = desktop_surfaces st ∧
    journal st' = journal st.
Proof.
  unfold handle_output_destroyed.
  destruct (notify_output_destroy_all (output_destroy_listeners st o) st)
    as (st1 & -> & Hst1 & Hlook).
  { intros w (r & Hr & _)%elem_of_output_destroy_listeners. eauto. }
  simpl. eexists. split; [done|].
  split_and!; simpl; try (by rewrite Hst1).
  intros w. rewrite Hlook. destruct (surfaces st !! w) as [r|] eqn:Hr; simpl; [|done].
  f_equal. unfold unbound.
  destruct (decide (w ∈ output_destroy_listeners st o)) as [Hin|Hin],
    (decide (listens_to o r)) as [Hb|Hb]; try done.
  - apply elem_of_output_destroy_listeners in Hin as (r' & Hr' & H). congruence.
  - exfalso. apply Hin. apply elem_of_output_destroy_listeners. eauto.
Qed.

(** X6. The destruction of an output always runs to completion.  Every
    side record whose output-destroy listener is linked to that output
    loses its output and its listener, no other side record changes, no
    window is placed anew and no command is issued; the output and its
    [kiosk_shell_output] are gone.  When every bound record has its listener
    linked, as [kiosk_shell_surface_set_output] leaves it, no window is
    bound to the destroyed output afterwards. *)
Theorem output_destroyed_unbinds st o :
  ∃ st',
    handle_output_destroyed st o = Some st' ∧
    (∀ w, surfaces st' !! w = unbound o <$> surfaces st !! w) ∧
    outputs st' = delete o (outputs st) ∧
    Forall (λ so, shoutput_output so ≠ Some o) (output_list st') ∧
    desktop_surfaces st' = desktop_surfaces st ∧
    journal st' = journal st ∧
    (outputs_listened st →
     ∀ w r, surfaces st' !! w = Some r → shsurf_output r ≠ Some o).
Proof.
  destruct (handle_output_destroyed_closed st o)
    as (st' & Hst' & Hsurf & Ho & Hl & Hd & Hj).
  exists st'. split_and!; try done.
  - rewrite Hl. apply list.Forall_forall. by intros so [H _]%list_elem_of_filter.
  - intros Hwf w r'. rewrite Hsurf.
    destruct (surfaces st !! w) as [r|] eqn:Hr; simpl; [|done].
    intros [= <-]. unfold unbound. case_decide as Hc; [done|].
    intros Hout. apply Hc. split; [done|]. apply (Hwf w r Hr). by rewrite Hout.
Qed.

Lemma output_destroyed_unbinds_witness :
  ∃ st', step Demo.root_state (OutputDestroyed 2) = Some st' ∧
         ∀ w r, surfaces st' !! w = Some r → shsurf_output r ≠ Some 2.
Proof.
  destruct (output_destroyed_unbinds Demo.root_state 2)
    as (st' & Hst' & _ & _ & _ & _ & _ & Hno).
  exists st'. split; [exact Hst'|]. apply Hno.
  refine (bool_decide_unpack _ _). vm_compute. exact I.
Defined.

(** ** The scenarios of the specification, in the session *)

(** Scenario A.  With two registered outputs, the second of which lists
    "kiosk-app", adding a root window with that application identifier
    binds it to the second output and makes it fullscreen with the size of
    that output. *)
Theorem scenario_designated_output :
  ∃ st r d,
    step Demo.initial Demo.add_first = Some st ∧
    surfaces st !! 1 = Some r ∧ desktop_surfaces st !! 10 = Some d ∧
    shsurf_parent r = None ∧ shsurf_output r = Some 2 ∧
    placement_of d = Fullscreen ∧ ds_size d = (1280%Z, 720%Z).
Proof. do 3 eexists. split_and!; vm_compute; reflexivity. Qed.

(** Scenario B.  When the second window is made a child of the
    fullscreen root window, the child is in the normal placement with size
    (0,0) and is bound at once to the output of its root ancestor; the root
    window stays fullscreen on its output. *)
Theorem scenario_child_window :
  ∃ st parent child dp dc,
    run Demo.initial [Demo.add_first; Demo.add_second; Demo.make_child] = Some st ∧
    surfaces st !! 1 = Some parent ∧ surfaces st !! 2 = Some child ∧
    desktop_surfaces st !! 10 = Some dp ∧ desktop_surfaces st !! 11 = Some dc ∧
    shsurf_parent child = Some 1 ∧ placement_of dc = Normal ∧
    ds_size dc = (0%Z, 0%Z) ∧ shsurf_output child = shsurf_output parent ∧
    shsurf_output parent = Some 2 ∧ placement_of dp = Fullscreen.
Proof. do 5 eexists. split_and!; vm_compute; reflexivity. Qed.

(** Scenario D.  When the output of the fullscreen root window is
    destroyed the window is left without output; the next
    [kiosk_shell_surface_set_fullscreen] without output binds it to the
    default output, no output being focused, and sizes it to that output. *)
Theorem scenario_output_destroyed :
  ∃ st1 st2 r1 r2 d2,
    step Demo.root_state (OutputDestroyed 2) = Some st1 ∧
    surfaces st1 !! 1 = Some r1 ∧ shsurf_output r1 = None ∧
    kiosk_shell_surface_set_fullscreen st1 1 None = Some st2 ∧
    surfaces st2 !! 1 = Some r2 ∧ shsurf_output r2 = default_output st1 ∧
    shsurf_output r2 = Some 1 ∧
    desktop_surfaces st2 !! 10 = Some d2 ∧
    placement_of d2 = Fullscreen ∧ ds_size d2 = (1920%Z, 1080%Z).
Proof. do 5 eexists. split_and!; vm_compute; reflexivity. Qed.

(** Scenario C.  Seat 1 focuses the child window; when the child is
    removed, the focus successor is the view of its mapped parent, although
    the view of an unrelated window is above it in the layer, and the
    removal activates that view on seat 1 before the side record is
    destroyed.  The keyboard-focus event that follows raises the focus count
    of the parent to 1 and activates it. *)
Theorem scenario_child_removed :
  ∃ st0 st1 st2 r1,
    parent_of Demo.mapped_state 2 = Some (Some 1) ∧
    run Demo.mapped_state [KeyboardFocus 1 (Some 101)] = Some st0 ∧
    normal_layer st0 = [22; 21; 20] ∧
    find_focus_successor st0 (normal_layer st0) 2 = Some (Some 20) ∧
    view_surface <$> views st0 !! 20 = Some 100 ∧
    step st0 (SurfaceRemoved 11) = Some st1 ∧
    journal st1 =
      journal st0 ++ [ViewActivate 20 1 0; EmitDestroy 2; SetUserData 11 None;
                      UnlinkView 21; ViewDestroy 21; Free 2] ∧
    surfaces st1 !! 2 = None ∧
    step st1 (KeyboardFocus 1 (Some 100)) = Some st2 ∧
    surfaces st2 !! 1 = Some r1 ∧ shsurf_focus_count r1 = 1%Z ∧
    journal st2 = journal st1 ++ [SetActivated 10 true].
Proof. do 4 eexists. split_and!; vm_compute; reflexivity. Qed.

(** ** A cycle of parents *)

Lemma parent_path_chain heap w k x m root :
  parent_path heap w k x → parent_chain heap w m root →
  ∃ m', m = k + m' ∧ parent_chain heap x m' root.
Proof.
  intros H. revert m. induction H as [w | w r p n x Hw Hp _ IH]; intros m Hc.
  - by exists m.
  - inversion Hc; simplify_eq.
    destruct (IH _ ltac:(eassumption)) as (m' & -> & Hc').
    by exists m'.
Qed.

(** X7. [kiosk_shell_surface_set_parent] stores the parent it is given
    without looking at the chain above it.  For a window that is its own
    ancestor the loop of [kiosk_shell_surface_get_parent_root] never
    reaches a record without parent: the function has no result, and neither
    has [find_focus_successor], which calls it first. *)
Theorem parent_cycle_no_root st w n :
  parent_path (surfaces st) w (S n) w →
  kiosk_shell_surface_get_parent_root st w = None ∧
  ∀ layer, find_focus_successor st layer w = None.
Proof.
  intros Hcycle.
  assert (Hnone : kiosk_shell_surface_get_parent_root st w = None).
  { destruct (kiosk_shell_surface_get_parent_root st w) as [root|] eqn:Hroot;
      [|done].
    apply get_parent_root_spec in Hroot as [m Hc].
    destruct (parent_path_chain _ _ _ _ _ _ Hcycle Hc) as (m' & -> & Hc').
    destruct (parent_chain_det _ _ _ _ _ _ Hc Hc'). lia. }
  split; [done|]. intros layer. unfold find_focus_successor. by rewrite Hnone.
Qed.

Lemma parent_cycle_no_root_witness :
  run Demo.family_state [SetParent 10 (Some 11)] = Some Demo.cyclic_state ∧
  kiosk_shell_surface_get_parent_root Demo.cyclic_state 2 = None ∧
  step Demo.cyclic_state (SurfaceRemoved 11) = None.
Proof.
  split; [vm_compute; reflexivity|].
  destruct (parent_cycle_no_root Demo.cyclic_state 2 1) as [Hroot Hsucc].
  - eapply parent_path_step; [vm_compute; reflexivity | reflexivity |].
    eapply parent_path_step; [vm_compute; reflexivity | reflexivity |].
    apply parent_path_here.
  - split; [exact Hroot|].
    change (step Demo.cyclic_state (SurfaceRemoved 11))
      with (desktop_surface_removed Demo.cyclic_state 11).
    unfold desktop_surface_removed.
    destruct (desktop_surfaces Demo.cyclic_state !! 11) as [d|] eqn:Hd; [|done].
    vm_compute in Hd. injection Hd as <-.
    cbn [mbind option_bind ds_user_data]. by rewrite Hsucc.
Defined.

(** ** [kiosk_shell_surface_set_parent] *)















(** ** Bound outputs stay live *)

Lemma binding_kept_refl w st : binding_kept w st st.
Proof. done. Qed.

Lemma binding_kept_trans w a b c :
  binding_kept w a b → binding_kept w b c → binding_kept w a c.
Proof.
  intros [O1 H1] [O2 H2]. split; [congruence|].
  intros x Hx. by rewrite H2, H1.
Qed.

Lemma binding_kept_weaken w a b : binding_kept None a b → binding_kept w a b.
Proof. intros [O H]. split; [done|]. intros x _. by apply H. Qed.

Lemma binding_kept_live st st' :
  binding_kept None st st' → outputs_bound_live st → outputs_bound_live st'.
Proof.
  intros [Ho Hk] Hinv x r' Hr'. specialize (Hk x ltac:(done)).
  rewrite Hr' in Hk. destruct (surfaces st !! x) as [r|] eqn:Hr; [|done].
  simpl in Hk. injection Hk as Hout Hl. specialize (Hinv x r Hr). simpl in Hinv.
  unfold bound_ok in *. by rewrite Ho, Hout, Hl.
Qed.

Lemma store_binding_kept w0 x f st r :
  surfaces st !! x = Some r →
  (w0 ≠ Some x → shsurf_output (f r) = shsurf_output r ∧
   shsurf_output_destroy_listener (f r) = shsurf_output_destroy_listener r) →
  binding_kept w0 st (with_surfaces (<[x := f r]> (surfaces st)) st).
Proof.
  intros Hr Hf. split; [done|]. intros y Hy. simpl.
  destruct (decide (y = x)) as [->|].
  - rewrite lookup_insert_eq, Hr. simpl. by destruct (Hf Hy) as [-> ->].
  - by rewrite lookup_insert_ne.
Qed.

Lemma update_shsurf_binding_kept w0 x f st st' :
  (w0 ≠ Some x → ∀ r, shsurf_output (f r) = shsurf_output r ∧
   shsurf_output_destroy_listener (f r) = shsurf_output_destroy_listener r) →
  update_shsurf x f st = Some st' → binding_kept w0 st st'.
Proof.
  intros Hf (r & Hr & ->)%update_shsurf_Some.
  apply store_binding_kept; [done|]. intros Hx. by apply Hf.
Qed.

Lemma alter_binding_kept w0 x f st :
  (∀ r, shsurf_output (f r) = shsurf_output r ∧
   shsurf_output_destroy_listener (f r) = shsurf_output_destroy_listener r) →
  binding_kept w0 st (with_surfaces (alter f x (surfaces st)) st).
Proof.
  intros Hf. split; [done|]. intros y _. simpl.
  rewrite lookup_alter. case_decide; [|done]. subst.
  destruct (surfaces st !! _) as [r|]; simpl; [|done]. by destruct (Hf r) as [-> ->].
Qed.

Lemma unlink_binding_kept w0 st c r :
  binding_kept w0 st (unlink_parent_destroy_listener st c r).
Proof.
  unfold unlink_parent_destroy_listener.
  destruct (shsurf_parent r); [|apply binding_kept_refl].
  by apply alter_binding_kept.
Qed.

Lemma desktop_command_binding_kept w0 ds f c st st' :
  desktop_command ds f c st = Some st' → binding_kept w0 st st'.
Proof. by intros (d & Hd & ->)%desktop_command_Some. Qed.

(** Binding the window [w] to a live output, or to none. *)
Lemma bind_live st w r chosen heap :
  outputs_bound_live st → surfaces st !! w = Some r → live_output st chosen →
  heap = <[w := bound_to chosen r]> (surfaces st) →
  ∀ st', surfaces st' = heap → outputs st' = outputs st → outputs_bound_live st'.
Proof.
  intros Hinv Hr Hlive -> st' Hs Ho x r'. rewrite Hs.
  destruct (decide (x = w)) as [->|].
  - rewrite lookup_insert_eq. intros [= <-]. unfold bound_ok, bound_to. simpl.
    rewrite Ho. by destruct chosen as [o|].
  - rewrite lookup_insert_ne by done. intros Hx. unfold bound_ok. rewrite Ho.
    by apply (Hinv x r' Hx).
Qed.

Lemma set_output_live st w o st' :
  outputs_bound_live st →
  kiosk_shell_surface_set_output st w o = Some st' → outputs_bound_live st'.
Proof.
  intros Hinv (r & Hr & Hlive & ->)%set_output_Some.
  by eapply (bind_live st w r o).
Qed.

Lemma set_fullscreen_live st w o st' :
  outputs_bound_live st →
  kiosk_shell_surface_set_fullscreen st w o = Some st' → outputs_bound_live st'.
Proof.
  intros Hinv (chosen & r & ds & d & _ & Hlive & Hr & _ & _ & ->)%set_fullscreen_Some.
  by eapply (bind_live st w r chosen).
Qed.

Lemma set_maximized_live st w st' :
  outputs_bound_live st →
  kiosk_shell_surface_set_maximized st w = Some st' → outputs_bound_live st'.
Proof.
  intros Hinv (chosen & r & ds & d & _ & Hlive & Hr & _ & _ & ->)%set_maximized_Some.
  by eapply (bind_live st w r chosen).
Qed.

Lemma set_normal_live st w st' :
  outputs_bound_live st →
  kiosk_shell_surface_set_normal st w = Some st' → outputs_bound_live st'.
Proof.
  intros Hinv (r & ds & d & heap & Hr & _ & _ & Hheap & ->)%set_normal_Some.
  unfold normal_heap in Hheap. destruct (shsurf_output r) eqn:Ho.
  - subst heap. intros x r' Hx. by apply (Hinv x r').
  - destruct Hheap as (chosen & _ & Hlive & ->).
    by eapply (bind_live st w r chosen).
Qed.

Lemma set_parent_live st w p st' :
  outputs_bound_live st →
  kiosk_shell_surface_set_parent st w p = Some st' → outputs_bound_live st'.
Proof.
  unfold kiosk_shell_surface_set_parent. intros Hinv H.
  bind_step H r Hr. bind_step H st1 H1. bind_step H st2 H2.
  assert (K1 : binding_kept None st st1).
  { destruct (shsurf_parent_destroy_listener r);
      [|injection H1 as <-; apply binding_kept_refl].
    eapply binding_kept_trans; [apply (unlink_binding_kept None st w r)|].
    by eapply update_shsurf_binding_kept; [|exact H1]. }
  assert (K2 : binding_kept None st1 st2)
    by (by eapply update_shsurf_binding_kept; [|exact H2]).
  assert (I2 : outputs_bound_live st2)
    by (eapply binding_kept_live; [|exact Hinv]; by eapply binding_kept_trans).
  destruct p as [q|].
  - bind_step H st3 H3. bind_step H st4 H4. bind_step H st5 H5.
    assert (K3 : binding_kept None st2 st3)
      by (by eapply update_shsurf_binding_kept; [|exact H3]).
    assert (K4 : binding_kept None st3 st4).
    { unfold link_parent_destroy_listener in H4.
      by eapply update_shsurf_binding_kept; [|exact H4]. }
    eapply set_normal_live; [|exact H].
    eapply set_output_live; [|exact H5].
    eapply binding_kept_live; [|exact I2]. by eapply binding_kept_trans.
  - bind_step H r2 Hr2. by eapply set_fullscreen_live.
Qed.

Lemma emit_destroy_signal_live st w st' :
  outputs_bound_live st →
  emit_destroy_signal st w = Some st' → outputs_bound_live st'.
Proof.
  unfold emit_destroy_signal. intros Hinv H. bind_step H r Hr.
  case_bool_decide; [done|].
  apply (notify_all_invariant kiosk_shell_surface_notify_parent_destroy
           outputs_bound_live) in H; [done| |done].
  intros sta c stb Ha (p & Hset)%notify_parent_destroy_acts_on.
  by eapply set_parent_live.
Qed.

Lemma binding_kept_delete st st' w :
  binding_kept (Some w) st st' → outputs_bound_live st →
  outputs_bound_live (with_surfaces (delete w (surfaces st')) st').
Proof.
  intros [Ho Hk] Hinv x r'. simpl.
  destruct (decide (x = w)) as [->|]; [by rewrite lookup_delete_eq|].
  rewrite lookup_delete_ne by done. intros Hr'.
  specialize (Hk x ltac:(congruence)).
  rewrite Hr' in Hk. destruct (surfaces st !! x) as [r|] eqn:Hr; [|done].
  simpl in Hk. injection Hk as Hout Hl. specialize (Hinv x r Hr). simpl in Hinv.
  unfold bound_ok in *. by rewrite Ho, Hout, Hl.
Qed.

Lemma destroy_teardown_live st w st' :
  outputs_bound_live st →
  destroy_teardown st w = Some st' → outputs_bound_live st'.
Proof.
  unfold destroy_teardown. intros Hinv H.
  bind_step H r Hr. bind_step H ds Hds. bind_step H st1 H1. bind_step H st2 H2.
  bind_step H r3 Hr3. bind_step H st4 H4. bind_step H st5 H5.
  injection H as <-.
  assert (K1 : binding_kept (Some w) st st1)
    by (by eapply desktop_command_binding_kept).
  assert (K2 : binding_kept (Some w) st1 st2)
    by (by eapply update_shsurf_binding_kept; [|exact H2]).
  set (st3 := weston_view_destroy (shsurf_view r)
                (weston_desktop_surface_unlink_view (shsurf_view r) st2)) in *.
  assert (K3 : binding_kept (Some w) st2 st3) by done.
  assert (K4 : binding_kept (Some w) st3 st4).
  { destruct (shsurf_output_destroy_listener r3).
    - by eapply update_shsurf_binding_kept; [|exact H4].
    - injection H4 as <-. apply binding_kept_refl. }
  assert (K5 : binding_kept (Some w) st4 st5).
  { destruct (shsurf_parent_destroy_listener r3).
    - bind_step H5 st4' H4'.
      eapply binding_kept_trans; [apply (unlink_binding_kept _ st4 w r3)|].
      eapply binding_kept_trans; by eapply update_shsurf_binding_kept.
    - injection H5 as <-. apply binding_kept_refl. }
  assert (K : binding_kept (Some w) st st5) by eauto using binding_kept_trans.
  apply (binding_kept_delete st st5 w K Hinv).
Qed.

Lemma surface_destroy_live st w st' :
  outputs_bound_live st →
  kiosk_shell_surface_destroy st w = Some st' → outputs_bound_live st'.
Proof.
  unfold kiosk_shell_surface_destroy. intros Hinv H. bind_step H st1 H1.
  eapply destroy_teardown_live; [|exact H]. by eapply emit_destroy_signal_live.
Qed.

Lemma refocus_seats_binding_kept fv surface st :
  binding_kept None st (refocus_seats fv surface st).
Proof.
  unfold refocus_seats. generalize (seat_list st) as l. intros l.
  assert (H : ∀ st0, binding_kept None st st0 →
    binding_kept None st
      (foldl (λ shell seat,
                match keyboard_focus shell !! seat with
                | Some focus =>
                    if bool_decide (focus = Some surface)
                    then weston_view_activate fv seat 0 shell
                    else shell
                | None => shell
                end) st0 l)); [|apply H, binding_kept_refl].
  induction l as [|seat l IH]; intros st0 H0; simpl; [done|].
  apply IH. destruct (keyboard_focus st0 !! seat) as [focus|]; [|done].
  by case_bool_decide.
Qed.

Lemma surface_removed_live st ds st' :
  outputs_bound_live st →
  desktop_surface_removed st ds = Some st' → outputs_bound_live st'.
Proof.
  unfold desktop_surface_removed. intros Hinv H. bind_step H d Hd.
  destruct (ds_user_data d) as [w|]; [|by injection H as <-].
  bind_step H fv Hfv.
  eapply surface_destroy_live; [|exact H].
  destruct fv; [|done].
  eapply binding_kept_live; [apply refocus_seats_binding_kept | done].
Qed.

Lemma surface_added_live st ds view alloc wl_client st' :
  outputs_bound_live st →
  desktop_surface_added st ds view alloc wl_client = Some st' →
  outputs_bound_live st'.
Proof.
  intros Hinv. unfold desktop_surface_added. intros H.
  destruct (kiosk_shell_surface_create st ds view alloc wl_client)
    as [[st1 shsurf]|] eqn:Hc; simpl in H; [|done].
  assert (I1 : outputs_bound_live st1).
  { unfold kiosk_shell_surface_create in Hc.
    destruct view as [v|]; [|by injection Hc as <- <-].
    bind_step Hc d Hd. destruct alloc as [w|]; [|by injection Hc as <- <-].
    bind_step Hc st0 H0. injection Hc as <- <-.
    apply desktop_command_Some in H0 as (d0 & _ & ->).
    intros x r'. unfold log. simpl.
    destruct (decide (x = w)) as [->|].
    - rewrite lookup_insert_eq. by intros [= <-].
    - rewrite lookup_insert_ne by done. apply Hinv. }
  destruct shsurf as [w|]; [|by injection H as <-].
  bind_step H st2 H2. bind_step H r Hr. injection H as <-.
  rewrite activate_on_all_seats_journal.
  by apply (set_fullscreen_live _ _ _ _ I1) in H2.
Qed.

Lemma focus_leave_binding_kept st old st' :
  focus_leave st old = Some st' → binding_kept None st st'.
Proof.
  unfold focus_leave. intros H.
  destruct old as [s|]; [|by injection H as <-].
  destruct (get_kiosk_shell_surface st s) as [w|]; [|by injection H as <-].
  bind_step H r Hr. bind_step H st1 H1.
  assert (S1 : binding_kept None st st1)
    by (by eapply update_shsurf_binding_kept; [|exact H1]).
  case_bool_decide; [|by injection H as <-].
  bind_step H ds Hds. eapply binding_kept_trans; [exact S1|].
  by eapply desktop_command_binding_kept.
Qed.

Lemma focus_enter_binding_kept st new st' :
  focus_enter st new = Some st' → binding_kept None st st'.
Proof.
  unfold focus_enter. intros H.
  destruct new as [s|]; [|by injection H as <-].
  destruct (get_kiosk_shell_surface st s) as [w|]; [|by injection H as <-].
  bind_step H r Hr. bind_step H st1 H1.
  assert (S1 : binding_kept None st st1)
    by (by eapply update_shsurf_binding_kept; [|exact H1]).
  case_bool_decide; [|by injection H as <-].
  bind_step H ds Hds. eapply binding_kept_trans; [exact S1|].
  by eapply desktop_command_binding_kept.
Qed.

Lemma keyboard_focus_binding_kept st seat focus st' :
  kiosk_shell_seat_handle_keyboard_focus st seat focus = Some st' →
  binding_kept None st st'.
Proof.
  unfold kiosk_shell_seat_handle_keyboard_focus. intros H.
  bind_step H shseat Hs. bind_step H st1 H1.
  eapply binding_kept_trans; [by eapply focus_leave_binding_kept|].
  apply focus_enter_binding_kept in H. exact H.
Qed.

Lemma output_destroyed_live st o st' :
  outputs_bound_live st →
  handle_output_destroyed st o = Some st' → outputs_bound_live st'.
Proof.
  intros Hinv H.
  destruct (handle_output_destroyed_closed st o) as (st'' & H' & Hs & Ho & _).
  rewrite H in H'. injection H' as <-.
  intros x r'. rewrite Hs.
  destruct (surfaces st !! x) as [r|] eqn:Hr; simpl; [|done].
  intros [= <-]. specialize (Hinv x r Hr). simpl in Hinv.
  unfold unbound, bound_ok in *. rewrite Ho.
  case_decide as Hl; [done|].
  destruct (shsurf_output r) as [o'|] eqn:Hout; [|done].
  destruct Hinv as [Hlive Hlisten]. split; [|done].
  rewrite lookup_delete_ne; [done|].
  intros ->. apply Hl. by split.
Qed.

Lemma step_bound_live st e st' :
  outputs_bound_live st → step st e = Some st' → outputs_bound_live st'.
Proof.
  intros Hinv H. destruct e; simpl in H.
  - by eapply surface_added_live.
  - by eapply surface_removed_live.
  - unfold desktop_surface_set_parent in H. bind_step H w Hw.
    by eapply set_parent_live.
  - unfold desktop_surface_fullscreen_requested in H.
    bind_step H w Hw. bind_step H r Hr.
    destruct (bool_decide (shsurf_parent r = None) || fullscreen).
    + by eapply set_fullscreen_live.
    + by eapply set_normal_live.
  - unfold desktop_surface_maximized_requested in H.
    bind_step H w Hw. bind_step H r Hr.
    destruct (bool_decide (shsurf_parent r = None)).
    + by eapply set_fullscreen_live.
    + destruct maximized; [by eapply set_maximized_live | by eapply set_normal_live].
  - apply keyboard_focus_binding_kept in H.
    by apply (binding_kept_live _ _ H).
  - injection H as <-. unfold kiosk_shell_seat_create. by destruct alloc.
  - by injection H as <-.
  - injection H as <-.
    assert (Hs : surfaces (kiosk_shell_output_create
               (with_outputs (<[output:=o]> (outputs st)) st) output app_ids alloc)
             = surfaces st)
      by (unfold kiosk_shell_output_create; by destruct alloc).
    assert (Ho : outputs (kiosk_shell_output_create
               (with_outputs (<[output:=o]> (outputs st)) st) output app_ids alloc)
             = <[output:=o]> (outputs st))
      by (unfold kiosk_shell_output_create; by destruct alloc).
    intros x r. rewrite Hs. intros Hr. specialize (Hinv x r Hr). simpl in Hinv.
    unfold bound_ok in *. rewrite Ho.
    destruct (shsurf_output r) as [o'|]; [|done].
    destruct Hinv as [Hlive ?]. split; [|done].
    destruct (decide (o' = output)) as [->|].
    + rewrite lookup_insert_eq. eauto.
    + by rewrite lookup_insert_ne.
  - by eapply output_destroyed_live.
Qed.

(** X10. No window is ever left pointing at a destroyed output.  If every
    side record is bound to a live output with its output-destroy listener
    linked, or to no output with the listener unlinked, then this still
    holds after every run of events that returns: surfaces added and
    removed (with the re-parenting of the children), set parent, fullscreen
    and maximize requests, keyboard focus, seats and outputs created and
    destroyed. *)
Theorem bound_outputs_stay_live st es st' :
  outputs_bound_live st → run st es = Some st' → outputs_bound_live st'.
Proof.
  revert st. induction es as [|e es IH]; intros st Hinv H; simpl in H.
  - by injection H as <-.
  - bind_step H st1 H1. eapply IH; [|exact H]. by eapply step_bound_live.
Qed.

Lemma bound_outputs_stay_live_witness :
  ∃ st',
    run Demo.initial
      [Demo.add_first; Demo.add_second; Demo.make_child; OutputDestroyed 2;
       Demo.add_third; SurfaceRemoved 10] = Some st' ∧
    outputs_bound_live st' ∧ outputs st' !! 2 = None.
Proof.
  pose (es := [Demo.add_first; Demo.add_second; Demo.make_child; OutputDestroyed 2;
               Demo.add_third; SurfaceRemoved 10]).
  pose (st' := default Demo.initial (run Demo.initial es)).
  assert (Hrun : run Demo.initial es = Some st') by (vm_compute; reflexivity).
  exists st'. split; [exact Hrun|]. split.
  - apply (bound_outputs_stay_live Demo.initial es st'); [|exact Hrun].
    refine (bool_decide_unpack _ _). vm_compute. exact I.
  - vm_compute. reflexivity.
Defined.

(** ** Activation follows the focus count *)

Lemma activated_when_focused_obs st :
  activated_when_focused st ↔
  ∀ w r ds d, surfaces st !! w = Some r → shsurf_desktop_surface r = Some ds →
              desktop_surfaces st !! ds = Some d →
              ds_activated d = bool_decide (0 < shsurf_focus_count r)%Z.
Proof.
  unfold activated_when_focused, desktop_of. split.
  - intros H w r ds d Hr Hds Hd. specialize (H w r Hr). simpl in H.
    by rewrite Hr in H; simpl in H; rewrite Hds in H; simpl in H; rewrite Hd in H.
  - intros H w r Hr. rewrite Hr. simpl.
    destruct (shsurf_desktop_surface r) as [ds|] eqn:Hds; simpl; [|done].
    destruct (desktop_surfaces st !! ds) as [d|] eqn:Hd; [|done]. by eapply H.
Qed.

Lemma linked_injective st w w' r r' ds :
  linked st → surfaces st !! w = Some r → surfaces st !! w' = Some r' →
  shsurf_desktop_surface r = Some ds → shsurf_desktop_surface r' = Some ds →
  w = w'.
Proof.
  rewrite linked_obs. intros Hl Hr Hr' Hds Hds'.
  assert (H1 : user_data_of st ds = Some (Some w))
    by (apply Hl; unfold dsurf_of; by rewrite Hr; simpl; rewrite Hds).
  assert (H2 : user_data_of st ds = Some (Some w'))
    by (apply Hl; unfold dsurf_of; by rewrite Hr'; simpl; rewrite Hds').
  congruence.
Qed.

(** One half of the focus handler keeps the correspondence, provided the
    count it moves does not leave the naturals. *)
Lemma count_moved_activated st w r ds d delta (edge activated : bool) :
  linked st → activated_when_focused st →
  surfaces st !! w = Some r → shsurf_desktop_surface r = Some ds →
  desktop_surfaces st !! ds = Some d →
  (if edge
   then activated = bool_decide (0 < shsurf_focus_count r + delta)%Z
   else bool_decide (0 < shsurf_focus_count r + delta)%Z =
        bool_decide (0 < shsurf_focus_count r)%Z) →
  activated_when_focused (count_moved st w r ds d delta edge activated).
Proof.
  intros Hl Ha Hr Hds Hd Hedge. rewrite activated_when_focused_obs in Ha |- *.
  intros w' r' ds' d' Hr' Hds' Hd'.
  assert (Hsurf : surfaces (count_moved st w r ds d delta edge activated) =
                  <[w := with_shsurf_focus_count (shsurf_focus_count r + delta)%Z r]>
                    (surfaces st))
    by (unfold count_moved; by destruct edge).
  rewrite Hsurf in Hr'.
  destruct (decide (w' = w)) as [->|Hne].
  - rewrite lookup_insert_eq in Hr'. injection Hr' as <-. simpl in *.
    rewrite Hds in Hds'. injection Hds' as <-.
    unfold count_moved in Hd'. destruct edge; simpl in Hd'.
    + rewrite lookup_insert_eq in Hd'. injection Hd' as <-. done.
    + rewrite Hd in Hd'. injection Hd' as <-. rewrite Hedge. by eapply Ha.
  - rewrite lookup_insert_ne in Hr' by done.
    assert (ds' ≠ ds).
    { intros ->. apply Hne. by eapply (linked_injective st w' w r' r ds). }
    unfold count_moved in Hd'. destruct edge; simpl in Hd'.
    + rewrite lookup_insert_ne in Hd' by done. by eapply Ha.
    + by eapply Ha.
Qed.

Lemma count_moved_linked st w r ds d delta edge activated :
  linked st → surfaces st !! w = Some r → desktop_surfaces st !! ds = Some d →
  linked (count_moved st w r ds d delta edge activated).
Proof.
  rewrite !linked_obs. intros Hl Hr Hd x ds'.
  assert (Hdx : dsurf_of (count_moved st w r ds d delta edge activated) x =
                dsurf_of st x).
  { unfold dsurf_of, count_moved. destruct edge; simpl;
      (destruct (decide (x = w)) as [->|];
       [by rewrite lookup_insert_eq, Hr | by rewrite lookup_insert_ne]). }
  assert (Hux : user_data_of (count_moved st w r ds d delta edge activated) ds' =
                user_data_of st ds').
  { unfold user_data_of, count_moved. destruct edge; simpl; [|done].
    destruct (decide (ds' = ds)) as [->|];
      [by rewrite lookup_insert_eq, Hd | by rewrite lookup_insert_ne]. }
  rewrite Hdx, Hux. apply Hl.
Qed.

Lemma focus_seats_pos st seat shseat w :
  seats st !! seat = Some shseat →
  resolve st (shseat_focused_surface shseat) = Some w →
  0 < focus_seats st w.
Proof.
  intros Hs Hw. unfold focus_seats.
  assert (size (filter (λ kv : seat_ptr * kiosk_shell_seat,
                          resolve st (shseat_focused_surface kv.2) = Some w)
                       (seats st)) ≠ 0); [|lia].
  apply (map_size_ne_0_lookup_2 _ seat). exists shseat.
  by apply map_lookup_filter_Some.
Qed.

Lemma with_seats_activated x st :
  activated_when_focused st → activated_when_focused (with_seats x st).
Proof. done. Qed.

Lemma with_seats_linked x st : linked st → linked (with_seats x st).
Proof. done. Qed.

(** The focus handler keeps the correspondence between activation state
    and focus count. *)
Lemma keyboard_focus_activated st seat focus :
  resolvable st → linked st → focus_count_invariant st →
  activated_when_focused st → is_Some (seats st !! seat) →
  ∃ st', kiosk_shell_seat_handle_keyboard_focus st seat focus = Some st' ∧
         resolvable st' ∧ linked st' ∧ focus_count_invariant st' ∧
         activated_when_focused st' ∧
         ∀ s, is_Some (seats st' !! s) ↔ is_Some (seats st !! s).
Proof.
  intros Hres Hl Hinv Ha Hseat.
  destruct (keyboard_focus_preserves st seat focus Hres Hinv Hseat)
    as (st' & Hst' & Hres' & Hinv' & Hseats).
  exists st'. split; [done|]. split; [done|].
  assert (Hgoal : linked st' ∧ activated_when_focused st'); [|tauto].
  destruct Hseat as [shseat Hseat].
  unfold kiosk_shell_seat_handle_keyboard_focus in Hst'. rewrite Hseat in Hst'.
  simpl in Hst'. bind_step Hst' st1 H1.
  assert (Hleave : linked st1 ∧ activated_when_focused st1 ∧
                   (∀ x, resolve st1 x = resolve st x) ∧
                   ∀ w r1, surfaces st1 !! w = Some r1 →
                           (0 ≤ shsurf_focus_count r1)%Z).
  { destruct (resolve st (shseat_focused_surface shseat)) as [w|] eqn:Hw.
    - destruct (shseat_focused_surface shseat) as [s|] eqn:Hfs; [|done].
      destruct (resolvable_get st s w Hres Hw) as (r & ds & d & Hr & Hds & Hd).
      rewrite (focus_leave_Some st (Some s) w r ds d Hw Hr Hds Hd) in H1.
      injection H1 as <-.
      assert (Hc : (1 ≤ shsurf_focus_count r)%Z).
      { rewrite (Hinv w r Hr).
        pose proof (focus_seats_pos st seat shseat w Hseat) as Hpos.
        rewrite Hfs in Hpos. specialize (Hpos Hw). lia. }
      split_and!.
      + by apply count_moved_linked.
      + apply count_moved_activated; try done.
        case_bool_decide as He.
        * symmetry. apply bool_decide_eq_false. lia.
        * rewrite !bool_decide_eq_true_2; [done | lia | lia].
      + intros x. eapply focus_shift_resolve. by apply count_moved_shift.
      + intros w' r1 Hr1.
        assert (Hsurf : surfaces (count_moved st w r ds d (-1)
                          (bool_decide (shsurf_focus_count r - 1 = 0)%Z) false) =
                  <[w := with_shsurf_focus_count (shsurf_focus_count r + -1)%Z r]>
                    (surfaces st))
          by (unfold count_moved; by case_bool_decide).
        rewrite Hsurf in Hr1. destruct (decide (w' = w)) as [->|].
        * rewrite lookup_insert_eq in Hr1. injection Hr1 as <-. simpl. lia.
        * rewrite lookup_insert_ne in Hr1 by done. rewrite (Hinv w' r1 Hr1). lia.
    - rewrite (focus_leave_None st _ Hw) in H1. injection H1 as <-.
      split_and!; try done. intros w' r1 Hr1. rewrite (Hinv w' r1 Hr1). lia. }
  destruct Hleave as (Hl1 & Ha1 & Hres1 & Hnonneg).
  assert (Hresolvable1 : resolvable st1).
  { destruct (focus_leave_shift st (shseat_focused_surface shseat) Hres)
      as (st1' & Hst1' & Hshift).
    rewrite H1 in Hst1'. injection Hst1' as <-.
    by eapply focus_shift_resolvable. }
  set (fs := main_surface st1 <$> focus) in *.
  set (st2 := with_seats (<[seat:={| shseat_focused_surface := fs |}]> (seats st1)) st1) in *.
  destruct (resolve st2 fs) as [w|] eqn:Hw.
  - destruct fs as [s|] eqn:Hfs; [|done].
    destruct (resolvable_get st2 s w Hresolvable1 Hw) as (r & ds & d & Hr & Hds & Hd).
    rewrite (focus_enter_Some st2 (Some s) w r ds d Hw Hr Hds Hd) in Hst'.
    injection Hst' as <-.
    assert (Hc : (0 ≤ shsurf_focus_count r)%Z) by (by eapply Hnonneg).
    split.
    + by apply count_moved_linked.
    + apply count_moved_activated; try done.
      case_bool_decide as He.
      * symmetry. apply bool_decide_eq_true. lia.
      * rewrite !bool_decide_eq_true_2; [done | lia | lia].
  - rewrite (focus_enter_None st2 _ Hw) in Hst'. by injection Hst' as <-.
Qed.

(** X11. A window is marked activated exactly while some seat focuses
    it.  From a state in which the focus counts agree with the seats and
    the activation state of every window tells whether its count is
    positive, every sequence of keyboard-focus events runs to a state in
    which both hold again; the deactivation and activation that a refocus
    of the same window issues cancel. *)
Theorem activation_follows_focus_count st es :
  resolvable st → linked st → focus_count_invariant st →
  activated_when_focused st → Forall (focus_event st) es →
  ∃ st', run st es = Some st' ∧ focus_count_invariant st' ∧
         activated_when_focused st'.
Proof.
  intros Hres Hl Hinv Ha Hes. revert st Hres Hl Hinv Ha Hes.
  induction es as [|e es IH]; intros st Hres Hl Hinv Ha Hes; [by exists st|].
  apply Forall_cons in Hes as [He Hes].
  destruct e as [| | | | |seat focus| | | |]; try done. simpl in He |- *.
  destruct (keyboard_focus_activated
              (with_keyboard_focus (<[seat:=focus]> (keyboard_focus st)) st)
              seat focus Hres Hl Hinv Ha He)
    as (st1 & -> & Hres1 & Hl1 & Hinv1 & Ha1 & Hseats).
  simpl. apply IH; [done | done | done | done |].
  eapply Forall_impl; [exact Hes|]. intros e. by apply focus_event_seats.
Qed.

Lemma activation_follows_focus_count_witness :
  ∃ st', run Demo.mapped_state Demo.swaps = Some st' ∧ focus_count_invariant st' ∧
         activated_when_focused st'.
Proof.
  apply (activation_follows_focus_count Demo.mapped_state Demo.swaps).
  - refine (bool_decide_unpack _ _). vm_compute. exact I.
  - refine (bool_decide_unpack _ _). vm_compute. exact I.
  - refine (bool_decide_unpack _ _). vm_compute. exact I.
  - refine (bool_decide_unpack _ _). vm_compute. exact I.
  - repeat constructor; eexists; vm_compute; reflexivity.
Defined.

(** ** A surface is committed *)

Lemma scene_log_app s l c :
  with_scene (scene (scene_log s c) ++ l) (scene_log s c) =
  with_scene (scene c ++ s :: l) c.
Proof. unfold scene_log. simpl. by rewrite <- app_assoc. Qed.

Lemma float_of_int32_exact z :
  (Z.abs z ≤ 2 ^ 24)%Z → float_of_int32 z = z.
Proof.
  intros Hz. unfold float_of_int32. cbv zeta.
  destruct (decide (Z.abs z < 2 ^ 24)%Z) as [|Hge]; [done|].
  assert (z = 2 ^ 24 ∨ z = - 2 ^ 24)%Z as [-> | ->] by lia; by vm_compute.
Qed.

(** Above 2^24 the conversion rounds: to the even neighbour at a tie, and
    the largest [int] becomes 2^31. *)
Lemma float_of_int32_rounds :
  float_of_int32 16777217 = 16777216%Z ∧
  float_of_int32 16777219 = 16777220%Z ∧
  float_of_int32 (-16777217) = (-16777216)%Z ∧
  float_of_int32 2147483647 = 2147483648%Z.
Proof. by vm_compute. Qed.

(** The first commit of an unmapped window in closed form. *)
Lemma first_commit_closed c ds d ws w r cur v sx sy :
  desktop_surfaces (kiosk c) !! ds = Some d →
  weston_surfaces c !! ds_surface d = Some ws →
  surface_width ws ≠ 0%Z → surface_is_mapped ws = false →
  ds_user_data d = Some w → surfaces (kiosk c) !! w = Some r →
  current c !! ds = Some cur →
  views (kiosk c) !! shsurf_view r = Some v →
  shsurf_view r ∉ normal_layer (kiosk c) →
  (cur_maximized cur || cur_fullscreen cur || negb (xwayland_is_set (geometry_of c w))
   = false → position_in_range cur (geometry_of c w)) →
  ∃ c',
    desktop_surface_committed c ds sx sy = Some c' ∧
    normal_layer (kiosk c') = shsurf_view r :: normal_layer (kiosk c) ∧
    views (kiosk c') !! shsurf_view r =
      Some {| view_surface := view_surface v; view_is_mapped := true |} ∧
    weston_surfaces c' !! ds_surface d =
      Some {| surface_width := surface_width ws;
              surface_height := surface_height ws;
              surface_is_mapped := true |} ∧
    scene c' =
      scene c ++ [commit_position r cur (geometry_of c w);
                  ViewUpdateTransform (shsurf_view r)] ++
                 commit_offset r cur sx sy ∧
    geometry_of c' w = committed_size ws (geometry_of c w) ∧
    surfaces (kiosk c') = surfaces (kiosk c) ∧
    desktop_surfaces (kiosk c') = desktop_surfaces (kiosk c) ∧
    journal (kiosk c') = journal (kiosk c).
Proof.
  intros Hd Hws Hwidth Hmapped Hw Hr Hcur Hv Hfresh Hrange.
  unfold desktop_surface_committed. rewrite Hd. simpl. rewrite Hws. simpl.
  rewrite bool_decide_eq_false_2 by done. rewrite Hw. simpl. rewrite Hr. simpl.
  rewrite Hcur. simpl. rewrite Hmapped. simpl.
  set (g := geometry_of c w) in *.
  unfold commit_position, commit_offset, weston_layer_entry_insert.
  destruct (cur_maximized cur || cur_fullscreen cur) eqn:Hfs; simpl.
  - rewrite Hv. simpl. rewrite decide_False by done. simpl.
    eexists. split; [done|]. simpl.
    rewrite !lookup_insert_eq, <- !app_assoc. split_and!; try done.
    unfold geometry_of. simpl. by rewrite lookup_insert_eq.
  - destruct (xwayland_is_set g) eqn:Hset; simpl.
    + destruct Hrange as [Hx Hy]; [done|].
      unfold int32_sub. rewrite !decide_True by done. simpl.
      rewrite Hv. simpl. rewrite decide_False by done. simpl.
      destruct (bool_decide (sx ≠ 0%Z) || bool_decide (sy ≠ 0%Z)); simpl;
        (eexists; split; [done|]; simpl;
         rewrite !lookup_insert_eq, <- !app_assoc; split_and!; try done;
         unfold geometry_of, committed_size; simpl;
         by rewrite lookup_insert_eq, Hset).
    + rewrite Hv. simpl. rewrite decide_False by done. simpl.
      destruct (bool_decide (sx ≠ 0%Z) || bool_decide (sy ≠ 0%Z)); simpl;
        (eexists; split; [done|]; simpl;
         rewrite !lookup_insert_eq, <- !app_assoc; split_and!; try done;
         unfold geometry_of, committed_size; simpl;
         by rewrite lookup_insert_eq, Hset).
Qed.

(** X12. The first commit of an unmapped window whose surface has a
    non-zero width maps it: its view becomes the first of the normal layer,
    view and surface are marked mapped, and the view is centred on the
    output of the window, or, for a window that is neither fullscreen nor
    maximized and has an X11 position, put at that position less the origin
    of the window geometry, converted to [float]: exactly when the
    difference is at most 2^24 in magnitude, rounded otherwise.  A non-zero
    offset of a window that is neither fullscreen nor maximized moves the
    view.  The size is remembered, and no side record, desktop surface or
    command to the client changes. *)
Theorem first_commit_maps c ds d ws w r cur v sx sy :
  desktop_surfaces (kiosk c) !! ds = Some d →
  weston_surfaces c !! ds_surface d = Some ws →
  surface_width ws ≠ 0%Z → surface_is_mapped ws = false →
  ds_user_data d = Some w → surfaces (kiosk c) !! w = Some r →
  current c !! ds = Some cur →
  views (kiosk c) !! shsurf_view r = Some v →
  shsurf_view r ∉ normal_layer (kiosk c) →
  (cur_maximized cur || cur_fullscreen cur || negb (xwayland_is_set (geometry_of c w))
   = false → position_in_range cur (geometry_of c w)) →
  ∃ c',
    desktop_surface_committed c ds sx sy = Some c' ∧
    normal_layer (kiosk c') = shsurf_view r :: normal_layer (kiosk c) ∧
    views (kiosk c') !! shsurf_view r =
      Some {| view_surface := view_surface v; view_is_mapped := true |} ∧
    weston_surfaces c' !! ds_surface d =
      Some {| surface_width := surface_width ws;
              surface_height := surface_height ws;
              surface_is_mapped := true |} ∧
    scene c' =
      scene c ++ [commit_position r cur (geometry_of c w);
                  ViewUpdateTransform (shsurf_view r)] ++
                 commit_offset r cur sx sy ∧
    (cur_maximized cur || cur_fullscreen cur
       || negb (xwayland_is_set (geometry_of c w)) = true →
     commit_position r cur (geometry_of c w) =
       CenterOnOutput (shsurf_view r) (shsurf_output r)) ∧
    (cur_maximized cur || cur_fullscreen cur
       || negb (xwayland_is_set (geometry_of c w)) = false →
     position_exact cur (geometry_of c w) →
     commit_position r cur (geometry_of c w) =
       ViewSetPosition (shsurf_view r)
         (xwayland_x (geometry_of c w) - cur_geometry_x cur)
         (xwayland_y (geometry_of c w) - cur_geometry_y cur)) ∧
    geometry_of c' w = committed_size ws (geometry_of c w) ∧
    surfaces (kiosk c') = surfaces (kiosk c) ∧
    desktop_surfaces (kiosk c') = desktop_surfaces (kiosk c) ∧
    journal (kiosk c') = journal (kiosk c).
Proof.
  intros Hd Hws Hwidth Hmapped Hw Hr Hcur Hv Hfresh Hrange.
  destruct (first_commit_closed c ds d ws w r cur v sx sy
              Hd Hws Hwidth Hmapped Hw Hr Hcur Hv Hfresh Hrange)
    as (c' & Hc' & Hl & Hv' & Hws' & Hs & Hg & Hsf & Hds & Hj).
  exists c'. split_and!; try done.
  - unfold commit_position. by intros ->.
  - unfold commit_position, position_exact. intros -> [Hx Hy].
    by rewrite !float_of_int32_exact.
Qed.

Lemma first_commit_maps_witness :
  ∃ c',
    desktop_surface_set_xwayland_position Demo.windows 11 100 50 = Some Demo.positioned ∧
    desktop_surface_committed Demo.positioned 11 0 0 = Some c' ∧
    normal_layer (kiosk c') = [21] ∧
    scene c' = [ViewSetPosition 21 95 43; ViewUpdateTransform 21].
Proof.
  edestruct (first_commit_maps Demo.positioned 11) with (sx := 0%Z) (sy := 0%Z)
    as (c' & Hc' & Hl & _ & _ & Hs & _ & Hexact & _).
  - vm_compute; reflexivity.
  - vm_compute; reflexivity.
  - vm_compute; discriminate.
  - vm_compute; reflexivity.
  - vm_compute; reflexivity.
  - vm_compute; reflexivity.
  - vm_compute; reflexivity.
  - vm_compute; reflexivity.
  - vm_compute. apply not_elem_of_nil.
  - intros _. vm_compute. repeat split; discriminate.
  - exists c'. split; [vm_compute; reflexivity|]. split; [exact Hc'|].
    split; [exact Hl|].
    rewrite Hexact in Hs; [exact Hs | vm_compute; reflexivity |].
    split; vm_compute; discriminate.
Defined.


(** What a commit of a surface with non-zero width leaves. *)
Lemma committed_nonzero c ds sx sy c1 d ws :
  desktop_surfaces (kiosk c) !! ds = Some d →
  weston_surfaces c !! ds_surface d = Some ws →
  surface_width ws ≠ 0%Z →
  desktop_surface_committed c ds sx sy = Some c1 →
  ∃ w r cur c0,
    ds_user_data d = Some w ∧ surfaces (kiosk c) !! w = Some r ∧
    current c !! ds = Some cur ∧
    c1 = with_geometry (<[w := committed_size ws (geometry_of c w)]> (geometry c)) c0 ∧
    current c0 = current c ∧
    desktop_surfaces (kiosk c0) = desktop_surfaces (kiosk c) ∧
    surfaces (kiosk c0) = surfaces (kiosk c) ∧
    weston_surfaces c0 !! ds_surface d =
      Some {| surface_width := surface_width ws;
              surface_height := surface_height ws;
              surface_is_mapped := true |}.
Proof.
  intros Hd Hws Hwidth. unfold desktop_surface_committed.
  rewrite Hd. simpl. rewrite Hws. simpl.
  rewrite bool_decide_eq_false_2 by done. intros H.
  bind_step H w Hw. bind_step H r Hr. bind_step H cur Hcur.
  bind_step H ca Ha. bind_step H cb Hb. injection H as <-.
  assert (Ea : current ca = current c ∧ kiosk ca = kiosk c ∧
               weston_surfaces ca = weston_surfaces c ∧
               geometry ca = geometry c).
  { match type of Ha with (if ?b then _ else _) = _ => destruct b end;
      [|by injection Ha as <-].
    bind_step Ha ca' Ha'. injection Ha as <-.
    match type of Ha' with (if ?b then _ else _) = _ => destruct b end;
      [by injection Ha' as <-|].
    bind_step Ha' x Hx. bind_step Ha' y Hy. by injection Ha' as <-. }
  destruct Ea as (Ec & Ek & Es & Eg).
  assert (Eb : current cb = current c ∧
               geometry cb = geometry c ∧
               desktop_surfaces (kiosk cb) = desktop_surfaces (kiosk c) ∧
               surfaces (kiosk cb) = surfaces (kiosk c) ∧
               weston_surfaces cb !! ds_surface d =
                 Some {| surface_width := surface_width ws;
                         surface_height := surface_height ws;
                         surface_is_mapped := true |}).
  { destruct (surface_is_mapped ws) eqn:Hm; simpl in Hb.
    - injection Hb as <-. rewrite Ec, Ek, Es, Eg, Hws. split_and!; try done.
      destruct ws; simpl in *; by subst.
    - bind_step Hb v Hv. bind_step Hb k Hk. injection Hb as <-.
      unfold weston_layer_entry_insert in Hk.
      destruct (decide _) in Hk; [done|]. injection Hk as <-. simpl.
      rewrite Ec, Ek, Eg, lookup_insert_eq. done. }
  destruct Eb as (Ec' & Eg' & Ed' & Es' & Hws').
  match goal with
  | |- context [with_geometry _ ?X] => set (c0 := X)
  end.
  assert (E0 : current c0 = current c ∧ geometry c0 = geometry c ∧
               desktop_surfaces (kiosk c0) = desktop_surfaces (kiosk c) ∧
               surfaces (kiosk c0) = surfaces (kiosk c) ∧
               weston_surfaces c0 !! ds_surface d =
                 Some {| surface_width := surface_width ws;
                         surface_height := surface_height ws;
                         surface_is_mapped := true |})
    by (subst c0; by destruct (negb _ && _)).
  destruct E0 as (E1 & E2 & E3 & E4 & E5).
  exists w, r, cur, c0. split_and!; try done.
  by rewrite E2.
Qed.

(** X13. A commit that is repeated changes nothing: after a commit that
    returned, a second commit of the same desktop surface with the same
    buffer size leaves the state as it is, whatever its offset if the
    window is fullscreen or maximized, and with offset zero otherwise. *)
Theorem commit_again c ds sx sy c1 sx' sy' :
  desktop_surface_committed c ds sx sy = Some c1 →
  (∀ cur, current c !! ds = Some cur →
          cur_maximized cur || cur_fullscreen cur = false →
          sx' = 0%Z ∧ sy' = 0%Z) →
  desktop_surface_committed c1 ds sx' sy' = Some c1.
Proof.
  intros H Hoff.
  destruct (desktop_surfaces (kiosk c) !! ds) as [d|] eqn:Hd.
  2:{ unfold desktop_surface_committed in H. by rewrite Hd in H. }
  destruct (weston_surfaces c !! ds_surface d) as [ws|] eqn:Hws.
  2:{ unfold desktop_surface_committed in H. rewrite Hd in H. simpl in H.
      by rewrite Hws in H. }
  destruct (decide (surface_width ws = 0%Z)) as [Hz|Hnz].
  { unfold desktop_surface_committed in H. rewrite Hd in H. simpl in H.
    rewrite Hws in H. simpl in H. rewrite bool_decide_eq_true_2 in H by done.
    injection H as <-.
    unfold desktop_surface_committed. rewrite Hd. simpl. rewrite Hws. simpl.
    by rewrite bool_decide_eq_true_2. }
  destruct (committed_nonzero c ds sx sy c1 d ws Hd Hws Hnz H)
    as (w & r & cur & c0 & Hw & Hr & Hcur & -> & Ec & Ed & Es & Hws').
  unfold desktop_surface_committed. simpl. rewrite Ed, Hd. simpl.
  rewrite Hws'. simpl. rewrite bool_decide_eq_false_2 by done.
  rewrite Hw. simpl. rewrite Es, Hr. simpl. rewrite Ec, Hcur. simpl.
  assert (Hg : geometry_of
                 (with_geometry
                    (<[w:=committed_size ws (geometry_of c w)]> (geometry c)) c0) w
               = committed_size ws (geometry_of c w))
    by (unfold geometry_of; simpl; by rewrite lookup_insert_eq).
  rewrite Hg. simpl.
  assert (Hsame : ∀ z : Z, bool_decide (z ≠ z) = false)
    by (intros z; apply bool_decide_eq_false; intros Hne; by apply Hne).
  rewrite !Hsame. simpl.
  assert (Hskip : negb (cur_maximized cur || cur_fullscreen cur) &&
                  (bool_decide (sx' ≠ 0%Z) || bool_decide (sy' ≠ 0%Z)) = false).
  { destruct (cur_maximized cur || cur_fullscreen cur) eqn:Hfs; [done|].
    destruct (Hoff cur Hcur Hfs) as [-> ->]. by rewrite !Hsame. }
  rewrite Hskip. unfold with_geometry. simpl. do 2 f_equal.
  by rewrite insert_insert_eq.
Qed.

Lemma commit_again_witness :
  ∃ c1,
    desktop_surface_committed Demo.windows 10 0 0 = Some c1 ∧
    desktop_surface_committed c1 10 3 4 = Some c1 ∧
    scene c1 = [CenterOnOutput 20 (Some 2); ViewUpdateTransform 20].
Proof.
  pose (c1 := default Demo.windows (desktop_surface_committed Demo.windows 10 0 0)).
  assert (Hc1 : desktop_surface_committed Demo.windows 10 0 0 = Some c1)
    by (vm_compute; reflexivity).
  exists c1. split; [exact Hc1|]. split; [|vm_compute; reflexivity].
  apply (commit_again Demo.windows 10 0 0 c1 3 4 Hc1).
  intros cur Hcur Hfs. vm_compute in Hcur. injection Hcur as <-. discriminate.
Defined.

(** ** A view is activated *)

Lemma filter_ne_raise (view : view_ptr) (l : list view_ptr) :
  filter (λ v, v ≠ view) (view :: filter (λ v, v ≠ view) l) =
  filter (λ v, v ≠ view) l.
Proof.
  rewrite filter_cons_False by (intros H; by apply H).
  apply list_filter_filter_l. done.
Qed.

(** X14. Activating a view raises it to the top of the normal layer if it
    belongs to a window with a parent and leaves the layer as it is for a
    root window; a view without window is ignored.  The other views keep
    their order, no view leaves the layer or is listed twice, no record
    changes, and activating the view again leaves the layer as it is. *)
Theorem activate_view_restacks c view seat flags c' :
  kiosk_shell_activate_view c view seat flags = Some c' →
  let l := normal_layer (kiosk c) in
  let l' := normal_layer (kiosk c') in
  match view_window c view with
  | None => c' = c
  | Some w =>
      ∃ r, surfaces (kiosk c) !! w = Some r ∧
           l' = (if shsurf_parent r is Some _
                 then view :: filter (λ v, v ≠ view) l else l) ∧
           journal (kiosk c') = journal (kiosk c) ++ [ViewActivate view seat flags]
  end ∧
  filter (λ v, v ≠ view) l' = filter (λ v, v ≠ view) l ∧
  (NoDup l → NoDup l') ∧
  (∀ x, x ∈ l → x ∈ l') ∧
  surfaces (kiosk c') = surfaces (kiosk c) ∧
  desktop_surfaces (kiosk c') = desktop_surfaces (kiosk c) ∧
  views (kiosk c') = views (kiosk c) ∧
  ∀ seat2 flags2 c'',
    kiosk_shell_activate_view c' view seat2 flags2 = Some c'' →
    normal_layer (kiosk c'') = l'.
Proof.
  unfold kiosk_shell_activate_view, view_window. intros H.
  bind_step H v Hv. simpl.
  destruct (get_kiosk_shell_surface (kiosk c)
              (main_surface (kiosk c) (view_surface v))) as [w|] eqn:Hw.
  2:{ injection H as <-. split_and!; try done.
      intros seat2 flags2 c''. rewrite Hv. simpl. rewrite Hw. by intros [= <-]. }
  bind_step H r Hr.
  assert (Hins : weston_layer_entry_insert view
                   (weston_layer_entry_remove view (kiosk c)) =
                 Some (with_normal_layer
                         (view :: filter (λ v, v ≠ view) (normal_layer (kiosk c)))
                         (kiosk c))).
  { unfold weston_layer_entry_insert, weston_layer_entry_remove. simpl.
    rewrite decide_False; [done|].
    intros [Hne _]%list_elem_of_filter. by apply Hne. }
  destruct (shsurf_parent r) as [p|] eqn:Hp; simpl in H.
  - rewrite Hins in H. simpl in H. injection H as <-. simpl.
    split_and!; try done.
    + exists r. by rewrite Hp.
    + apply filter_ne_raise.
    + intros Hnd. apply NoDup_cons. split.
      * intros [Hne _]%list_elem_of_filter. by apply Hne.
      * by apply NoDup_filter.
    + intros x Hx. destruct (decide (x = view)) as [->|]; [by left|].
      right. by apply list_elem_of_filter.
    + intros seat2 flags2 c''. rewrite Hv. simpl.
      unfold get_kiosk_shell_surface, weston_desktop_surface_get_user_data in *.
      simpl. rewrite Hw. rewrite Hr. simpl. rewrite Hp.
      unfold weston_layer_entry_insert, weston_layer_entry_remove. simpl.
      rewrite filter_ne_raise.
      rewrite decide_False
        by (intros [Hne _]%list_elem_of_filter; by apply Hne).
      by intros [= <-].
  - injection H as <-. simpl. split_and!; try done.
    + exists r. by rewrite Hp.
    + intros seat2 flags2 c''. rewrite Hv. simpl.
      unfold get_kiosk_shell_surface, weston_desktop_surface_get_user_data in *.
      simpl. rewrite Hw. rewrite Hr. simpl. rewrite Hp. by intros [= <-].
Qed.

Lemma activate_view_restacks_witness :
  ∃ c',
    kiosk_shell_activate_view Demo.stacked 21 1 0 = Some c' ∧
    normal_layer (kiosk c') = [21; 22; 20] ∧
    NoDup (normal_layer (kiosk c')).
Proof.
  pose (c' := default Demo.stacked (kiosk_shell_activate_view Demo.stacked 21 1 0)).
  assert (Hc' : kiosk_shell_activate_view Demo.stacked 21 1 0 = Some c')
    by (vm_compute; reflexivity).
  destruct (activate_view_restacks Demo.stacked 21 1 0%Z c' Hc')
    as (Hw & _ & Hnd & _).
  exists c'. split; [exact Hc'|]. split.
  - change (view_window Demo.stacked 21) with (Some 2) in Hw.
    destruct Hw as (r & Hr & Hl & _).
    vm_compute in Hr. injection Hr as <-. exact Hl.
  - apply Hnd. refine (bool_decide_unpack _ _). vm_compute. exact I.
Defined.

(** ** An output is resized *)

Lemma resize_frame_refl c : resize_frame c c.
Proof. unfold resize_frame. split_and!; done. Qed.

Lemma resize_frame_trans a b c :
  resize_frame a b → resize_frame b c → resize_frame a c.
Proof.
  unfold resize_frame. intros H1 H2. destruct_and!.
  split_and!; try congruence.
Qed.

Lemma resize_frame_user_data c c' ds :
  resize_frame c c' →
  weston_desktop_surface_get_user_data (kiosk c') ds =
  weston_desktop_surface_get_user_data (kiosk c) ds.
Proof.
  intros H. destruct H as (_ & _ & _ & _ & _ & _ & _ & _ & _ & _ & _ & H).
  specialize (H ds). unfold weston_desktop_surface_get_user_data.
  destruct (desktop_surfaces (kiosk c') !! ds), (desktop_surfaces (kiosk c) !! ds);
    simplify_eq/=; done.
Qed.

Lemma resize_frame_target c c' output view :
  resize_frame c c' → resize_target c' output view = resize_target c output view.
Proof.
  intros H. unfold resize_target, get_kiosk_shell_surface.
  pose proof (λ ds, resize_frame_user_data c c' ds H) as Hud.
  destruct H as (_ & -> & _ & _ & _ & -> & _ & _ & -> & _).
  destruct (views (kiosk c) !! view) as [v|]; simpl; [|done].
  case_bool_decide; [|done].
  destruct (surface_desktop (kiosk c) !! view_surface v); simpl; [|done].
  by apply Hud.
Qed.

Lemma resize_frame_size c c' w :
  resize_frame c c' → reconfigure_size c' w = reconfigure_size c w.
Proof.
  intros H. unfold reconfigure_size.
  destruct H as (-> & _ & _ & -> & _ & _ & _ & -> & _). done.
Qed.

Lemma resize_frame_scene c c' w :
  resize_frame c c' → reconfigure_scene c' w = reconfigure_scene c w.
Proof. intros H. unfold reconfigure_scene. by destruct H as (-> & _). Qed.

Lemma resize_frame_resizable c c' :
  resize_frame c c' → resizable c → resizable c'.
Proof.
  intros Hf (Hres & Hlive & Hcur & Hviews).
  pose proof Hf as (Hs & Hv & Hl & Ho & _ & _ & _ & Hc & _ & _ & _ & Hd).
  split_and!.
  - intros ds d' Hd'. simpl. pose proof (Hd ds) as Hds. rewrite Hd' in Hds.
    destruct (desktop_surfaces (kiosk c) !! ds) as [d|] eqn:Hd0; [|done].
    simpl in Hds. injection Hds as Hu _. rewrite Hu.
    specialize (Hres ds d Hd0). simpl in Hres.
    destruct (ds_user_data d) as [w|]; [|done].
    unfold record_live in *. rewrite Hs.
    destruct (surfaces (kiosk c) !! w) as [r|]; simpl in *; [|done].
    destruct (shsurf_desktop_surface r) as [dsr|]; simpl in *; [|done].
    destruct Hres as [dr Hdr]. specialize (Hd dsr). rewrite Hdr in Hd.
    destruct (desktop_surfaces (kiosk c') !! dsr); [eauto | done].
  - unfold outputs_bound_live. by rewrite Hs, Ho.
  - intros ds d' Hd'. simpl. rewrite Hc.
    specialize (Hd ds). rewrite Hd' in Hd.
    destruct (desktop_surfaces (kiosk c) !! ds) as [d|] eqn:Hd0; [|done].
    by apply (Hcur ds d).
  - by rewrite Hl, Hv.
Qed.

Lemma reconfigure_for_output_spec c w :
  resizable c → is_Some (surfaces (kiosk c) !! w) →
  (∀ r, surfaces (kiosk c) !! w = Some r → is_Some (shsurf_output r) →
        ∃ ds, shsurf_desktop_surface r = Some ds ∧
              is_Some (desktop_surfaces (kiosk c) !! ds)) →
  ∃ c', kiosk_shell_surface_reconfigure_for_output c w = Some c' ∧
        resize_frame c c' ∧
        journal (kiosk c') = journal (kiosk c) ++ reconfigure_size c w ∧
        scene c' = scene c ++ reconfigure_scene c w.
Proof.
  intros (Hres & Hlive & Hcur & _) [r Hr] Hds.
  unfold kiosk_shell_surface_reconfigure_for_output, reconfigure_size,
    reconfigure_scene. rewrite Hr. simpl.
  destruct (shsurf_output r) as [o|] eqn:Ho.
  2:{ exists c. rewrite !app_nil_r. split_and!; done. }
  destruct (Hds r Hr) as (ds & Hd & [d Hdd]); [eauto|]. rewrite Hd. simpl.
  destruct (Hcur ds d Hdd) as [cur Hc]. rewrite Hc. simpl.
  pose proof (Hlive w r Hr) as Hok. simpl in Hok. unfold bound_ok in Hok.
  rewrite Ho in Hok. destruct Hok as [[out Hout] _]. rewrite Hout.
  destruct (cur_maximized cur || cur_fullscreen cur); simpl.
  - unfold lift, weston_desktop_surface_set_size, desktop_command. rewrite Hdd.
    simpl. eexists. split; [done|]. simpl. split_and!; try done.
    + unfold resize_frame. simpl. split_and!; try done. intros ds'.
      destruct (decide (ds' = ds)) as [->|].
      * by rewrite lookup_insert_eq, Hdd.
      * by rewrite lookup_insert_ne.
    + by rewrite <- app_assoc.
  - eexists. split; [done|]. simpl. rewrite app_nil_r, <- app_assoc.
    split_and!; done.
Qed.

Lemma resize_frame_commands c c' output l :
  resize_frame c c' →
  resize_commands c' output l = resize_commands c output l ∧
  resize_scene c' output l = resize_scene c output l.
Proof.
  intros H. unfold resize_commands, resize_scene.
  induction l as [|view l [IH1 IH2]]; [done|]. rewrite !bind_cons.
  rewrite IH1, IH2, (resize_frame_target c c' output view H).
  destruct (resize_target c output view) as [w|]; [|done].
  by rewrite (resize_frame_size c c' w H), (resize_frame_scene c c' w H).
Qed.

Lemma output_resized_loop_spec c output l :
  resizable c → Forall (λ view, is_Some (views (kiosk c) !! view)) l →
  ∃ c', output_resized_loop c output l = Some c' ∧
        resize_frame c c' ∧
        journal (kiosk c') = journal (kiosk c) ++ resize_commands c output l ∧
        scene c' = scene c ++ resize_scene c output l.
Proof.
  revert c. induction l as [|view l IH]; intros c Hok Hl.
  { exists c. unfold resize_commands, resize_scene. simpl. rewrite !app_nil_r.
    split_and!; try done; apply resize_frame_refl. }
  apply Forall_cons in Hl as [[v Hv] Hl].
  assert (Hstep : ∃ c1,
    (v ← views (kiosk c) !! view;
     if bool_decide (view_output c !! view = Some output)
     then match get_kiosk_shell_surface (kiosk c) (view_surface v) with
          | None => Some c
          | Some shsurf => kiosk_shell_surface_reconfigure_for_output c shsurf
          end
     else Some c) = Some c1 ∧
    resize_frame c c1 ∧
    journal (kiosk c1) = journal (kiosk c) ++
      match resize_target c output view with
      | Some w => reconfigure_size c w | None => [] end ∧
    scene c1 = scene c ++
      match resize_target c output view with
      | Some w => reconfigure_scene c w | None => [] end).
  { unfold resize_target. rewrite Hv. simpl.
    case_bool_decide.
    2:{ exists c. rewrite !app_nil_r. split_and!; try done; apply resize_frame_refl. }
    destruct (get_kiosk_shell_surface (kiosk c) (view_surface v)) as [w|] eqn:Hw.
    2:{ exists c. rewrite !app_nil_r. split_and!; try done; apply resize_frame_refl. }
    destruct Hok as (Hres & Hrest).
    destruct (resolvable_get _ _ _ Hres Hw) as (r & ds & d & Hr & Hds & Hd).
    apply reconfigure_for_output_spec; [done | eauto |].
    intros r' Hr' _. rewrite Hr in Hr'. injection Hr' as <-. eauto. }
  destruct Hstep as (c1 & Hc1 & Hf1 & Hj1 & Hs1).
  destruct (IH c1) as (c' & Hc' & Hf' & Hj' & Hs').
  { by eapply resize_frame_resizable. }
  { destruct Hf1 as (_ & -> & _). done. }
  exists c'. split.
  - simpl. rewrite Hv in Hc1 |- *. simpl in *.
    case_bool_decide; [|injection Hc1 as ->; done].
    destruct (get_kiosk_shell_surface (kiosk c) (view_surface v));
      [by rewrite Hc1 | injection Hc1 as ->; done].
  - destruct (resize_frame_commands c c1 output l Hf1) as [E1 E2].
    split_and!.
    + by eapply resize_frame_trans.
    + rewrite Hj', Hj1, E1. unfold resize_commands.
      by rewrite bind_cons, <- app_assoc.
    + rewrite Hs', Hs1, E2. unfold resize_scene.
      by rewrite bind_cons, <- app_assoc.
Qed.

(** X15. When an output with a [kiosk_shell_output] is resized, in a state
    whose side records, bound outputs and layer views are live, the handler
    returns: it recreates the background of the output and then, for each
    view of the normal layer shown on the output, in layer order, sets the
    size of the window to that of the output the window is bound to if the
    window is fullscreen or maximized, and centres the view.  It changes
    nothing else: no binding, parent, layer order or focus. *)
Theorem output_resized_reconfigures c output shoutput :
  resizable c →
  kiosk_shell_find_shell_output (kiosk c) output = Some shoutput →
  ∃ c',
    kiosk_shell_handle_output_resized c output = Some c' ∧
    resize_frame c c' ∧
    journal (kiosk c') =
      journal (kiosk c) ++ resize_commands c output (normal_layer (kiosk c)) ∧
    scene c' =
      scene c ++ RecreateBackground (Some output)
              :: resize_scene c output (normal_layer (kiosk c)).
Proof.
  intros Hok Hfind. unfold kiosk_shell_handle_output_resized. rewrite Hfind. simpl.
  assert (Hout : shoutput_output shoutput = Some output).
  { unfold kiosk_shell_find_shell_output in Hfind.
    induction (output_list (kiosk c)) as [|so l IH]; [done|]. simpl in Hfind.
    case_bool_decide; [by injection Hfind as <- | by apply IH]. }
  rewrite Hout.
  set (c0 := scene_log (RecreateBackground (Some output)) c).
  assert (Hf0 : resize_frame c c0) by (unfold resize_frame; split_and!; done).
  destruct (output_resized_loop_spec c0 output (normal_layer (kiosk c)))
    as (c' & Hc' & Hf' & Hj' & Hs').
  { by eapply resize_frame_resizable. }
  { by destruct Hok as (_ & _ & _ & ?). }
  exists c'. destruct (resize_frame_commands c c0 output (normal_layer (kiosk c)) Hf0)
    as [E1 E2].
  split_and!; [done | by eapply resize_frame_trans | by rewrite Hj', E1 |].
  rewrite Hs', E2. unfold c0, scene_log. simpl. by rewrite <- app_assoc.
Qed.

Lemma output_resized_reconfigures_witness :
  ∃ c',
    kiosk_shell_handle_output_resized Demo.stacked 2 = Some c' ∧
    journal (kiosk c') = journal (kiosk Demo.stacked) ++ [SetSize 10 1280 720] ∧
    scene c' = [RecreateBackground (Some 2);
                CenterOnOutput 21 (Some 2); ViewUpdateTransform 21;
                CenterOnOutput 20 (Some 2); ViewUpdateTransform 20].
Proof.
  edestruct (output_resized_reconfigures Demo.stacked 2) as (c' & Hc' & _ & Hj & Hs).
  - refine (bool_decide_unpack _ _). vm_compute. exact I.
  - vm_compute; reflexivity.
  - exists c'. split; [exact Hc'|]. split; [exact Hj | exact Hs].
Defined.


Lemma find_shell_output_loop_app l1 l2 output :
  find_shell_output_loop (l1 ++ l2) output =
  match find_shell_output_loop l1 output with
  | Some so => Some so
  | None => find_shell_output_loop l2 output
  end.
Proof.
  induction l1 as [|so l1 IH]; simpl; [done|]. by case_bool_decide.
Qed.

Lemma find_shell_output_loop_filter l output :
  find_shell_output_loop
    (filter (λ so, shoutput_output so ≠ Some output) l) output = None.
Proof.
  induction l as [|so l IH]; [done|].
  destruct (decide (shoutput_output so = Some output)) as [Heq|Hne].
  - by rewrite filter_cons_False by (intros H; by apply H).
  - rewrite filter_cons_True by done. simpl. by rewrite bool_decide_eq_false_2.
Qed.

(** ** The registry of outputs *)

(** X16. The registry of outputs: after [kiosk_shell_output_create] the
    output is found, under the record that was registered first for it; when
    the allocation fails the registry is as before; after the output is
    destroyed it is not found; and the resize handler has no result for an
    output that is not found, since it reads the missing record. *)
Theorem shell_output_registry st output app_ids :
  kiosk_shell_find_shell_output
    (kiosk_shell_output_create st output app_ids true) output =
    Some (default {| shoutput_output := Some output; shoutput_app_ids := app_ids |}
            (kiosk_shell_find_shell_output st output)) ∧
  kiosk_shell_find_shell_output
    (kiosk_shell_output_create st output app_ids false) output =
    kiosk_shell_find_shell_output st output ∧
  (∀ st', handle_output_destroyed st output = Some st' →
          kiosk_shell_find_shell_output st' output = None) ∧
  (∀ c, kiosk c = st → kiosk_shell_find_shell_output st output = None →
        kiosk_shell_handle_output_resized c output = None).
Proof.
  unfold kiosk_shell_find_shell_output, kiosk_shell_output_create. simpl.
  split_and!.
  - rewrite find_shell_output_loop_app. simpl.
    rewrite bool_decide_eq_true_2 by done.
    by destruct (find_shell_output_loop (output_list st) output).
  - done.
  - intros st' H.
    destruct (handle_output_destroyed_closed st output)
      as (st'' & H' & _ & _ & Hl & _).
    rewrite H in H'. injection H' as <-. rewrite Hl.
    apply find_shell_output_loop_filter.
  - intros c <- Hnone. unfold kiosk_shell_handle_output_resized,
      kiosk_shell_find_shell_output. by rewrite Hnone.
Qed.

Lemma shell_output_registry_witness :
  ∃ st',
    handle_output_destroyed Demo.family_state 2 = Some st' ∧
    kiosk_shell_find_shell_output st' 2 = None ∧
    kiosk_shell_handle_output_resized (with_kiosk st' Demo.windows) 2 = None.
Proof.
  pose (st' := default Demo.initial (handle_output_destroyed Demo.family_state 2)).
  assert (Hst' : handle_output_destroyed Demo.family_state 2 = Some st')
    by (vm_compute; reflexivity).
  destruct (shell_output_registry Demo.family_state 2 None)
    as (_ & _ & Hgone & _).
  destruct (shell_output_registry st' 2 None) as (_ & _ & _ & Hresize).
  exists st'. split; [exact Hst'|]. split; [by apply Hgone|].
  apply (Hresize (with_kiosk st' Demo.windows)); [reflexivity | by apply Hgone].
Defined.
